(** * CommandCanvas: the command interception and warning pipeline

    A shallow embedding of [src/main/warning-engine.ts] (the rule engine),
    [src/main/shell-manager.ts] (the byte sink) and the [shell:write],
    [warning:confirm] and [warning:cancel] handlers registered by
    [registerAllHandlers] in [src/main/ipc-handlers.ts], followed by the
    properties of the hold/resume protocol. *)

From Stdlib Require Import NArith ZArith QArith Lia Bool String Ascii DecimalZ.
From Stdlib Require Import Sorted.
From stdpp Require Import base option list gmap.

Local Open Scope N_scope.

(** ** JavaScript strings

    A JavaScript string is a sequence of UTF-16 code units; [String.length]
    counts code units, and [for (const char of data)] walks the string by
    code points, so that one [char] is a string of one or two code units. *)

Module JS.

Definition code_unit := N.
Abbreviation jsstring := (list N).

(** A literal of the source, written as a Rocq string of 8-bit characters. *)
Definition lit (s : string) : jsstring :=
  map N_of_ascii (list_ascii_of_string s).

(** [s.length]. *)
Definition strlen (s : jsstring) : N := N.of_nat (length s).

Definition is_high_surrogate (u : code_unit) : bool :=
  (0xD800 <=? u) && (u <=? 0xDBFF).
Definition is_low_surrogate (u : code_unit) : bool :=
  (0xDC00 <=? u) && (u <=? 0xDFFF).

(** The string iterator behind [for ... of]: a high surrogate followed by a
    low one is yielded as one two-unit string, anything else unit by unit. *)
Fixpoint code_points (s : jsstring) : list jsstring :=
  match s with
  | [] => []
  | u :: rest =>
      match rest with
      | v :: rest' =>
          if is_high_surrogate u && is_low_surrogate v
          then [u; v] :: code_points rest'
          else [u] :: code_points rest
      | [] => [[u]]
      end
  end.

(** Whether a string begins with the second half of a surrogate pair. *)
Definition starts_low (t : jsstring) : bool :=
  match t with
  | v :: _ => is_low_surrogate v
  | [] => false
  end.

(** [s.charCodeAt(0)]; the iterator never yields an empty string, the
    default stands for NaN's place and is never reached by the handler. *)
Definition charCodeAt0 (s : jsstring) : N := hd 0 s.

(** WhiteSpace and LineTerminator of ECMAScript: what [trim] strips and what
    the pattern escape [\s] matches. *)
Definition is_white_space (u : code_unit) : bool :=
  (u =? 0x09) || (u =? 0x0A) || (u =? 0x0B) || (u =? 0x0C) || (u =? 0x0D)
  || (u =? 0x20) || (u =? 0xA0) || (u =? 0x1680)
  || ((0x2000 <=? u) && (u <=? 0x200A))
  || (u =? 0x2028) || (u =? 0x2029) || (u =? 0x202F) || (u =? 0x205F)
  || (u =? 0x3000) || (u =? 0xFEFF).

Fixpoint trimStart (s : jsstring) : jsstring :=
  match s with
  | u :: rest => if is_white_space u then trimStart rest else s
  | [] => []
  end.

Definition trimEnd (s : jsstring) : jsstring := rev (trimStart (rev s)).

(** [s.trim()]. *)
Definition trim (s : jsstring) : jsstring := trimEnd (trimStart s).

(** [s.slice(0, -1)]: everything but the last code unit. *)
Definition slice_0_m1 (s : jsstring) : jsstring := removelast s.

Fixpoint digits (d : Decimal.uint) : jsstring :=
  match d with
  | Decimal.Nil => []
  | Decimal.D0 d => 48 :: digits d
  | Decimal.D1 d => 49 :: digits d
  | Decimal.D2 d => 50 :: digits d
  | Decimal.D3 d => 51 :: digits d
  | Decimal.D4 d => 52 :: digits d
  | Decimal.D5 d => 53 :: digits d
  | Decimal.D6 d => 54 :: digits d
  | Decimal.D7 d => 55 :: digits d
  | Decimal.D8 d => 56 :: digits d
  | Decimal.D9 d => 57 :: digits d
  end.

(** Number-to-string conversion of an integer time value, as done by
    ['warn-' + Date.now()] (time values are far below 1e21, where the
    conversion is plain decimal). *)
Definition number_toString (z : Z) : jsstring :=
  match Z.to_int z with
  | Decimal.Pos d => digits d
  | Decimal.Neg d => 45 :: digits d
  end.

End JS.

Import JS.

(** ** Completions

    A JavaScript call either returns or throws; [try_catch] is the
    [try { ... } catch (err) { ... }] statement. *)

Inductive completion (A : Type) : Type :=
| Normal (a : A)
| Throw (err : jsstring).
Arguments Normal {A} a.
Arguments Throw {A} err.

Definition bind {A B : Type} (c : completion A) (k : A → completion B)
    : completion B :=
  match c with
  | Normal a => k a
  | Throw err => Throw err
  end.

Definition try_catch {A : Type} (body : completion A)
    (handler : jsstring → completion A) : completion A :=
  match body with
  | Normal a => Normal a
  | Throw err => handler err
  end.

(** [for (const x of xs) { this = body this x }], stopping at the first
    iteration that throws. *)
Fixpoint for_of {S X : Type} (xs : list X) (body : S → X → completion S)
    (this : S) : completion S :=
  match xs with
  | [] => Normal this
  | x :: rest => bind (body this x) (for_of rest body)
  end.

#[global] Instance completion_ret : MRet completion := @Normal.
#[global] Instance completion_bind : MBind completion :=
  fun A B k c => bind c k.

(** ** A concrete fragment of the RegExp pattern language

    [new RegExp(pattern, 'i')] belongs to the JavaScript runtime, not to the
    repository: the engine below is stated over an arbitrary RegExp
    constructor.  To run the engine on the built-in catalog this module
    interprets the part of the pattern language that the catalog is written
    in: alternation, grouping, the quantifiers [*], [+] and [?], character
    classes with ranges, [.], the escapes [\s \S \d \D \w \W \t \n \r],
    escaped punctuation, and the assertions [^] and [$].  A pattern with a
    syntax error, or one outside the fragment, yields [None]. *)

Module RegExpFragment.

Inductive re : Type :=
| Void                                   (* matches nothing *)
| Eps                                    (* matches the empty string *)
| Bol                                    (* ^ *)
| Eol                                    (* $ *)
| Cls (negated : bool) (ranges : list (N * N))
| Cat (r1 r2 : re)
| Alt (r1 r2 : re)
| Star (r : re).

(** Canonicalize of the ignoreCase flag, on the ASCII letters; a code unit
    of 128 or more never canonicalizes to an ASCII one, so it cannot meet
    a class of this fragment through case folding. *)
Definition upper (u : N) : N :=
  if (97 <=? u) && (u <=? 122) then u - 32 else u.
Definition lower (u : N) : N :=
  if (65 <=? u) && (u <=? 90) then u + 32 else u.

Definition in_range (u : N) (r : N * N) : bool :=
  (fst r <=? u) && (u <=? snd r).

Definition in_ranges (ignoreCase : bool) (ranges : list (N * N)) (u : N) : bool :=
  existsb (in_range u) ranges
  || (ignoreCase
      && (existsb (in_range (upper u)) ranges
          || existsb (in_range (lower u)) ranges)).

Definition cls_matches (ignoreCase negated : bool) (ranges : list (N * N))
    (u : N) : bool :=
  xorb negated (in_ranges ignoreCase ranges u).

(** Whether [r] matches the empty string at a position that is at the start
    ([bol]) or the end ([eol]) of the input. *)
Fixpoint nullable (bol eol : bool) (r : re) : bool :=
  match r with
  | Void => false
  | Eps => true
  | Bol => bol
  | Eol => eol
  | Cls _ _ => false
  | Cat r1 r2 => nullable bol eol r1 && nullable bol eol r2
  | Alt r1 r2 => nullable bol eol r1 || nullable bol eol r2
  | Star _ => true
  end.

Definition cat (r1 r2 : re) : re :=
  match r1, r2 with
  | Void, _ => Void
  | _, Void => Void
  | Eps, _ => r2
  | _, _ => Cat r1 r2
  end.

Definition alt (r1 r2 : re) : re :=
  match r1, r2 with
  | Void, _ => r2
  | _, Void => r1
  | _, _ => Alt r1 r2
  end.

(** The residual of [r] after the code unit [u], read at a position that is
    at the start of the input iff [bol] (and, as [u] is there, not at its
    end). *)
Fixpoint deriv (ignoreCase bol : bool) (u : N) (r : re) : re :=
  match r with
  | Void | Eps | Bol | Eol => Void
  | Cls negated ranges =>
      if cls_matches ignoreCase negated ranges u then Eps else Void
  | Cat r1 r2 =>
      let left := cat (deriv ignoreCase bol u r1) r2 in
      if nullable bol false r1
      then alt left (deriv ignoreCase bol u r2)
      else left
  | Alt r1 r2 => alt (deriv ignoreCase bol u r1) (deriv ignoreCase bol u r2)
  | Star r1 => cat (deriv ignoreCase bol u r1) (Star r1)
  end.

Fixpoint matches (ignoreCase bol : bool) (r : re) (s : jsstring) : bool :=
  match s with
  | [] => nullable bol true r
  | u :: rest => matches ignoreCase false (deriv ignoreCase bol u r) rest
  end.

Definition any : re := Cls true [].

(** [regex.test(s)] for a regex without the global or sticky flag: is there
    a match anywhere in [s]. *)
Definition test (ignoreCase : bool) (r : re) (s : jsstring) : bool :=
  matches ignoreCase true (Cat (Star any) (Cat r (Star any))) s.

(** *** Parsing a pattern *)

Definition white_space_ranges : list (N * N) :=
  [(0x09, 0x0D); (0x20, 0x20); (0xA0, 0xA0); (0x1680, 0x1680);
   (0x2000, 0x200A); (0x2028, 0x2029); (0x202F, 0x202F); (0x205F, 0x205F);
   (0x3000, 0x3000); (0xFEFF, 0xFEFF)].
Definition digit_ranges : list (N * N) := [(48, 57)].
Definition word_ranges : list (N * N) := [(48, 57); (65, 90); (95, 95); (97, 122)].
Definition line_terminator_ranges : list (N * N) :=
  [(0x0A, 0x0A); (0x0D, 0x0D); (0x2028, 0x2029)].

Definition is_ascii_alnum (u : N) : bool :=
  ((48 <=? u) && (u <=? 57)) || ((65 <=? u) && (u <=? 90))
  || ((97 <=? u) && (u <=? 122)).

(** The class an escape [\u] denotes, with its negation flag; a letter or
    digit escape outside the fragment gives [None]. *)
Definition escape_class (u : N) : option (bool * list (N * N)) :=
  if u =? 115 then Some (false, white_space_ranges)        (* \s *)
  else if u =? 83 then Some (true, white_space_ranges)     (* \S *)
  else if u =? 100 then Some (false, digit_ranges)         (* \d *)
  else if u =? 68 then Some (true, digit_ranges)           (* \D *)
  else if u =? 119 then Some (false, word_ranges)          (* \w *)
  else if u =? 87 then Some (true, word_ranges)            (* \W *)
  else if u =? 116 then Some (false, [(9, 9)])             (* \t *)
  else if u =? 110 then Some (false, [(10, 10)])           (* \n *)
  else if u =? 114 then Some (false, [(13, 13)])           (* \r *)
  else if is_ascii_alnum u || (128 <=? u) then None
  else Some (false, [(u, u)]).

(** The members of a class after its opening bracket (and [^]), up to the
    closing bracket: single code units, ranges [a-z] and non-negated class
    escapes. *)
Fixpoint parse_class_items (s : jsstring) (acc : list (N * N))
    : option (list (N * N) * jsstring) :=
  match s with
  | [] => None                                   (* unterminated class *)
  | 93 :: rest => Some (acc, rest)               (* ] *)
  | 92 :: e :: rest =>                           (* \e *)
      match escape_class e with
      | Some (false, rs) => parse_class_items rest (acc ++ rs)
      | _ => None
      end
  | lo :: 45 :: hi :: rest =>                    (* lo-hi, or a final - *)
      if hi =? 93 then Some (acc ++ [(lo, lo); (45, 45)], rest)
      else if (hi =? 92) || (128 <=? lo) || (128 <=? hi) then None
      else if hi <? lo then None                 (* range out of order *)
      else parse_class_items rest (acc ++ [(lo, hi)])
  | u :: rest =>
      if 128 <=? u then None else parse_class_items rest (acc ++ [(u, u)])
  end.

Definition parse_class (s : jsstring) : option (re * jsstring) :=
  match s with
  | 94 :: rest =>                                (* [^ *)
      '(rs, rest') ← parse_class_items rest []; Some (Cls true rs, rest')
  | _ => '(rs, rest') ← parse_class_items s []; Some (Cls false rs, rest')
  end.

(** An optional quantifier after an atom, with its optional lazy mark. *)
Definition parse_quantifier (a : re) (s : jsstring) : re * jsstring :=
  let lazy (rest : jsstring) : jsstring :=
    match rest with 63 :: rest' => rest' | _ => rest end in
  match s with
  | 42 :: rest => (Star a, lazy rest)            (* * *)
  | 43 :: rest => (Cat a (Star a), lazy rest)    (* + *)
  | 63 :: rest => (Alt Eps a, lazy rest)         (* ? *)
  | _ => (a, s)
  end.

Definition is_quantifier (s : jsstring) : bool :=
  match s with
  | u :: _ => (u =? 42) || (u =? 43) || (u =? 63) || (u =? 123)
  | [] => false
  end.

Fixpoint parse_disjunction (fuel : nat) (s : jsstring) : option (re * jsstring) :=
  match fuel with
  | O => None
  | S fuel' =>
      '(r1, rest) ← parse_alternative fuel' s;
      match rest with
      | 124 :: rest' =>                          (* | *)
          '(r2, rest'') ← parse_disjunction fuel' rest';
          Some (Alt r1 r2, rest'')
      | _ => Some (r1, rest)
      end
  end
with parse_alternative (fuel : nat) (s : jsstring) : option (re * jsstring) :=
  match fuel with
  | O => None
  | S fuel' =>
      match s with
      | [] => Some (Eps, [])
      | 124 :: _ | 41 :: _ => Some (Eps, s)      (* | and ) end a sequence *)
      | 94 :: rest | 36 :: rest =>               (* ^ and $ *)
          if is_quantifier rest then None
          else
            '(r, rest') ← parse_alternative fuel' rest;
            Some (Cat (if hd 0 s =? 94 then Bol else Eol) r, rest')
      | _ =>
          '(a, rest) ← parse_atom fuel' s;
          let '(q, rest') := parse_quantifier a rest in
          '(r, rest'') ← parse_alternative fuel' rest';
          Some (Cat q r, rest'')
      end
  end
with parse_atom (fuel : nat) (s : jsstring) : option (re * jsstring) :=
  match fuel with
  | O => None
  | S fuel' =>
      match s with
      | [] => None
      | 40 :: 63 :: 58 :: rest                   (* (?: *)
        => '(r, rest') ← parse_disjunction fuel' rest;
           match rest' with 41 :: rest'' => Some (r, rest'') | _ => None end
      | 40 :: 63 :: _ => None                    (* other (? groups *)
      | 40 :: rest =>                            (* ( *)
          '(r, rest') ← parse_disjunction fuel' rest;
          match rest' with 41 :: rest'' => Some (r, rest'') | _ => None end
      | 91 :: rest => parse_class rest           (* [ *)
      | 92 :: e :: rest =>                       (* \e *)
          '(negated, rs) ← escape_class e; Some (Cls negated rs, rest)
      | 92 :: [] => None                         (* \ at end of pattern *)
      | 46 :: rest => Some (Cls true line_terminator_ranges, rest)   (* . *)
      | u :: rest =>
          if (u =? 42) || (u =? 43) || (u =? 63) then None  (* nothing to repeat *)
          else if (u =? 123) || (128 <=? u) then None       (* outside the fragment *)
          else Some (Cls false [(u, u)], rest)
      end
  end.

Definition parse (pattern : jsstring) : option re :=
  match parse_disjunction (4 * length pattern + 4) pattern with
  | Some (r, []) => Some r
  | _ => None                                    (* e.g. an unmatched ) *)
  end.

(** The constructor on the fragment, for the flag strings [''] and ['i'];
    it throws a SyntaxError where it does not produce a regex. *)
Definition RegExp_new (pattern flags : jsstring) : completion (jsstring → bool) :=
  if decide (flags = lit "i" ∨ flags = [])
  then match parse pattern with
       | Some r => Normal (test (bool_decide (flags = lit "i")) r)
       | None => Throw (lit "SyntaxError: Invalid regular expression")
       end
  else Throw (lit "SyntaxError: Invalid flags").

End RegExpFragment.

(** ** Shared types ([src/shared/types.ts]) *)

Inductive RiskLevel : Type := low | medium | high | critical.

Module WarningRule.
Record t : Type := mk {
  id : jsstring;
  name : jsstring;
  pattern : jsstring;
  riskLevel : RiskLevel;
  description : jsstring;
  recommendation : jsstring;
}.
End WarningRule.

Module WarningResult.
Record t : Type := mk {
  warningId : jsstring;
  ruleId : jsstring;
  riskLevel : RiskLevel;
  command : jsstring;
  description : jsstring;
  recommendation : jsstring;
}.
End WarningResult.

Module WarningDisplayPayload.
Record t : Type := mk {
  warningId : jsstring;
  command : jsstring;
  riskLevel : RiskLevel;
  description : jsstring;
  recommendation : jsstring;
}.
End WarningDisplayPayload.

Module WarningsConfig.
Record t : Type := mk {
  enabled : bool;
  disabledBuiltInRules : list jsstring;
  customRules : list WarningRule.t;
}.
End WarningsConfig.

Module PendingCommand.
Record t : Type := mk {
  warningId : jsstring;
  pendingData : jsstring;
}.
End PendingCommand.

(** ** The built-in catalog ([warning-engine.ts]) *)

Definition BUILT_IN_RULES : list WarningRule.t := [
  WarningRule.mk (lit "rm-rf") (lit "Recursive Force Delete")
    (lit "rm\s+(-[a-zA-Z]*r[a-zA-Z]*f|f[a-zA-Z]*r)") critical
    (lit "Recursively deletes files without confirmation. Can destroy important data.")
    (lit "Double-check the target path. Consider using trash-cli instead.");
  WarningRule.mk (lit "rm-root") (lit "Delete Root")
    (lit "rm\s+.*\s+/") critical
    (lit "Targets the root filesystem for deletion.")
    (lit "This will destroy your entire system. Almost certainly not what you want.");
  WarningRule.mk (lit "sudo") (lit "Superuser Execution")
    (lit "^sudo\s+") medium
    (lit "Executes command with superuser privileges.")
    (lit "Verify you trust this command before running with elevated permissions.");
  WarningRule.mk (lit "git-reset-hard") (lit "Git Hard Reset")
    (lit "git\s+reset\s+--hard") high
    (lit "Discards all uncommitted changes permanently.")
    (lit "Consider git stash first to preserve your changes.");
  WarningRule.mk (lit "git-force-push") (lit "Git Force Push")
    (lit "git\s+push\s+.*--force") high
    (lit "Overwrites remote history. Can cause data loss for collaborators.")
    (lit "Use --force-with-lease for a safer alternative.");
  WarningRule.mk (lit "chmod-777") (lit "Open Permissions")
    (lit "chmod\s+777") high
    (lit "Sets file permissions to fully open (read/write/execute for everyone).")
    (lit "Use more restrictive permissions like 755 or 644.");
  WarningRule.mk (lit "dd") (lit "Disk Dump")
    (lit "^dd\s+") critical
    (lit "Low-level disk copy tool. Can overwrite disk partitions.")
    (lit "Verify the of= (output file) parameter extremely carefully.");
  WarningRule.mk (lit "mkfs") (lit "Format Filesystem")
    (lit "mkfs") critical
    (lit "Formats a filesystem partition, destroying all data on it.")
    (lit "Triple-check the target device before executing.");
  WarningRule.mk (lit "git-clean-fd") (lit "Git Clean Force")
    (lit "git\s+clean\s+.*-[a-zA-Z]*f") high
    (lit "Permanently removes untracked files from the working directory.")
    (lit "Run git clean -n first for a dry-run preview.");
  WarningRule.mk (lit "curl-pipe-sh") (lit "Pipe to Shell")
    (lit "curl\s+.*\|.*sh") high
    (lit "Downloads and immediately executes a remote script.")
    (lit "Download the script first, review it, then execute.")
].

(** ** The warning engine ([warning-engine.ts]) *)

Module CompiledRule.
Record t : Type := mk {
  rule : WarningRule.t;
  regex : jsstring → bool;   (* the RegExp object, through its [test] *)
}.
End CompiledRule.

Module WarningEngine.

Record t : Type := mk {
  enabled : bool;
  compiledRules : list CompiledRule.t;
  allRules : list WarningRule.t;
}.

Definition push_allRules (rule : WarningRule.t) (this : t) : t :=
  mk (enabled this) (compiledRules this) (allRules this ++ [rule]).
Definition push_compiledRules (cr : CompiledRule.t) (this : t) : t :=
  mk (enabled this) (compiledRules this ++ [cr]) (allRules this).
Definition clear_compiledRules (this : t) : t :=
  mk (enabled this) [] (allRules this).

Section Engine.

(** [new RegExp(pattern, flags)] of the runtime: a [test] function, or a
    thrown SyntaxError.  The regexes the engine builds carry the flag ['i']
    only, so [test] keeps no state between calls. *)
Variable RegExp_new : jsstring → jsstring → completion (jsstring → bool).

(** [Date.now()] of the runtime: the value its k-th call returns. *)
Variable Date_now : nat → Z.

(** [compileRules]: the [console.error] of the catch block writes a log
    line and changes nothing of the engine. *)
Definition compileRules (this : t) : completion t :=
  for_of (allRules this)
    (fun this rule =>
       try_catch
         (regex ← RegExp_new (WarningRule.pattern rule) (lit "i");
          Normal (push_compiledRules (CompiledRule.mk rule regex) this))
         (fun err => Normal this))
    (clear_compiledRules this).

Definition constructor (config : WarningsConfig.t) : completion t :=
  let this := mk (WarningsConfig.enabled config) [] [] in
  let disabledSet : gset jsstring :=
    list_to_set (WarningsConfig.disabledBuiltInRules config) in
  let this :=
    fold_left
      (fun this rule =>
         if negb (bool_decide (WarningRule.id rule ∈ disabledSet))
         then push_allRules rule this
         else this)
      BUILT_IN_RULES this in
  let this :=
    fold_left (fun this customRule => push_allRules customRule this)
      (WarningsConfig.customRules config) this in
  compileRules this.

(** The loop of [evaluate] over [this.compiledRules]; [reads] counts the
    calls of [Date.now()] made so far. *)
Fixpoint evaluate_loop (rules : list CompiledRule.t) (trimmed : jsstring)
    (reads : nat) : option WarningResult.t * nat :=
  match rules with
  | [] => (None, reads)
  | cr :: rest =>
      if CompiledRule.regex cr trimmed
      then
        let rule := CompiledRule.rule cr in
        (Some (WarningResult.mk
                 (lit "warn-" ++ number_toString (Date_now reads))
                 (WarningRule.id rule)
                 (WarningRule.riskLevel rule)
                 trimmed
                 (WarningRule.description rule)
                 (WarningRule.recommendation rule)),
         S reads)
      else evaluate_loop rest trimmed reads
  end.

Definition evaluate (this : t) (command : jsstring) (reads : nat)
    : option WarningResult.t * nat :=
  if negb (enabled this) then (None, reads)
  else
    let trimmed := trim command in
    if strlen trimmed =? 0 then (None, reads)
    else evaluate_loop (compiledRules this) trimmed reads.

Definition addRule (rule : WarningRule.t) (this : t) : completion t :=
  compileRules (push_allRules rule this).

Definition getRules (this : t) : list WarningRule.t := allRules this.

Definition setEnabled (flag : bool) (this : t) : t :=
  mk flag (compiledRules this) (allRules this).

End Engine.

End WarningEngine.

(** ** The handlers of [registerAllHandlers] ([ipc-handlers.ts])

    [World] gathers what the handlers read and write: the pty behind the
    [ShellManager] ([shell-manager.ts]), the three variables that
    [registerAllHandlers] closes over, the renderer window that receives
    [warning:triggered], and the number of [Date.now()] calls made so far.
    The logger calls write log lines and are left out. *)

Module IpcHandlers.

Record World : Type := mkWorld {
  (* ShellManager: [ptyProcess !== null], and the data written to the pty *)
  ptyAlive : bool;
  ptyInput : list jsstring;
  (* closure state of registerAllHandlers *)
  lineBuffer : jsstring;
  pendingCommands : gmap jsstring PendingCommand.t;
  inEscapeSequence : bool;
  (* the window found by getWebContents(), and what was sent to it *)
  hasWindow : bool;
  warningTriggered : list WarningDisplayPayload.t;
  (* calls of Date.now() so far *)
  clockReads : nat;
}.

Definition MAX_LINE_BUFFER_LENGTH : N := 65536.

Definition set_ptyInput (i : list jsstring) (w : World) : World :=
  mkWorld (ptyAlive w) i (lineBuffer w) (pendingCommands w)
    (inEscapeSequence w) (hasWindow w) (warningTriggered w) (clockReads w).
Definition set_lineBuffer (b : jsstring) (w : World) : World :=
  mkWorld (ptyAlive w) (ptyInput w) b (pendingCommands w)
    (inEscapeSequence w) (hasWindow w) (warningTriggered w) (clockReads w).
Definition set_pendingCommands (m : gmap jsstring PendingCommand.t)
    (w : World) : World :=
  mkWorld (ptyAlive w) (ptyInput w) (lineBuffer w) m
    (inEscapeSequence w) (hasWindow w) (warningTriggered w) (clockReads w).
Definition set_inEscapeSequence (f : bool) (w : World) : World :=
  mkWorld (ptyAlive w) (ptyInput w) (lineBuffer w) (pendingCommands w)
    f (hasWindow w) (warningTriggered w) (clockReads w).
Definition set_warningTriggered (l : list WarningDisplayPayload.t)
    (w : World) : World :=
  mkWorld (ptyAlive w) (ptyInput w) (lineBuffer w) (pendingCommands w)
    (inEscapeSequence w) (hasWindow w) l (clockReads w).
Definition set_clockReads (n : nat) (w : World) : World :=
  mkWorld (ptyAlive w) (ptyInput w) (lineBuffer w) (pendingCommands w)
    (inEscapeSequence w) (hasWindow w) (warningTriggered w) n.

(** [shellManager.isAlive()] and [shellManager.write(data)]. *)
Definition isAlive (w : World) : bool := ptyAlive w.
Definition shellManager_write (data : jsstring) (w : World) : World :=
  if ptyAlive w then set_ptyInput (ptyInput w ++ [data]) w else w.

(** [const wc = getWebContents(); if (wc) wc.send(WARNING_TRIGGERED, payload)]. *)
Definition send_warningTriggered (payload : WarningDisplayPayload.t)
    (w : World) : World :=
  if hasWindow w
  then set_warningTriggered (warningTriggered w ++ [payload]) w
  else w.

(** The [warningPayload] built from a [warningResult]. *)
Definition warningPayload_of (warningResult : WarningResult.t)
    : WarningDisplayPayload.t :=
  WarningDisplayPayload.mk
    (WarningResult.warningId warningResult)
    (WarningResult.command warningResult)
    (WarningResult.riskLevel warningResult)
    (WarningResult.description warningResult)
    (WarningResult.recommendation warningResult).

(** The characters of the source, as one-unit strings. *)
Definition ESC : jsstring := [0x1b].
Definition DEL : jsstring := [0x7f].
Definition BS : jsstring := [0x08].
Definition CR : jsstring := [0x0d].
Definition LF : jsstring := [0x0a].
Definition CTRL_U : jsstring := [0x15].

(** [/[A-Za-z~]/.test(char)]: some code unit of [char] is a letter or a tilde. *)
Definition ends_escape_sequence (char : jsstring) : bool :=
  existsb (fun u => ((65 <=? u) && (u <=? 90)) || ((97 <=? u) && (u <=? 122))
                    || (u =? 126)) char.

Section Handlers.

Variable Date_now : nat → Z.
Variable warningEngine : WarningEngine.t.

(** The Enter branch of the [shell:write] loop. *)
Definition on_enter (char : jsstring) (w : World) : World :=
  let command := trim (lineBuffer w) in
  if strlen command =? 0 then
    set_lineBuffer [] (shellManager_write char w)
  else
    let '(warningResult, reads) :=
      WarningEngine.evaluate Date_now warningEngine command (clockReads w) in
    let w := set_clockReads reads w in
    match warningResult with
    | None => set_lineBuffer [] (shellManager_write char w)
    | Some warningResult =>
        let w :=
          set_pendingCommands
            (<[WarningResult.warningId warningResult :=
                 PendingCommand.mk (WarningResult.warningId warningResult) CR]>
               (pendingCommands w)) w in
        let warningPayload := warningPayload_of warningResult in
        send_warningTriggered warningPayload w
    end.

(** One iteration of [for (const char of data)]. *)
Definition process_char (w : World) (char : jsstring) : World :=
  if decide (char = ESC) then
    shellManager_write char (set_inEscapeSequence true w)
  else if inEscapeSequence w then
    let w := shellManager_write char w in
    if ends_escape_sequence char then set_inEscapeSequence false w else w
  else if decide (char = DEL ∨ char = BS) then
    shellManager_write char (set_lineBuffer (slice_0_m1 (lineBuffer w)) w)
  else if (charCodeAt0 char <? 0x20)
          && negb (bool_decide (char = CR)) && negb (bool_decide (char = LF)) then
    shellManager_write char (set_lineBuffer [] w)
  else if decide (char = CR ∨ char = LF) then
    on_enter char w
  else
    let w :=
      if strlen (lineBuffer w) <? MAX_LINE_BUFFER_LENGTH
      then set_lineBuffer (lineBuffer w ++ char) w
      else w in
    shellManager_write char w.

(** The [shell:write] handler. *)
Definition shell_write (data : jsstring) (w : World) : World :=
  if negb (isAlive w) then w
  else fold_left process_char (code_points data) w.

(** The [warning:confirm] handler. *)
Definition warning_confirm (warningId : jsstring) (w : World) : World :=
  match pendingCommands w !! warningId with
  | Some pending =>
      let w := shellManager_write (PendingCommand.pendingData pending) w in
      let w := set_pendingCommands (delete warningId (pendingCommands w)) w in
      set_lineBuffer [] w
  | None => w
  end.

(** The [warning:cancel] handler. *)
Definition warning_cancel (warningId : jsstring) (w : World) : World :=
  match pendingCommands w !! warningId with
  | Some pending =>
      let w := set_pendingCommands (delete warningId (pendingCommands w)) w in
      let w := set_lineBuffer [] w in
      shellManager_write CTRL_U w
  | None => w
  end.

(** The exit of the pty: the callback registered by the [shell:spawn]
    handler clears the pipeline state (and notifies the renderer), then the
    [ShellManager] drops its process. *)
Definition shell_exit (w : World) : World :=
  mkWorld false (ptyInput w) [] ∅ false (hasWindow w) (warningTriggered w)
    (clockReads w).

(** [shellManager.kill()], the [shell:kill] handler. *)
Definition shell_kill (w : World) : World :=
  mkWorld false (ptyInput w) (lineBuffer w) (pendingCommands w)
    (inEscapeSequence w) (hasWindow w) (warningTriggered w) (clockReads w).

(** The [warning:check] handler: the result goes back to the renderer; of
    the state only the clock moves. *)
Definition warning_check (command : jsstring) (w : World) : World :=
  set_clockReads
    (snd (WarningEngine.evaluate Date_now warningEngine command (clockReads w))) w.

(** What reaches the main process, in arrival order. *)
Inductive event : Type :=
| ShellWrite (data : jsstring)
| WarningCheck (command : jsstring)
| WarningConfirm (warningId : jsstring)
| WarningCancel (warningId : jsstring)
| ShellKill
| ShellExit.

Definition handle (w : World) (e : event) : World :=
  match e with
  | ShellWrite data => shell_write data w
  | WarningCheck command => warning_check command w
  | WarningConfirm warningId => warning_confirm warningId w
  | WarningCancel warningId => warning_cancel warningId w
  | ShellKill => shell_kill w
  | ShellExit => shell_exit w
  end.

Definition run (events : list event) (w : World) : World :=
  fold_left handle events w.

End Handlers.

(** The state right after [shell:spawn] has started a shell, with a window open. *)
Definition spawned : World := mkWorld true [] [] ∅ false true [] 0.

End IpcHandlers.

(** ** The rule set and its compiled rules, in the words of the specification *)

Module EngineSpec.

Section WithRegExp.

Variable RegExp_new : jsstring → jsstring → completion (jsstring → bool).

(** The rule set in the words of the specification: the built-ins in catalog
    order without the disabled ones, then the custom rules in configuration
    order. *)
Definition rule_set (config : WarningsConfig.t) : list WarningRule.t :=
  filter (λ rule, WarningRule.id rule ∉ WarningsConfig.disabledBuiltInRules config)
    BUILT_IN_RULES
  ++ WarningsConfig.customRules config.

(** A rule with its matcher when its pattern compiles under the flag ['i']. *)
Definition compiled (rule : WarningRule.t) : option CompiledRule.t :=
  match RegExp_new (WarningRule.pattern rule) (lit "i") with
  | Normal regex => Some (CompiledRule.mk rule regex)
  | Throw _ => None
  end.

(** The successfully compiled rules of a rule list, in its order. *)
Definition active_rules (rules : list WarningRule.t) : list CompiledRule.t :=
  omap compiled rules.

(** The Warning Result for a matching rule. *)
Definition result_for (cr : CompiledRule.t) (trimmed : jsstring) (now : Z)
    : WarningResult.t :=
  let rule := CompiledRule.rule cr in
  WarningResult.mk (lit "warn-" ++ number_toString now)
    (WarningRule.id rule) (WarningRule.riskLevel rule) trimmed
    (WarningRule.description rule) (WarningRule.recommendation rule).

(** The engine's invariant: the compiled list is the rule list with the
    uncompilable rules left out. *)
Definition well_compiled (this : WarningEngine.t) : Prop :=
  WarningEngine.compiledRules this = active_rules (WarningEngine.allRules this).

End WithRegExp.

End EngineSpec.

(** ** The hold protocol, in the words of the specification

    What the specification says of one line terminator [char] arriving in
    the world [w], to be compared with what the handlers do. *)

Module AsSpecified.
Import IpcHandlers.

Section WithEngine.

Variable Date_now : nat → Z.
Variable warningEngine : WarningEngine.t.


(** A match while the decision [earlier] is pending cancels it: at most one
    decision stays in the ledger, the earlier entry is gone, and a later
    confirm of it forwards nothing. *)
Definition earlier_decision_cancelled (w : World) (char earlier : jsstring)
    : Prop :=
  let after := shell_write Date_now warningEngine char w in
  (size (pendingCommands after) ≤ 1)%nat
  ∧ pendingCommands after !! earlier = None
  ∧ ptyInput (warning_confirm earlier after) = ptyInput after.

(** The buffer is cleared when the terminator is detected, whatever the
    outcome, and is still clear once the decision is confirmed. *)
Definition buffer_cleared_at_detection (w : World) (char : jsstring) : Prop :=
  let after := shell_write Date_now warningEngine char w in
  lineBuffer after = []
  ∧ ∀ warningId, lineBuffer (warning_confirm warningId after) = [].

End WithEngine.

End AsSpecified.

(** ** Configurations, clocks and worlds for concrete runs *)

Module Scenarios.
Import IpcHandlers.

(** A clock that advances by a millisecond between two readings, and one
    read twice within the same millisecond. *)
Definition ticking_clock (k : nat) : Z := 1707984000000 + Z.of_nat k.
Definition frozen_clock (k : nat) : Z := 1707984000000.

(** The engine of [new WarningEngine(config)] when construction returns. *)
Definition engine_of (c : completion WarningEngine.t) : WarningEngine.t :=
  match c with
  | Normal this => this
  | Throw _ => WarningEngine.mk false [] []
  end.

Definition default_config : WarningsConfig.t := WarningsConfig.mk true [] [].

Definition default_engine : WarningEngine.t :=
  engine_of (WarningEngine.constructor RegExpFragment.RegExp_new default_config).

(** A configuration whose first custom rule has an unbalanced pattern. *)
Definition broken_config : WarningsConfig.t :=
  WarningsConfig.mk true [lit "sudo"]
    [WarningRule.mk (lit "broken") (lit "Broken") (lit "(danger") low
       (lit "never compiles") (lit "none");
     WarningRule.mk (lit "danger") (lit "Danger") (lit "danger") low
       (lit "mentions danger") (lit "none")].


(** The characters of a string, each written on its own. *)
Definition typed (s : jsstring) : list jsstring := map (λ u, [u]) s.

Definition first_id : jsstring := lit "warn-1707984000000".
Definition second_id : jsstring := lit "warn-1707984000001".

(** ** Worlds reached by typing *)

(** [sudo x] typed, Enter not yet pressed. *)
Definition typed_sudo : World :=
  shell_write ticking_clock default_engine (lit "sudo x") spawned.

(** [sudo x] typed and Enter pressed: the decision [first_id] is pending. *)
Definition held_sudo : World :=
  shell_write ticking_clock default_engine (lit "sudo x" ++ CR) spawned.



(** Enter pressed a second time while [first_id] is pending. *)
Definition held_twice : World :=
  shell_write ticking_clock default_engine CR held_sudo.

(** The Warning Result for [sudo x] under the identifier [id]. *)
Definition sudo_warning (id : jsstring) : WarningResult.t :=
  WarningResult.mk id (lit "sudo") medium (lit "sudo x")
    (lit "Executes command with superuser privileges.")
    (lit "Verify you trust this command before running with elevated permissions.").

End Scenarios.

(** ** Strings without white space at their ends *)

Module TrimSpec.

Definition starts_clean (s : jsstring) : Prop :=
  ∀ u, head s = Some u → is_white_space u = false.
Definition ends_clean (s : jsstring) : Prop :=
  ∀ u, last s = Some u → is_white_space u = false.

End TrimSpec.

(** ** Predicates on characters and ledgers used by the pipeline properties *)

Module PipelineSpec.
Import IpcHandlers.

(** The [char] is one of the two line terminators. *)
Definition is_terminator (char : jsstring) : bool :=
  bool_decide (char = CR ∨ char = LF).

(** A printable code unit that is not half of a surrogate pair: typed on its
    own it forms one [char] that reaches the last branch of the loop. *)
Definition is_plain_unit (u : N) : bool :=
  (32 <=? u) && negb (u =? 127)
  && negb (is_high_surrogate u) && negb (is_low_surrogate u).

(** A control character of the fourth branch of the loop: below 0x20 and
    none of escape, backspace, carriage return and line feed. *)
Definition is_abandon_unit (u : N) : bool :=
  (u <? 32) && negb (u =? 27) && negb (u =? 8) && negb (u =? 13)
  && negb (u =? 10).

(** Every entry of the ledger sits under its own identifier, holds a
    carriage return, and its identifier is ['warn-'] followed by a time
    value in decimal. *)
Definition ledger_entries_wellformed (m : gmap jsstring PendingCommand.t)
    : Prop :=
  ∀ id pending,
    m !! id = Some pending →
    PendingCommand.warningId pending = id
    ∧ PendingCommand.pendingData pending = CR
    ∧ ∃ now : Z, id = lit "warn-" ++ number_toString now.

End PipelineSpec.

(** ** Rules for concrete runs of [addRule] *)

Module RuleScenarios.

Definition broken_rule : WarningRule.t :=
  WarningRule.mk (lit "broken") (lit "Broken") (lit "(danger") low
    (lit "never compiles") (lit "none").

Definition danger_rule : WarningRule.t :=
  WarningRule.mk (lit "danger") (lit "Danger") (lit "danger") low
    (lit "mentions danger") (lit "none").

End RuleScenarios.

(** ** The warning overlay of the renderer ([warning-overlay.ts])

    The module state of [warning-overlay.ts], the container element it
    mounts into, and what leaves the module: the messages that the preload
    script ([preload/index.ts]) sends for [confirmExecution] and
    [cancelExecution], the [warning:dismissed] events, and the resolutions of
    the promises returned by [show].  Colours, icons and the layout of the
    modal are left out; of the DOM only the [hidden] class of the container
    and the warning its modal displays are kept, because they decide which
    buttons can be clicked. *)

Module WarningOverlay.
Import IpcHandlers.

(** [#warning-overlay]: its [hidden] class, and the warning displayed by the
    backdrop and modal it contains, if any. *)
Record Container : Type := mkContainer {
  hidden : bool;
  modal : option WarningDisplayPayload.t;
}.

Inductive action : Type := confirm | cancel.

Record t : Type := mk {
  container : option Container;
  (* the promise of the displayed warning, by order of creation *)
  currentResolve : option nat;
  currentWarningId : option jsstring;
  (* [boundKeydownHandler !== null] *)
  boundKeydownHandler : bool;
  (* promises created by [show], and their resolutions *)
  promises : nat;
  resolved : list (nat * bool);
  (* [ipcRenderer.send] calls of the preload script, in order *)
  ipcSent : list event;
  (* [eventBus.emit('warning:dismissed', ...)] *)
  dismissed : list (jsstring * action);
}.

Definition set_container (c : option Container) (st : t) : t :=
  mk c (currentResolve st) (currentWarningId st) (boundKeydownHandler st)
    (promises st) (resolved st) (ipcSent st) (dismissed st).
Definition set_current (r : option nat) (id : option jsstring) (st : t) : t :=
  mk (container st) r id (boundKeydownHandler st)
    (promises st) (resolved st) (ipcSent st) (dismissed st).
Definition set_boundKeydownHandler (b : bool) (st : t) : t :=
  mk (container st) (currentResolve st) (currentWarningId st) b
    (promises st) (resolved st) (ipcSent st) (dismissed st).
Definition set_promises (n : nat) (st : t) : t :=
  mk (container st) (currentResolve st) (currentWarningId st)
    (boundKeydownHandler st) n (resolved st) (ipcSent st) (dismissed st).
Definition set_resolved (l : list (nat * bool)) (st : t) : t :=
  mk (container st) (currentResolve st) (currentWarningId st)
    (boundKeydownHandler st) (promises st) l (ipcSent st) (dismissed st).
Definition set_dismissed (l : list (jsstring * action)) (st : t) : t :=
  mk (container st) (currentResolve st) (currentWarningId st)
    (boundKeydownHandler st) (promises st) (resolved st) (ipcSent st) l.

(** [ipcRenderer.send(channel, payload)]. *)
Definition ipcRenderer_send (e : event) (st : t) : t :=
  mk (container st) (currentResolve st) (currentWarningId st)
    (boundKeydownHandler st) (promises st) (resolved st)
    (ipcSent st ++ [e]) (dismissed st).

(** [window.api.warning.confirmExecution] and [cancelExecution]
    ([preload/index.ts]). *)
Definition confirmExecution (warningId : jsstring) : t → t :=
  ipcRenderer_send (WarningConfirm warningId).
Definition cancelExecution (warningId : jsstring) : t → t :=
  ipcRenderer_send (WarningCancel warningId).

(** The module before [init]. *)
Definition initial : t := mk None None None false 0 [] [] [].

(** [init(containerEl)]; the subscription to [warning:show] is [on_warning]
    below. *)
Definition init (containerEl : Container) (st : t) : t :=
  set_container (Some containerEl) st.

Definition showContainer (st : t) : t :=
  match container st with
  | Some c => set_container (Some (mkContainer false (modal c))) st
  | None => st
  end.

Definition clearContainer (st : t) : t :=
  match container st with
  | Some c => set_container (Some (mkContainer (hidden c) None)) st
  | None => st
  end.

Definition detachKeyboardHandler (st : t) : t :=
  if boundKeydownHandler st then set_boundKeydownHandler false st else st.

Definition attachKeyboardHandler (st : t) : t :=
  set_boundKeydownHandler true (detachKeyboardHandler st).

Definition hide (st : t) : t :=
  let st :=
    match container st with
    | Some c => clearContainer (set_container (Some (mkContainer true (modal c))) st)
    | None => st
    end in
  let st := detachKeyboardHandler st in
  set_current (currentResolve st) None st.

Definition renderOverlay (warning : WarningDisplayPayload.t) (st : t) : t :=
  match container st with
  | None => st
  | Some _ =>
      let st := clearContainer st in
      match container st with
      | Some c => set_container (Some (mkContainer (hidden c) (Some warning))) st
      | None => st
      end
  end.

(** [if (warningId)]: neither [null] nor the empty string. *)
Definition truthy (warningId : option jsstring) : option jsstring :=
  match warningId with
  | Some [] => None
  | other => other
  end.

Definition dismissWithAction (a : action) (st : t) : t :=
  let warningId := currentWarningId st in
  let resolve := currentResolve st in
  let st := set_current None None st in
  let st :=
    match truthy warningId with
    | Some warningId =>
        let st :=
          match a with
          | confirm => confirmExecution warningId st
          | cancel => cancelExecution warningId st
          end in
        set_dismissed (dismissed st ++ [(warningId, a)]) st
    | None => st
    end in
  let st := hide st in
  match resolve with
  | Some p =>
      set_resolved
        (resolved st ++ [(p, match a with confirm => true | cancel => false end)])
        st
  | None => st
  end.

(** [show(warning)]: the promise returned, and the state once the executor
    of the promise has run. *)
Definition show (warning : WarningDisplayPayload.t) (st : t) : nat * t :=
  let st :=
    match currentResolve st with
    | Some _ => dismissWithAction cancel st
    | None => st
    end in
  let promise := promises st in
  let st := set_promises (S promise) st in
  let st :=
    set_current (Some promise) (Some (WarningDisplayPayload.warningId warning)) st in
  let st := renderOverlay warning st in
  let st := showContainer st in
  let st := attachKeyboardHandler st in
  (promise, st).

(** What can happen to the overlay once [initialize] ([renderer/index.ts])
    has run: a [warning:triggered] message arrives and is re-emitted as
    [warning:show], to which [init] has subscribed [show]; a button of the
    modal or its backdrop is clicked; a key goes down. *)
Inductive dom_event : Type :=
| ClickExecute
| ClickCancel
| ClickBackdrop
| KeyDown (key : jsstring).

Inductive input : Type :=
| WarningShow (payload : WarningDisplayPayload.t)
| Dom (e : dom_event).

(** The buttons and the backdrop exist while the container displays a modal. *)
Definition rendered (st : t) : bool :=
  match container st with
  | Some c => bool_decide (is_Some (modal c))
  | None => false
  end.

Definition on_warning (payload : WarningDisplayPayload.t) (st : t) : t :=
  snd (show payload st).

Definition on_dom_event (e : dom_event) (st : t) : t :=
  match e with
  | ClickExecute => if rendered st then dismissWithAction confirm st else st
  | ClickCancel => if rendered st then dismissWithAction cancel st else st
  | ClickBackdrop => if rendered st then dismissWithAction cancel st else st
  | KeyDown key =>
      if boundKeydownHandler st
      then if decide (key = lit "Escape") then dismissWithAction cancel st else st
      else st
  end.

Definition on_input (st : t) (i : input) : t :=
  match i with
  | WarningShow payload => on_warning payload st
  | Dom e => on_dom_event e st
  end.

Definition run (inputs : list input) (st : t) : t :=
  fold_left on_input inputs st.

(** The warnings shown by a list of inputs, and the identifier a message of
    the overlay decides. *)
Definition shown (inputs : list input) : list WarningDisplayPayload.t :=
  omap (λ i, match i with WarningShow p => Some p | Dom _ => None end) inputs.

Definition decided (e : event) : option jsstring :=
  match e with
  | WarningConfirm id => Some id
  | WarningCancel id => Some id
  | _ => None
  end.

Definition is_confirm (e : event) : bool :=
  match e with
  | WarningConfirm _ => true
  | _ => false
  end.

End WarningOverlay.

(** ** The main process and the renderer together

    One shell session seen from both processes.  The renderer's messages
    ([shell:write] from the terminal, [warning:confirm] and [warning:cancel]
    from the overlay) reach the main process in the order they were sent,
    and so do the [warning:triggered] messages in the other direction;
    [handled] and [delivered] count how many of each have been processed. *)

Module App.
Import IpcHandlers.

Record t : Type := mk {
  main : World;
  renderer : WarningOverlay.t;
  delivered : nat;
  handled : nat;
}.

Inductive action : Type :=
| Keys (data : jsstring)             (* terminal.onData: window.api.shell.write *)
| Ui (e : WarningOverlay.dom_event)
| MainTurn                           (* ipcMain handles the next message *)
| RendererTurn                       (* the next warning:triggered arrives *)
| PtyExit.                           (* the exit of the shell reaches the main process *)

Section WithEngine.

Variable Date_now : nat → Z.
Variable warningEngine : WarningEngine.t.

Definition step (s : t) (a : action) : t :=
  match a with
  | Keys data =>
      mk (main s) (WarningOverlay.ipcRenderer_send (ShellWrite data) (renderer s))
        (delivered s) (handled s)
  | Ui e =>
      mk (main s) (WarningOverlay.on_dom_event e (renderer s))
        (delivered s) (handled s)
  | MainTurn =>
      match WarningOverlay.ipcSent (renderer s) !! handled s with
      | Some e =>
          mk (handle Date_now warningEngine (main s) e) (renderer s)
            (delivered s) (S (handled s))
      | None => s
      end
  | RendererTurn =>
      match warningTriggered (main s) !! delivered s with
      | Some payload =>
          mk (main s) (WarningOverlay.on_warning payload (renderer s))
            (S (delivered s)) (handled s)
      | None => s
      end
  | PtyExit =>
      mk (shell_exit (main s)) (renderer s) (delivered s) (handled s)
  end.

Definition run (actions : list action) (s : t) : t :=
  fold_left step actions s.

End WithEngine.

(** A shell has been spawned and the overlay mounted into [containerEl]. *)
Definition start (containerEl : WarningOverlay.Container) : t :=
  mk spawned (WarningOverlay.init containerEl WarningOverlay.initial) 0 0.

(** Every entry of the ledger is still going to be decided: its warning is
    on its way to the renderer, or is the one displayed, or its decision is
    on its way to the main process. *)
Definition accounted (s : t) : Prop :=
  ∀ id, is_Some (pendingCommands (main s) !! id) →
    id ∈ map WarningDisplayPayload.warningId
           (drop (delivered s) (warningTriggered (main s)))
    ∨ WarningOverlay.currentWarningId (renderer s) = Some id
    ∨ WarningConfirm id ∈ drop (handled s) (WarningOverlay.ipcSent (renderer s))
    ∨ WarningCancel id ∈ drop (handled s) (WarningOverlay.ipcSent (renderer s)).

End App.

(** ** Predicates used by the properties of the overlay and of the two
    processes together *)

Module OverlaySpec.
Import IpcHandlers WarningOverlay.

(** The message that [dismissWithAction] sends for a decision. *)
Definition message (a : action) (warningId : jsstring) : event :=
  match a with
  | confirm => WarningConfirm warningId
  | cancel => WarningCancel warningId
  end.

(** A displayed warning has a promise, and the other way round. *)
Definition coherent (st : t) : Prop :=
  is_Some (currentWarningId st) ↔ is_Some (currentResolve st).

(** The identifiers decided so far followed by the one displayed are [ids];
    the promises resolved so far followed by the current one are the first
    [n] promises. *)
Definition follows (ids : list jsstring) (st : t) : Prop :=
  omap decided (ipcSent st) ++ option_list (currentWarningId st) = ids
  ∧ (resolved st).*1 ++ option_list (currentResolve st)
    = seq 0 (length ids)
  ∧ promises st = length ids
  ∧ coherent st.

Definition is_execute_click (i : input) : bool :=
  match i with
  | Dom ClickExecute => true
  | _ => false
  end.

End OverlaySpec.

Module AppSpec.
Import IpcHandlers PipelineSpec WarningOverlay OverlaySpec App.

(** From [w] to [w'] the window is the same, warnings were only added to
    those sent, and every entry of the ledger of [w'] was in the ledger of
    [w] or belongs to one of the warnings added. *)
Definition announces (w w' : World) : Prop :=
  hasWindow w' = hasWindow w
  ∧ ∃ new,
      warningTriggered w' = warningTriggered w ++ new
      ∧ ∀ id, is_Some (pendingCommands w' !! id) →
          is_Some (pendingCommands w !! id)
          ∨ id ∈ map WarningDisplayPayload.warningId new.

(** What every step of the two processes keeps true. *)
Definition invariant (s : App.t) : Prop :=
  accounted s
  ∧ hasWindow (main s) = true
  ∧ ledger_entries_wellformed (pendingCommands (main s))
  ∧ coherent (renderer s)
  ∧ (delivered s ≤ length (warningTriggered (main s)))%nat
  ∧ (handled s ≤ length (ipcSent (renderer s)))%nat.

End AppSpec.

(** ** Runs of the two processes *)

Module OverlayScenarios.
Import IpcHandlers Scenarios WarningOverlay App.

(** [<div id="warning-overlay" class="overlay hidden"></div>]. *)
Definition overlay_element : Container := mkContainer true None.

(** Two warnings for [sudo x], a millisecond apart. *)
Definition first_warning : WarningDisplayPayload.t :=
  warningPayload_of (sudo_warning first_id).
Definition second_warning : WarningDisplayPayload.t :=
  warningPayload_of (sudo_warning second_id).

(** [sudo a] and Enter have been handled and the warning is on display;
    [sudo b] and Enter have been handled too, and the second warning is on
    its way to the renderer. *)
Definition displaced : App.t :=
  App.run ticking_clock default_engine
    [Keys (lit "sudo a" ++ CR); MainTurn; RendererTurn;
     Keys (lit "sudo b" ++ CR); MainTurn]
    (start overlay_element).

(** The warning raised by the second Enter: the line buffer still held the
    first line. *)
Definition displacing_warning : WarningDisplayPayload.t :=
  WarningDisplayPayload.mk second_id (lit "sudo asudo b") medium
    (lit "Executes command with superuser privileges.")
    (lit "Verify you trust this command before running with elevated permissions.").

(** The warning for [sudo a], on display in [displaced]. *)
Definition first_warning_displayed : WarningDisplayPayload.t :=
  WarningDisplayPayload.mk first_id (lit "sudo a") medium
    (lit "Executes command with superuser privileges.")
    (lit "Verify you trust this command before running with elevated permissions.").

End OverlayScenarios.

(** ** The shell manager ([shell-manager.ts])

    The fields of [ShellManager] and, of node-pty, the calls made to it: the
    processes are numbered in the order of [pty.spawn], and [killed],
    [written] and [resized] record the calls of [kill], [write] and [resize]
    on them.  The two handlers that [spawn] registers on a process close
    over the manager, not over the process; [pty_data] and [pty_exit] are
    those handlers, run when process [p] produces output or exits.  The
    registered callbacks are kept abstract, and the calls made to them are
    recorded.  Log lines are left out. *)

Module ShellManager.

Section Callbacks.

Context {DataCallback ExitCallback : Type}.

Record t : Type := mk {
  ptyProcess : option nat;
  dataCallbacks : list DataCallback;
  exitCallbacks : list ExitCallback;
  currentCwd : jsstring;
  killedByUser : bool;
  (* node-pty *)
  spawnedCount : nat;
  killed : list nat;
  written : list (nat * jsstring);
  resized : list (nat * (Z * Z));
  (* calls of the registered callbacks *)
  dataCalls : list (DataCallback * jsstring);
  exitCalls : list (ExitCallback * Z);
}.

(** [new ShellManager(logger)], with [home] the directory found in the
    environment. *)
Definition constructor (home : jsstring) : t :=
  mk None [] [] home false 0 [] [] [] [] [].

(** [kill()]: an error thrown by the process's [kill] is logged and the
    field is cleared all the same. *)
Definition kill (this : t) : t :=
  match ptyProcess this with
  | Some p =>
      mk None (dataCallbacks this) (exitCallbacks this) (currentCwd this)
        true (spawnedCount this) (killed this ++ [p]) (written this)
        (resized this) (dataCalls this) (exitCalls this)
  | None => this
  end.

(** [spawn(cwd, cols, rows)]; [starts] tells whether [pty.spawn] returns a
    process or throws, in which case [spawn] throws after having cleared the
    callbacks. *)
Definition spawn (cwd : jsstring) (cols rows : Z) (starts : bool) (this : t)
    : t :=
  let this :=
    match ptyProcess this with
    | Some _ => kill this
    | None => this
    end in
  let this :=
    mk (ptyProcess this) [] [] cwd false (spawnedCount this) (killed this)
      (written this) (resized this) (dataCalls this) (exitCalls this) in
  if starts then
    mk (Some (spawnedCount this)) (dataCallbacks this) (exitCallbacks this)
      (currentCwd this) (killedByUser this) (S (spawnedCount this))
      (killed this) (written this) (resized this) (dataCalls this)
      (exitCalls this)
  else this.

Definition write (data : jsstring) (this : t) : t :=
  match ptyProcess this with
  | Some p =>
      mk (ptyProcess this) (dataCallbacks this) (exitCallbacks this)
        (currentCwd this) (killedByUser this) (spawnedCount this)
        (killed this) (written this ++ [(p, data)]) (resized this)
        (dataCalls this) (exitCalls this)
  | None => this
  end.

(** [resize(cols, rows)]: an error thrown by the process's [resize] is
    logged. *)
Definition resize (cols rows : Z) (this : t) : t :=
  match ptyProcess this with
  | Some p =>
      mk (ptyProcess this) (dataCallbacks this) (exitCallbacks this)
        (currentCwd this) (killedByUser this) (spawnedCount this)
        (killed this) (written this) (resized this ++ [(p, (cols, rows))])
        (dataCalls this) (exitCalls this)
  | None => this
  end.

Definition onData (callback : DataCallback) (this : t) : t :=
  mk (ptyProcess this) (dataCallbacks this ++ [callback]) (exitCallbacks this)
    (currentCwd this) (killedByUser this) (spawnedCount this) (killed this)
    (written this) (resized this) (dataCalls this) (exitCalls this).

Definition onExit (callback : ExitCallback) (this : t) : t :=
  mk (ptyProcess this) (dataCallbacks this) (exitCallbacks this ++ [callback])
    (currentCwd this) (killedByUser this) (spawnedCount this) (killed this)
    (written this) (resized this) (dataCalls this) (exitCalls this).

Definition isAlive (this : t) : bool :=
  bool_decide (is_Some (ptyProcess this)).

Definition getCwd (this : t) : jsstring := currentCwd this.

(** The handler registered by [this.ptyProcess.onData(...)] on a process. *)
Definition pty_data (data : jsstring) (this : t) : t :=
  mk (ptyProcess this) (dataCallbacks this) (exitCallbacks this)
    (currentCwd this) (killedByUser this) (spawnedCount this) (killed this)
    (written this) (resized this)
    (dataCalls this ++ map (λ callback, (callback, data)) (dataCallbacks this))
    (exitCalls this).

(** The handler registered by [this.ptyProcess.onExit(...)] on a process. *)
Definition pty_exit (exitCode : Z) (this : t) : t :=
  mk None (dataCallbacks this) (exitCallbacks this)
    (currentCwd this) (killedByUser this) (spawnedCount this) (killed this)
    (written this) (resized this) (dataCalls this)
    (exitCalls this ++ map (λ callback, (callback, exitCode)) (exitCallbacks this)).

(** The calls of the manager's methods, and the events of the processes it
    has spawned. *)
Inductive call : Type :=
| Spawn (cwd : jsstring) (cols rows : Z) (starts : bool)
| Kill
| Write (data : jsstring)
| Resize (cols rows : Z)
| OnData (callback : DataCallback)
| OnExit (callback : ExitCallback)
| PtyData (p : nat) (data : jsstring)
| PtyExit (p : nat) (exitCode : Z).

Definition perform (this : t) (c : call) : t :=
  match c with
  | Spawn cwd cols rows starts => spawn cwd cols rows starts this
  | Kill => kill this
  | Write data => write data this
  | Resize cols rows => resize cols rows this
  | OnData callback => onData callback this
  | OnExit callback => onExit callback this
  | PtyData p data =>
      if decide (p < spawnedCount this)%nat then pty_data data this else this
  | PtyExit p exitCode =>
      if decide (p < spawnedCount this)%nat then pty_exit exitCode this else this
  end.

Definition run (calls : list call) (this : t) : t :=
  fold_left perform calls this.

(** The calls that leave the process, the liveness flag and the calls of
    the exit callbacks alone: registrations, writes, resizes and output. *)
Definition is_quiet (c : call) : bool :=
  match c with
  | OnData _ | OnExit _ | Write _ | Resize _ _ | PtyData _ _ => true
  | Spawn _ _ _ _ | Kill | PtyExit _ _ => false
  end.

(** The exit callbacks registered by a list of calls. *)
Definition registered_exit (calls : list call) : list ExitCallback :=
  omap (λ c, match c with OnExit callback => Some callback | _ => None end)
    calls.

(** The process held, the processes killed and those written to have all
    been spawned. *)
Definition bounded (this : t) : Prop :=
  (∀ p, ptyProcess this = Some p → (p < spawnedCount this)%nat)
  ∧ Forall (λ p, (p < spawnedCount this)%nat) (killed this)
  ∧ Forall (λ x, (x.1 < spawnedCount this)%nat) (written this).

(** The manager no longer holds the spawned process [p]. *)
Definition dropped (p : nat) (this : t) : Prop :=
  ptyProcess this ≠ Some p ∧ (p < spawnedCount this)%nat.

End Callbacks.

Arguments t : clear implicits.
Arguments call : clear implicits.
Arguments constructor : clear implicits.

End ShellManager.

(** ** Sets

    A [Set], as the list of its elements in insertion order. *)

Module JsSet.

(** [set.add(x)]. *)
Definition Set_add {A : Type} `{EqDecision A} (x : A) (set : list A) : list A :=
  if decide (x ∈ set) then set else set ++ [x].

(** [new Set(items)]. *)
Definition Set_from {A : Type} `{EqDecision A} (items : list A) : list A :=
  fold_left (λ set x, Set_add x set) items [].

End JsSet.

(** ** The project detector ([project-detector.ts])

    [detect] starts one [fs.access] per marker file and adds the project
    type of every marker that is found to a [Set]; the checks settle in an
    order that the file system decides, and [Array.from] lists the set in
    insertion order. *)

Module ProjectDetector.
Import JsSet.

(** ['git' | 'node' | 'python' | 'docker'], and the string each one is. *)
Inductive ProjectType : Type := git | node | python | docker.

#[global] Instance ProjectType_eq_dec : EqDecision ProjectType.
Proof. solve_decision. Defined.

Definition type_name (projectType : ProjectType) : jsstring :=
  match projectType with
  | git => lit "git"
  | node => lit "node"
  | python => lit "python"
  | docker => lit "docker"
  end.

(** [Object.entries(MARKER_MAP)]. *)
Definition MARKER_MAP : list (jsstring * ProjectType) := [
  (lit ".git", git);
  (lit "package.json", node);
  (lit "requirements.txt", python);
  (lit "pyproject.toml", python);
  (lit "Dockerfile", docker)
].

Section Fs.

(** [path.join], and whether [fs.access] of a path resolves. *)
Variable path_join : jsstring → jsstring → jsstring.
Variable fs_access : jsstring → bool.

(** The continuation of one check once its [fs.access] has settled. *)
Definition check (directory : jsstring) (detectedTypes : list ProjectType)
    (entry : jsstring * ProjectType) : list ProjectType :=
  let '(markerFile, projectType) := entry in
  if fs_access (path_join directory markerFile)
  then Set_add projectType detectedTypes
  else detectedTypes.

(** [detect(directory)] when the checks settle in the order [settled], a
    rearrangement of the entries of [MARKER_MAP]. *)
Definition detect (directory : jsstring)
    (settled : list (jsstring * ProjectType)) : list ProjectType :=
  fold_left (check directory) settled [].

(** The project type has a marker file in the directory. *)
Definition marked (directory : jsstring) (projectType : ProjectType) : Prop :=
  ∃ markerFile,
    (markerFile, projectType) ∈ MARKER_MAP
    ∧ fs_access (path_join directory markerFile) = true.

End Fs.

End ProjectDetector.

(** ** JSON values

    What [JSON.parse] returns and [JSON.stringify] accepts.  An object is
    the finite map of its own properties; the order of the properties,
    which only the text produced by [JSON.stringify] depends on, is not
    kept.  Numbers are rationals, of which the finite doubles are a part. *)

Module Json.

#[warnings="-register-all"]
Inductive json : Type :=
| JNull
| JBool (b : bool)
| JNumber (n : Q)
| JString (s : jsstring)
| JArray (items : list json)
| JObject (properties : gmap jsstring json).

(** [value && typeof value === 'object']: objects and arrays. *)
Definition is_object_value (value : option json) : bool :=
  match value with
  | Some (JObject _) | Some (JArray _) => true
  | _ => false
  end.

(** The own enumerable properties that [{...value}] copies. *)
Definition spread (value : json) : gmap jsstring json :=
  match value with
  | JObject properties => properties
  | JArray items =>
      list_to_map (imap (λ i item, (number_toString (Z.of_nat i), item)) items)
  | _ => ∅
  end.

(** [value?.key] for a key that is neither an index nor a built-in
    property: defined on objects only. *)
Definition prop (value : option json) (key : jsstring) : option json :=
  match value with
  | Some (JObject properties) => properties !! key
  | _ => None
  end.

Definition is_array (value : option json) : bool :=
  match value with
  | Some (JArray _) => true
  | _ => false
  end.

Definition is_number (value : option json) : bool :=
  match value with
  | Some (JNumber _) => true
  | _ => false
  end.

(** [typeof parsed !== 'object' || parsed === null || Array.isArray(parsed)]
    fails: the value is a plain object. *)
Definition plain_object (parsed : json) : option (gmap jsstring json) :=
  match parsed with
  | JObject properties => Some properties
  | _ => None
  end.

Definition field (key : string) (value : json) : string * json := (key, value).

Definition obj (properties : list (string * json)) : json :=
  JObject (list_to_map (map (λ kv, (lit kv.1, kv.2)) properties)).

Definition str (s : string) : json := JString (lit s).
Definition num (z : Z) : json := JNumber (inject_Z z).

End Json.

(** ** The configuration manager ([config-manager.ts])

    The manager's in-memory configuration and the three files it touches:
    [config.json], [config.backup.json] and [config.json.tmp] in the
    directory [~/.commandcanvas].  Every call of [fs] may fail; whether the
    [k]-th call does is the environment's choice, [fs_outcome k].  A failing
    [writeFile] may leave the file as it was or with other content.  The
    methods are taken one at a time: two calls whose [await]s interleave are
    not covered.  Log lines are left out. *)

Module ConfigManager.
Import Json.

Abbreviation AppConfig := (gmap jsstring json).

(** [CURRENT_CONFIG_VERSION] and [DEFAULT_CONFIG] ([constants.ts]). *)
Definition CURRENT_CONFIG_VERSION : Q := 1.

Definition DEFAULT_SHELL : json :=
  obj [field "defaultShell" JNull; field "defaultCwd" JNull;
       field "env" (obj []); field "args" (JArray [])].

Definition DEFAULT_ANIMATION : json :=
  obj [field "enabled" (JBool true); field "theme" (str "default");
       field "speed" (num 1); field "transitionDuration" (num 2000)].

Definition DEFAULT_WARNINGS : json :=
  obj [field "enabled" (JBool true); field "disabledBuiltInRules" (JArray []);
       field "customRules" (JArray [])].

Definition DEFAULT_TERMINAL_THEME : json :=
  obj [field "background" (str "#1e1e2e"); field "foreground" (str "#cdd6f4");
       field "cursor" (str "#f5e0dc"); field "selectionBackground" (str "#585b70");
       field "black" (str "#45475a"); field "red" (str "#f38ba8");
       field "green" (str "#a6e3a1"); field "yellow" (str "#f9e2af");
       field "blue" (str "#89b4fa"); field "magenta" (str "#f5c2e7");
       field "cyan" (str "#94e2d5"); field "white" (str "#bac2de");
       field "brightBlack" (str "#585b70"); field "brightRed" (str "#f38ba8");
       field "brightGreen" (str "#a6e3a1"); field "brightYellow" (str "#f9e2af");
       field "brightBlue" (str "#89b4fa"); field "brightMagenta" (str "#f5c2e7");
       field "brightCyan" (str "#94e2d5"); field "brightWhite" (str "#a6adc8")].

Definition DEFAULT_UI : json :=
  obj [field "commandPanelWidth" (num 200); field "animationAreaHeight" (num 420);
       field "explanationPanelHeight" (num 48); field "terminalFontSize" (num 14);
       field "terminalFontFamily" (str "monospace");
       field "terminalTheme" (DEFAULT_TERMINAL_THEME)].

Definition DEFAULT_CONFIG : AppConfig :=
  spread (obj [field "version" (num 1); field "shell" (DEFAULT_SHELL);
               field "animation" (DEFAULT_ANIMATION);
               field "warnings" (DEFAULT_WARNINGS); field "ui" (DEFAULT_UI);
               field "customCommands" (JArray [])]).

(** [{...defaults, ...(value && typeof value === 'object' ? value : {})}]. *)
Definition over_defaults (defaults : json) (value : option json)
    : gmap jsstring json :=
  (if is_object_value value then spread (default JNull value) else ∅)
  ∪ spread defaults.

(** [Array.isArray(value) ? value : fallback]. *)
Definition array_or (value : option json) (fallback : json) : json :=
  match value with
  | Some (JArray items) => JArray items
  | _ => fallback
  end.

(** The [warnings] and [ui] properties of the merged configuration. *)
Definition merged_warnings (value : option json) : gmap jsstring json :=
  <[lit "customRules" :=
      array_or (prop value (lit "customRules")) (JArray [])]>
    (<[lit "disabledBuiltInRules" :=
         array_or (prop value (lit "disabledBuiltInRules")) (JArray [])]>
       (over_defaults DEFAULT_WARNINGS value)).

Definition merged_ui (value : option json) : gmap jsstring json :=
  <[lit "terminalTheme" :=
      JObject (over_defaults DEFAULT_TERMINAL_THEME
                 (prop value (lit "terminalTheme")))]>
    (over_defaults DEFAULT_UI value).

Definition mergeWithDefaults (loaded : gmap jsstring json) : AppConfig :=
  let defaults := DEFAULT_CONFIG in
  let version :=
    match loaded !! lit "version" with
    | Some (JNumber n) => JNumber n
    | _ => default JNull (defaults !! lit "version")
    end in
  let shell := JObject (over_defaults DEFAULT_SHELL (loaded !! lit "shell")) in
  let animation :=
    JObject (over_defaults DEFAULT_ANIMATION (loaded !! lit "animation")) in
  let warnings := JObject (merged_warnings (loaded !! lit "warnings")) in
  let ui := JObject (merged_ui (loaded !! lit "ui")) in
  let customCommands :=
    array_or (loaded !! lit "customCommands") (JArray []) in
  <[lit "customCommands" := customCommands]>
    (<[lit "ui" := ui]>
       (<[lit "warnings" := warnings]>
          (<[lit "animation" := animation]>
             (<[lit "shell" := shell]>
                (<[lit "version" := version]> ∅))))).

(** [this.config.version < CURRENT_CONFIG_VERSION]. *)
Definition outdated (config : AppConfig) : bool :=
  match config !! lit "version" with
  | Some (JNumber n) => negb (Qle_bool CURRENT_CONFIG_VERSION n)
  | _ => false
  end.

Definition migrate (config : AppConfig) : AppConfig :=
  <[lit "version" := JNumber CURRENT_CONFIG_VERSION]> config.

(** The files. *)
Inductive path : Type := ConfigFile | BackupFile | TmpFile.

Record Files : Type := mkFiles {
  configFile : option jsstring;
  backupFile : option jsstring;
  tmpFile : option jsstring;
}.

Definition read (p : path) (files : Files) : option jsstring :=
  match p with
  | ConfigFile => configFile files
  | BackupFile => backupFile files
  | TmpFile => tmpFile files
  end.

Definition store (p : path) (content : option jsstring) (files : Files)
    : Files :=
  match p with
  | ConfigFile => mkFiles content (backupFile files) (tmpFile files)
  | BackupFile => mkFiles (configFile files) content (tmpFile files)
  | TmpFile => mkFiles (configFile files) (backupFile files) content
  end.

(** The outcome of one call of [fs]; a failing [writeFile] leaves [remains]
    in the file when it is [Some], and the file alone otherwise. *)
Inductive outcome : Type :=
| Succeeds
| Fails (remains : option jsstring).

Record t : Type := mk {
  config : AppConfig;
  files : Files;
  fsCalls : nat;
}.

(** A method body: from a state to a completion and a state. *)
Definition M (A : Type) : Type := t → completion A * t.

#[global] Instance M_ret : MRet M := λ A a this, (Normal a, this).
#[global] Instance M_bind : MBind M := λ A B k c this,
  match c this with
  | (Normal a, this) => k a this
  | (Throw err, this) => (Throw err, this)
  end.

Definition throw {A : Type} (err : jsstring) : M A :=
  λ this, (Throw err, this).

(** [try { body } catch (err) { handler }]. *)
Definition try_ {A : Type} (body : M A) (handler : jsstring → M A) : M A :=
  λ this,
    match body this with
    | (Normal a, this) => (Normal a, this)
    | (Throw err, this) => handler err this
    end.

Definition get_config : M AppConfig := λ this, (Normal (config this), this).
Definition set_config (config : AppConfig) : M unit :=
  λ this, (Normal tt, mk config (files this) (fsCalls this)).
Definition get_files : M Files := λ this, (Normal (files this), this).
Definition set_files (files : Files) : M unit :=
  λ this, (Normal tt, mk (config this) files (fsCalls this)).

Definition ENOENT : jsstring := lit "ENOENT".
Definition EIO : jsstring := lit "EIO".

Section Runtime.

Variable JSON_stringify : json → jsstring.
Variable JSON_parse : jsstring → completion json.
Variable fs_outcome : nat → outcome.

(** The outcome of the next call of [fs]. *)
Definition next_outcome : M outcome :=
  λ this,
    (Normal (fs_outcome (fsCalls this)),
     mk (config this) (files this) (S (fsCalls this))).

(** [fs.mkdir(this.configDir, { recursive: true })]. *)
Definition fs_mkdir : M unit :=
  o ← next_outcome;
  match o with
  | Succeeds => mret tt
  | Fails _ => throw EIO
  end.

(** [fs.readFile(path, 'utf-8')]: [ENOENT] when the file is missing. *)
Definition fs_readFile (p : path) : M jsstring :=
  o ← next_outcome;
  files ← get_files;
  match read p files with
  | None => throw ENOENT
  | Some content =>
      match o with
      | Succeeds => mret content
      | Fails _ => throw EIO
      end
  end.

(** [fs.writeFile(path, content, 'utf-8')]. *)
Definition fs_writeFile (p : path) (content : jsstring) : M unit :=
  o ← next_outcome;
  files ← get_files;
  match o with
  | Succeeds => set_files (store p (Some content) files)
  | Fails None => throw EIO
  | Fails (Some remains) =>
      _ ← set_files (store p (Some remains) files);
      throw EIO
  end.

(** [fs.rename(from, to)]. *)
Definition fs_rename (from to : path) : M unit :=
  o ← next_outcome;
  files ← get_files;
  match read from files with
  | None => throw ENOENT
  | Some content =>
      match o with
      | Succeeds => set_files (store to (Some content) (store from None files))
      | Fails _ => throw EIO
      end
  end.

Definition writeToDisk : M unit :=
  _ ← fs_mkdir;
  config ← get_config;
  let content := JSON_stringify (JObject config) in
  _ ← fs_writeFile TmpFile content;
  fs_rename TmpFile ConfigFile.

(** The three places where [load] gives up the file and writes the
    defaults. *)
Definition write_defaults : M AppConfig :=
  _ ← set_config DEFAULT_CONFIG;
  _ ← writeToDisk;
  get_config.

Definition back_up_and_reset (fileContent : jsstring) : M AppConfig :=
  _ ← fs_writeFile BackupFile fileContent;
  write_defaults.

Definition load : M AppConfig :=
  try_
    (_ ← fs_mkdir;
     fileContent ←
       try_ (content ← fs_readFile ConfigFile; mret (Some content))
         (λ err, if decide (err = ENOENT) then mret None else throw err);
     match fileContent with
     | None => write_defaults
     | Some fileContent =>
         match JSON_parse fileContent with
         | Throw _ => back_up_and_reset fileContent
         | Normal parsed =>
             match plain_object parsed with
             | None => back_up_and_reset fileContent
             | Some loaded =>
                 _ ← set_config (mergeWithDefaults loaded);
                 config ← get_config;
                 _ ← (if outdated config
                      then _ ← set_config (migrate config); writeToDisk
                      else mret tt);
                 get_config
             end
         end
     end)
    (λ err, _ ← set_config DEFAULT_CONFIG; get_config).

Definition save (config : AppConfig) : M unit :=
  previous ← get_config;
  _ ← set_config config;
  try_ writeToDisk
    (λ err, _ ← set_config previous; throw err).

Definition get (key : jsstring) : M (option json) :=
  config ← get_config; mret (config !! key).

Definition set (key : jsstring) (value : json) : M unit :=
  config ← get_config;
  _ ← set_config (<[key := value]> config);
  writeToDisk.

Definition reset : M unit :=
  _ ← set_config DEFAULT_CONFIG;
  writeToDisk.

End Runtime.

(** [new ConfigManager(logger)] over the files found on disk. *)
Definition constructor (files : Files) : t := mk DEFAULT_CONFIG files 0.

End ConfigManager.

(** ** The keys of the configuration *)

Module ConfigSpec.
Import Json ConfigManager.

Definition CONFIG_KEYS : list jsstring :=
  [lit "customCommands"; lit "ui"; lit "warnings"; lit "animation";
   lit "shell"; lit "version"].

(** The four sections that are objects, with their defaults. *)
Definition CONFIG_SECTIONS : list (jsstring * json) :=
  [(lit "shell", DEFAULT_SHELL); (lit "animation", DEFAULT_ANIMATION);
   (lit "warnings", DEFAULT_WARNINGS); (lit "ui", DEFAULT_UI)].

(** The keys of [warnings] and [ui] that [mergeWithDefaults] sets itself. *)
Definition GUARDED_KEYS : list jsstring :=
  [lit "disabledBuiltInRules"; lit "customRules"; lit "terminalTheme"].

End ConfigSpec.

(** ** Command definitions ([shared/default-commands.ts])

    [order] is a number; a number of a configuration file is a finite
    double, so a rational.  [Array.prototype.sort] is stable, and under the
    comparator [(a, b) => a.order - b.order], whose sign is that of the
    comparison of the two numbers, it returns the one stable arrangement by
    increasing [order]: [sort_by_order] computes it by insertion. *)

Module CommandDefinition.
Record t : Type := mk {
  id : jsstring;
  name : jsstring;
  command : jsstring;
  explanation : jsstring;
  category : jsstring;
  animationTrigger : option jsstring;
  order : Q;
}.
End CommandDefinition.

Module DefaultCommands.

(** A [Map] with string keys, as the list of its entries in insertion
    order. *)
Section JsMap.

Context {V : Type}.

Definition Map_has (key : jsstring) (m : list (jsstring * V)) : bool :=
  bool_decide (key ∈ m.*1).

Fixpoint Map_get (key : jsstring) (m : list (jsstring * V)) : option V :=
  match m with
  | [] => None
  | (k, v) :: rest => if decide (k = key) then Some v else Map_get key rest
  end.

(** [map.set(key, value)]: an existing key keeps its place. *)
Fixpoint Map_set (key : jsstring) (value : V) (m : list (jsstring * V))
    : list (jsstring * V) :=
  match m with
  | [] => [(key, value)]
  | (k, v) :: rest =>
      if decide (k = key) then (k, value) :: rest
      else (k, v) :: Map_set key value rest
  end.

Definition Map_delete (key : jsstring) (m : list (jsstring * V))
    : list (jsstring * V) :=
  filter (λ entry, entry.1 ≠ key) m.

Definition Map_values (m : list (jsstring * V)) : list V := m.*2.

End JsMap.

(** [a.order - b.order <= 0]. *)
Definition before_or_level (a b : CommandDefinition.t) : bool :=
  Qle_bool (CommandDefinition.order a) (CommandDefinition.order b).

Fixpoint insert_by_order (a : CommandDefinition.t)
    (sorted : list CommandDefinition.t) : list CommandDefinition.t :=
  match sorted with
  | [] => [a]
  | b :: rest =>
      if before_or_level a b then a :: b :: rest
      else b :: insert_by_order a rest
  end.

(** [commands.sort((a, b) => a.order - b.order)]. *)
Definition sort_by_order (commands : list CommandDefinition.t)
    : list CommandDefinition.t :=
  foldr insert_by_order [] commands.

(** A built-in command: no [animationTrigger], an integer [order]. *)
Definition built_in (id name command explanation category : jsstring)
    (order : Z) : CommandDefinition.t :=
  CommandDefinition.mk id name command explanation category None
    (inject_Z order).

Definition DEFAULT_COMMANDS : list (jsstring * list CommandDefinition.t) := [
  (lit "git", [
    built_in (lit "git-status") (lit "Status")
      (lit "git status")
      (lit "Shows the working tree status: modified, staged, and untracked files.")
      (lit "git") 0;
    built_in (lit "git-add-all") (lit "Stage All")
      (lit "git add .")
      (lit "Stages all changes in the current directory for the next commit.")
      (lit "git") 1;
    built_in (lit "git-commit") (lit "Commit")
      (lit "git commit -m " ++ [34; 34])
      (lit "Creates a snapshot of staged changes with a message.")
      (lit "git") 2;
    built_in (lit "git-push") (lit "Push")
      (lit "git push")
      (lit "Uploads local branch commits to the remote repository.")
      (lit "git") 3;
    built_in (lit "git-pull") (lit "Pull")
      (lit "git pull")
      (lit "Fetches and integrates changes from the remote repository.")
      (lit "git") 4;
    built_in (lit "git-log") (lit "Log")
      (lit "git log --oneline -10")
      (lit "Shows the last 10 commits in a compact one-line format.")
      (lit "git") 5;
    built_in (lit "git-branch") (lit "Branches")
      (lit "git branch")
      (lit "Lists all local branches. The current branch is highlighted.")
      (lit "git") 6;
    built_in (lit "git-checkout") (lit "Checkout")
      (lit "git checkout ")
      (lit "Switches to a different branch or restores files.")
      (lit "git") 7;
    built_in (lit "git-diff") (lit "Diff")
      (lit "git diff")
      (lit "Shows unstaged changes between working directory and index.")
      (lit "git") 8;
    built_in (lit "git-stash") (lit "Stash")
      (lit "git stash")
      (lit "Temporarily stores modified tracked files for later use.")
      (lit "git") 9
  ]);
  (lit "node", [
    built_in (lit "npm-install") (lit "Install")
      (lit "npm install")
      (lit "Installs all dependencies listed in package.json.")
      (lit "node") 0;
    built_in (lit "npm-start") (lit "Start")
      (lit "npm start")
      (lit "Runs the start script defined in package.json.")
      (lit "node") 1;
    built_in (lit "npm-test") (lit "Test")
      (lit "npm test")
      (lit "Runs the test script defined in package.json.")
      (lit "node") 2;
    built_in (lit "npm-run-build") (lit "Build")
      (lit "npm run build")
      (lit "Runs the build script defined in package.json.")
      (lit "node") 3;
    built_in (lit "npm-run-dev") (lit "Dev")
      (lit "npm run dev")
      (lit "Runs the dev script for local development.")
      (lit "node") 4;
    built_in (lit "npm-outdated") (lit "Outdated")
      (lit "npm outdated")
      (lit "Lists packages that have newer versions available.")
      (lit "node") 5
  ]);
  (lit "python", [
    built_in (lit "py-venv") (lit "Create Venv")
      (lit "python -m venv venv")
      (lit "Creates a virtual environment in a venv/ directory.")
      (lit "python") 0;
    built_in (lit "py-activate") (lit "Activate Venv")
      (lit "source venv/bin/activate")
      (lit "Activates the Python virtual environment.")
      (lit "python") 1;
    built_in (lit "pip-install") (lit "Pip Install")
      (lit "pip install -r requirements.txt")
      (lit "Installs all dependencies from requirements.txt.")
      (lit "python") 2;
    built_in (lit "py-run") (lit "Run")
      (lit "python ")
      (lit "Runs a Python script.")
      (lit "python") 3;
    built_in (lit "pip-freeze") (lit "Freeze")
      (lit "pip freeze > requirements.txt")
      (lit "Writes installed packages to requirements.txt.")
      (lit "python") 4
  ]);
  (lit "docker", [
    built_in (lit "docker-ps") (lit "Containers")
      (lit "docker ps")
      (lit "Lists running Docker containers.")
      (lit "docker") 0;
    built_in (lit "docker-images") (lit "Images")
      (lit "docker images")
      (lit "Lists locally available Docker images.")
      (lit "docker") 1;
    built_in (lit "docker-build") (lit "Build")
      (lit "docker build -t  .")
      (lit "Builds a Docker image from the Dockerfile in current directory.")
      (lit "docker") 2;
    built_in (lit "docker-compose-up") (lit "Compose Up")
      (lit "docker compose up")
      (lit "Starts all services defined in docker-compose.yml.")
      (lit "docker") 3;
    built_in (lit "docker-compose-down") (lit "Compose Down")
      (lit "docker compose down")
      (lit "Stops and removes all containers defined in docker-compose.yml.")
      (lit "docker") 4
  ])
].

(** The flat list that [loadCommands] ([command-panel.ts]) builds from
    [Object.keys(DEFAULT_COMMANDS)]. *)
Definition builtIn_commands : list CommandDefinition.t :=
  concat (DEFAULT_COMMANDS.*2).

(** The first loop of [mergeCommands]: the map of the custom commands. *)
Definition custom_map (custom : list CommandDefinition.t)
    : list (jsstring * CommandDefinition.t) :=
  fold_left (λ customMap cmd, Map_set (CommandDefinition.id cmd) cmd customMap)
    custom [].

(** One call of the function passed to [builtIn.map]: the element it
    returns and the map it leaves. *)
Definition override (customMap : list (jsstring * CommandDefinition.t))
    (cmd : CommandDefinition.t)
    : CommandDefinition.t * list (jsstring * CommandDefinition.t) :=
  match Map_get (CommandDefinition.id cmd) customMap with
  | Some override => (override, Map_delete (CommandDefinition.id cmd) customMap)
  | None => (cmd, customMap)
  end.

Fixpoint overridden (builtIn : list CommandDefinition.t)
    (customMap : list (jsstring * CommandDefinition.t))
    : list CommandDefinition.t * list (jsstring * CommandDefinition.t) :=
  match builtIn with
  | [] => ([], customMap)
  | cmd :: rest =>
      let '(first, customMap) := override customMap cmd in
      let '(others, customMap) := overridden rest customMap in
      (first :: others, customMap)
  end.

Definition mergeCommands (builtIn custom : list CommandDefinition.t)
    : list CommandDefinition.t :=
  let customMap := custom_map custom in
  let '(merged, customMap) := overridden builtIn customMap in
  let merged := merged ++ Map_values customMap in
  sort_by_order merged.

(** The command panel's list for a category ([renderCommands] in
    [command-panel.ts]). *)
Definition categoryCommands (allCommands : list CommandDefinition.t)
    (activeCategory : jsstring) : list CommandDefinition.t :=
  sort_by_order
    (filter (λ cmd, CommandDefinition.category cmd = activeCategory) allCommands).

(** The definition that the custom commands give an identifier: the last
    one in the list. *)
Definition final (custom : list CommandDefinition.t) (id : jsstring)
    : option CommandDefinition.t :=
  last (filter (λ cmd, CommandDefinition.id cmd = id) custom).

Definition by_order (a b : CommandDefinition.t) : Prop :=
  (CommandDefinition.order a <= CommandDefinition.order b)%Q.

End DefaultCommands.

(** ** The command panel ([command-panel.ts])

    The module state that decides which tabs and buttons are rendered. *)

Module CommandPanel.
Import JsSet DefaultCommands.

Record t : Type := mk {
  allCommands : list CommandDefinition.t;
  visibleCategories : list jsstring;
  activeCategory : jsstring;
}.

Definition initial : t :=
  mk [] [lit "git"; lit "node"; lit "python"; lit "docker"; lit "custom"]
    (lit "git").

Definition setCommands (commands : list CommandDefinition.t) (st : t) : t :=
  mk commands (visibleCategories st) (activeCategory st).

Definition setVisibleCategories (categories : list jsstring) (st : t) : t :=
  let cats := Set_add (lit "custom") (Set_from categories) in
  let visibleCategories := cats in
  let activeCategory :=
    if bool_decide (activeCategory st ∈ visibleCategories)
    then activeCategory st
    else
      match head visibleCategories with
      | Some [] | None => lit "custom"
      | Some first => first
      end in
  mk (allCommands st) visibleCategories activeCategory.

(** [loadCommands] once the configuration has arrived; [customCommands] is
    [config.customCommands || []], or [[]] when [config.load] fails. *)
Definition loadCommands (customCommands : list CommandDefinition.t) (st : t)
    : t :=
  mk (mergeCommands builtIn_commands customCommands) (visibleCategories st)
    (activeCategory st).

(** The tabs and the buttons that [render] creates. *)
Definition tabs (st : t) : list jsstring := visibleCategories st.
Definition buttons (st : t) : list CommandDefinition.t :=
  categoryCommands (allCommands st) (activeCategory st).

Inductive event : Type :=
| ProjectDetected (types : list jsstring)   (* eventBus 'project:detected' *)
| CommandsUpdated (customCommands : list CommandDefinition.t)
| SetCommands (commands : list CommandDefinition.t)
| SetVisibleCategories (categories : list jsstring)
| ClickTab (category : jsstring).

Definition on_event (st : t) (e : event) : t :=
  match e with
  | ProjectDetected types => setVisibleCategories (types ++ [lit "custom"]) st
  | CommandsUpdated customCommands => loadCommands customCommands st
  | SetCommands commands => setCommands commands st
  | SetVisibleCategories categories => setVisibleCategories categories st
  | ClickTab category =>
      if bool_decide (category ∈ tabs st)
      then mk (allCommands st) (visibleCategories st) category
      else st
  end.

Definition run (events : list event) (st : t) : t :=
  fold_left on_event events st.

End CommandPanel.

(** ** The custom command form ([custom-command-form.ts])

    [handleSave] from the values of the form fields to what it leaves: an
    error shown in the form, or the [customCommands] array it has saved.
    [loaded] is the array of the configuration that [config.load] returns,
    if it returns; [saves] tells whether [config.save] does. *)

Module CustomCommandForm.

Record Fields : Type := mkFields {
  nameInput : jsstring;
  commandInput : jsstring;
  explanationInput : jsstring;
  categorySelect : jsstring;
  triggerSelect : jsstring;
}.

Inductive outcome : Type :=
| ShowsError (message : jsstring)
| Saved (customCommands : list CommandDefinition.t).

(** [value || fallback]. *)
Definition or_else (value fallback : jsstring) : jsstring :=
  match value with
  | [] => fallback
  | _ => value
  end.

(** The [newCommand] that [handleSave] builds. *)
Definition newCommand (fields : Fields)
    (editingCommand : option CommandDefinition.t) (now : Z)
    : CommandDefinition.t :=
  let name := trim (nameInput fields) in
  let command := trim (commandInput fields) in
  let explanation := trim (explanationInput fields) in
  let category := or_else (categorySelect fields) (lit "custom") in
  let triggerValue := or_else (triggerSelect fields) (lit "none") in
  let animationTrigger :=
    if decide (triggerValue = lit "none") then None else Some triggerValue in
  let id :=
    match editingCommand with
    | Some editing => CommandDefinition.id editing
    | None => lit "custom-" ++ number_toString now
    end in
  CommandDefinition.mk id name command explanation category animationTrigger
    match editingCommand with
    | Some editing => CommandDefinition.order editing
    | None => 0%Q
    end.

(** The update of [config.customCommands]. *)
Definition updated (customCommands : list CommandDefinition.t)
    (editingCommand : option CommandDefinition.t)
    (newCommand : CommandDefinition.t) : list CommandDefinition.t :=
  match editingCommand with
  | Some editing =>
      match list_find (λ c, CommandDefinition.id c = CommandDefinition.id editing)
              customCommands with
      | Some (idx, _) => <[idx := newCommand]> customCommands
      | None => customCommands ++ [newCommand]
      end
  | None => customCommands ++ [newCommand]
  end.

Definition handleSave (fields : Fields)
    (editingCommand : option CommandDefinition.t) (now : Z)
    (loaded : option (list CommandDefinition.t)) (saves : bool) : outcome :=
  if decide (trim (nameInput fields) = []) then
    ShowsError (lit "Name is required.")
  else if decide (trim (commandInput fields) = []) then
    ShowsError (lit "Command is required.")
  else
    match loaded with
    | Some customCommands =>
        if saves
        then Saved (updated customCommands editingCommand
                      (newCommand fields editingCommand now))
        else ShowsError (lit "Failed to save command. Please try again.")
    | None => ShowsError (lit "Failed to save command. Please try again.")
    end.

End CustomCommandForm.

(** ** The animation engine ([animation-engine.ts])

    The state machine of the engine: the animation state and the timer that
    brings a success or error display back to idle.  [live] lists the
    timers that [setTimeout] has started and that have neither fired nor
    been cleared.  Frames, themes and the playback loop are left out. *)

Module AnimationEngine.

Inductive AnimationState : Type := idle | running | success | error.

#[global] Instance AnimationState_eq_dec : EqDecision AnimationState.
Proof. solve_decision. Defined.

Record t : Type := mk {
  currentState : AnimationState;
  transitionTimeout : option nat;
  (* setTimeout *)
  timeouts : nat;
  live : list nat;
  (* eventBus.emit('animation:state-change', { state }) *)
  stateChanges : list AnimationState;
}.

Definition initial : t := mk idle None 0 [] [].

(** [clearTimeout(handle)]. *)
Definition clearTimeout (handle : nat) (st : t) : t :=
  mk (currentState st) (transitionTimeout st) (timeouts st)
    (filter (λ h, h ≠ handle) (live st)) (stateChanges st).

Definition clearTransitionTimeout (st : t) : t :=
  match transitionTimeout st with
  | Some handle =>
      let st := clearTimeout handle st in
      mk (currentState st) None (timeouts st) (live st) (stateChanges st)
  | None => st
  end.

Definition setState (state : AnimationState) (st : t) : t :=
  if decide (state = currentState st) then st
  else
    let st :=
      mk state (transitionTimeout st) (timeouts st) (live st) (stateChanges st) in
    let st := clearTransitionTimeout st in
    let st :=
      mk (currentState st) (transitionTimeout st) (timeouts st) (live st)
        (stateChanges st ++ [state]) in
    match state with
    | success | error =>
        mk (currentState st) (Some (timeouts st)) (S (timeouts st))
          (live st ++ [timeouts st]) (stateChanges st)
    | idle | running => st
    end.

(** The callback passed to [setTimeout] by [setState], run when the live
    timer [handle] fires. *)
Definition timeout_fires (handle : nat) (st : t) : t :=
  if bool_decide (handle ∈ live st) then
    let st :=
      mk (currentState st) None (timeouts st)
        (filter (λ h, h ≠ handle) (live st)) (stateChanges st) in
    setState idle st
  else st.

Definition dispose (st : t) : t :=
  let st := clearTransitionTimeout st in
  mk idle (transitionTimeout st) (timeouts st) (live st) (stateChanges st).

(** What reaches the engine: calls of [setState], the [shell:exit] and
    [shell:spawned] events it subscribes to, its timers, and [dispose]. *)
Inductive event : Type :=
| SetState (state : AnimationState)
| ShellExit (exitCode : Z)
| ShellSpawned
| TimeoutFires (handle : nat)
| Dispose.

Definition on_event (st : t) (e : event) : t :=
  match e with
  | SetState state => setState state st
  | ShellExit exitCode =>
      if decide (exitCode = 0%Z) then setState success st else setState error st
  | ShellSpawned => setState idle st
  | TimeoutFires handle => timeout_fires handle st
  | Dispose => dispose st
  end.

Definition run (events : list event) (st : t) : t :=
  fold_left on_event events st.

(** The state shows the outcome of a command. *)
Definition shows_outcome (state : AnimationState) : bool :=
  match state with
  | success | error => true
  | idle | running => false
  end.

(** The timers in flight are the one recorded, if any; there is one
    exactly while an outcome is shown; and no timer is still to be
    started twice. *)
Definition timed (st : t) : Prop :=
  live st = option_list (transitionTimeout st)
  ∧ (is_Some (transitionTimeout st) ↔ shows_outcome (currentState st) = true)
  ∧ Forall (λ h, (h < timeouts st)%nat) (live st).

End AnimationEngine.

(** ** A directory and custom commands for concrete runs *)

Module PanelScenarios.
Import ProjectDetector DefaultCommands.

Definition posix_join (directory name : jsstring) : jsstring :=
  directory ++ lit "/" ++ name.

(** A repository with both Python markers and no [package.json]. *)
Definition python_repo (path : jsstring) : bool :=
  bool_decide (path ∈ [lit "/repo/.git"; lit "/repo/requirements.txt";
                       lit "/repo/pyproject.toml"]).

(** A custom command that takes the place of [git-status], and a new one. *)
Definition custom_commands : list CommandDefinition.t := [
  CommandDefinition.mk (lit "git-status") (lit "Short status")
    (lit "git status -s") (lit "Shows the status in short form.")
    (lit "git") None (inject_Z 20);
  CommandDefinition.mk (lit "deploy") (lit "Deploy")
    (lit "make deploy") (lit "Deploys the project.")
    (lit "custom") None (inject_Z 0)
].

(** The custom command that takes the place of [git-status], opened for
    editing, and the form with its command changed. *)
Definition edited_command : CommandDefinition.t :=
  CommandDefinition.mk (lit "git-status") (lit "Short status")
    (lit "git status -s") (lit "Shows the status in short form.")
    (lit "git") None (inject_Z 20).

Definition edited_command_fields : CustomCommandForm.Fields :=
  CustomCommandForm.mkFields (lit "Short status") (lit "git status -sb ")
    (lit "Shows the status in short form, with the branch.") (lit "git")
    (lit "none").

End PanelScenarios.

(** * Properties of the rule engine *)

Module EngineFacts.
Import WarningEngine EngineSpec.

Section WithRuntime.

Variable RegExp_new : jsstring → jsstring → completion (jsstring → bool).
Variable Date_now : nat → Z.

Abbreviation compiled := (EngineSpec.compiled RegExp_new).
Abbreviation active_rules := (EngineSpec.active_rules RegExp_new).
Abbreviation well_compiled := (EngineSpec.well_compiled RegExp_new).

Lemma active_rules_app (l1 l2 : list WarningRule.t) :
  active_rules (l1 ++ l2) = active_rules l1 ++ active_rules l2.
Proof. unfold EngineSpec.active_rules. apply omap_app. Qed.

Lemma compile_loop (rules : list WarningRule.t) (this : t) :
  for_of rules
    (fun this rule =>
       try_catch
         (regex ← RegExp_new (WarningRule.pattern rule) (lit "i");
          Normal (push_compiledRules (CompiledRule.mk rule regex) this))
         (fun err => Normal this))
    this
  = Normal (mk (enabled this) (compiledRules this ++ active_rules rules)
              (allRules this)).
Proof.
  revert this. induction rules as [|rule rules IH]; intros this; simpl.
  - rewrite app_nil_r. by destruct this.
  - unfold EngineSpec.active_rules; simpl. unfold EngineSpec.compiled at 1.
    unfold mbind, completion_bind.
    destruct (RegExp_new (WarningRule.pattern rule) (lit "i")) as [regex|err];
      simpl; rewrite IH; simpl; [|done].
    by rewrite <- app_assoc.
Qed.

Lemma compileRules_returns (this : t) :
  compileRules RegExp_new this
  = Normal (mk (enabled this) (active_rules (allRules this)) (allRules this)).
Proof. unfold compileRules. by rewrite compile_loop. Qed.

Lemma push_enabled_rules (disabled : gset jsstring) (rules : list WarningRule.t)
    (this : t) :
  fold_left
    (fun this rule =>
       if negb (bool_decide (WarningRule.id rule ∈ disabled))
       then push_allRules rule this else this)
    rules this
  = mk (enabled this) (compiledRules this)
      (allRules this ++ filter (λ rule, WarningRule.id rule ∉ disabled) rules).
Proof.
  revert this. induction rules as [|rule rules IH]; intros this; simpl.
  - rewrite app_nil_r. by destruct this.
  - rewrite IH. case_bool_decide as Hin; simpl.
    + by rewrite filter_cons_False by (intros Hn; by apply Hn).
    + rewrite filter_cons_True by done. simpl. by rewrite <- app_assoc.
Qed.

Lemma push_custom_rules (rules : list WarningRule.t) (this : t) :
  fold_left (fun this customRule => push_allRules customRule this) rules this
  = mk (enabled this) (compiledRules this) (allRules this ++ rules).
Proof.
  revert this. induction rules as [|rule rules IH]; intros this; simpl.
  - rewrite app_nil_r. by destruct this.
  - rewrite IH. simpl. by rewrite <- app_assoc.
Qed.

Lemma filter_disabled_set (disabled : list jsstring) (rules : list WarningRule.t) :
  filter (λ rule, WarningRule.id rule ∉ (list_to_set disabled : gset jsstring)) rules
  = filter (λ rule, WarningRule.id rule ∉ disabled) rules.
Proof.
  apply list_filter_iff. intros rule. by rewrite elem_of_list_to_set.
Qed.

Lemma constructor_returns (config : WarningsConfig.t) :
  constructor RegExp_new config
  = Normal (mk (WarningsConfig.enabled config)
              (active_rules (rule_set config)) (rule_set config)).
Proof.
  unfold constructor. rewrite push_enabled_rules, push_custom_rules.
  rewrite compileRules_returns. simpl.
  by rewrite filter_disabled_set.
Qed.

Lemma addRule_returns (rule : WarningRule.t) (this : t) :
  addRule RegExp_new rule this
  = Normal (mk (enabled this) (active_rules (allRules this ++ [rule]))
              (allRules this ++ [rule])).
Proof. unfold addRule. by rewrite compileRules_returns. Qed.

(** The loop returns the result of the first rule that matches, whatever
    follows that rule in the list. *)
Lemma evaluate_loop_first (pre post : list CompiledRule.t) (cr : CompiledRule.t)
    (trimmed : jsstring) (reads : nat) :
  Forall (λ x, CompiledRule.regex x trimmed = false) pre →
  CompiledRule.regex cr trimmed = true →
  evaluate_loop Date_now (pre ++ cr :: post) trimmed reads
  = (Some (result_for cr trimmed (Date_now reads)), S reads).
Proof.
  intros Hpre Hcr. induction Hpre as [|x pre Hx _ IH]; simpl.
  - by rewrite Hcr.
  - by rewrite Hx.
Qed.

Lemma evaluate_loop_none (rules : list CompiledRule.t) (trimmed : jsstring)
    (reads : nat) :
  Forall (λ x, CompiledRule.regex x trimmed = false) rules →
  evaluate_loop Date_now rules trimmed reads = (None, reads).
Proof.
  intros Hall. induction Hall as [|x rules Hx _ IH]; simpl; [done|].
  by rewrite Hx.
Qed.

(** A result of the loop comes from a rule of the list that matched. *)
Lemma evaluate_loop_some (rules : list CompiledRule.t) (trimmed : jsstring)
    (reads reads' : nat) (res : WarningResult.t) :
  evaluate_loop Date_now rules trimmed reads = (Some res, reads') →
  ∃ pre cr post,
    rules = pre ++ cr :: post
    ∧ Forall (λ x, CompiledRule.regex x trimmed = false) pre
    ∧ CompiledRule.regex cr trimmed = true
    ∧ res = result_for cr trimmed (Date_now reads)
    ∧ reads' = S reads.
Proof.
  induction rules as [|x rules IH]; simpl; [done|].
  destruct (CompiledRule.regex x trimmed) eqn:Hx.
  - intros [= <- <-]. by exists [], x, rules.
  - intros Hloop. destruct (IH Hloop) as (pre & cr & post & -> & Hpre & Hcr & Hres).
    exists (x :: pre), cr, post. split; [done|]. split; [|done].
    by constructor.
Qed.

Lemma strlen_zero (s : jsstring) : (strlen s =? 0) = bool_decide (s = []).
Proof.
  destruct s as [|u s]; unfold strlen.
  - by rewrite bool_decide_eq_true_2.
  - rewrite bool_decide_eq_false_2 by done. apply N.eqb_neq. simpl. lia.
Qed.

Lemma active_rule_compiles (rules : list WarningRule.t) (cr : CompiledRule.t) :
  cr ∈ active_rules rules ↔
  CompiledRule.rule cr ∈ rules
  ∧ RegExp_new (WarningRule.pattern (CompiledRule.rule cr)) (lit "i")
    = Normal (CompiledRule.regex cr).
Proof.
  unfold EngineSpec.active_rules. rewrite list_elem_of_omap. split.
  - intros (rule & Hin & Hc). unfold EngineSpec.compiled in Hc.
    destruct (RegExp_new (WarningRule.pattern rule) (lit "i")) eqn:Hre; [|done].
    injection Hc as <-. simpl. by rewrite Hre.
  - intros [Hin Hre]. exists (CompiledRule.rule cr). split; [done|].
    unfold EngineSpec.compiled. rewrite Hre. by destruct cr.
Qed.

(** A rule whose pattern compiles has its place in the compiled list,
    between the compiled rules of those before it and of those after it. *)
Lemma active_rules_split (pre post : list WarningRule.t) (rule : WarningRule.t)
    (regex : jsstring → bool) :
  RegExp_new (WarningRule.pattern rule) (lit "i") = Normal regex →
  active_rules (pre ++ rule :: post)
  = active_rules pre ++ CompiledRule.mk rule regex :: active_rules post.
Proof.
  intros Hre. rewrite active_rules_app. f_equal.
  unfold EngineSpec.active_rules. simpl. unfold EngineSpec.compiled at 1.
  by rewrite Hre.
Qed.

(** Rules that do not compile, or whose regex does not match, give
    compiled rules that do not match. *)
Lemma active_rules_no_match (rules : list WarningRule.t) (trimmed : jsstring) :
  Forall (λ x, ∀ regex,
            RegExp_new (WarningRule.pattern x) (lit "i") = Normal regex →
            regex trimmed = false) rules →
  Forall (λ cr, CompiledRule.regex cr trimmed = false) (active_rules rules).
Proof.
  rewrite !Forall_forall. intros Hrules cr Hin.
  apply active_rule_compiles in Hin as [Hin Hre]. by apply (Hrules _ Hin).
Qed.

(** On an engine with the invariant, the first rule of the rule list that
    compiles and matches decides; rules that do not compile have no say. *)
Lemma evaluate_first_compiling (this : t) (command : jsstring) (reads : nat)
    (pre post : list WarningRule.t) (rule : WarningRule.t)
    (regex : jsstring → bool) :
  well_compiled this →
  enabled this = true →
  trim command ≠ [] →
  allRules this = pre ++ rule :: post →
  Forall (λ x, ∀ regex,
            RegExp_new (WarningRule.pattern x) (lit "i") = Normal regex →
            regex (trim command) = false) pre →
  RegExp_new (WarningRule.pattern rule) (lit "i") = Normal regex →
  regex (trim command) = true →
  evaluate Date_now this command reads
  = (Some (result_for (CompiledRule.mk rule regex) (trim command)
             (Date_now reads)), S reads).
Proof.
  intros Hwc Hen Ht Hrules Hpre Hre Hmatch. unfold evaluate.
  rewrite Hen. simpl. rewrite strlen_zero, bool_decide_eq_false_2 by done.
  rewrite Hwc, Hrules, (active_rules_split _ _ _ _ Hre).
  apply evaluate_loop_first; [|done]. by apply active_rules_no_match.
Qed.

(** The same condition on a rule list, as a test that can be run. *)
Lemma no_match_by_test (rules : list WarningRule.t) (trimmed : jsstring) :
  forallb (λ x, match RegExp_new (WarningRule.pattern x) (lit "i") with
                | Normal regex => negb (regex trimmed)
                | Throw _ => true
                end) rules = true →
  Forall (λ x, ∀ regex,
            RegExp_new (WarningRule.pattern x) (lit "i") = Normal regex →
            regex trimmed = false) rules.
Proof.
  rewrite forallb_forall, Forall_forall. intros Htest x Hin regex Hre.
  specialize (Htest x). rewrite Hre in Htest.
  apply negb_true_iff, Htest. by apply list_elem_of_In.
Qed.

Lemma evaluate_none_compiling (this : t) (command : jsstring) (reads : nat) :
  well_compiled this →
  Forall (λ x, ∀ regex,
            RegExp_new (WarningRule.pattern x) (lit "i") = Normal regex →
            regex (trim command) = false) (allRules this) →
  evaluate Date_now this command reads = (None, reads).
Proof.
  intros Hwc Hall. unfold evaluate.
  destruct (negb (enabled this)); [done|]. simpl.
  destruct (strlen (trim command) =? 0); [done|].
  rewrite Hwc. apply evaluate_loop_none. by apply active_rules_no_match.
Qed.

End WithRuntime.

End EngineFacts.

(** * Properties of the interception pipeline *)

Module PipelineFacts.
Import IpcHandlers.

(** ** Walking a string by code points *)

Lemma code_points_app_upto (n : nat) (s t : jsstring) :
  (length s ≤ n)%nat →
  starts_low t = false →
  code_points (s ++ t) = code_points s ++ code_points t.
Proof.
  revert s. induction n as [|n IH]; intros s Hlen Hlow.
  - destruct s; [done|simpl in Hlen; lia].
  - destruct s as [|u [|v s]]; [done| |].
    + destruct t as [|v t]; [done|]. simpl in *.
      by rewrite Hlow, andb_false_r.
    + change (code_points ((u :: v :: s) ++ t))
        with (if is_high_surrogate u && is_low_surrogate v
              then [u; v] :: code_points (s ++ t)
              else [u] :: code_points ((v :: s) ++ t)).
      change (code_points (u :: v :: s))
        with (if is_high_surrogate u && is_low_surrogate v
              then [u; v] :: code_points s
              else [u] :: code_points (v :: s)).
      simpl in Hlen.
      destruct (is_high_surrogate u && is_low_surrogate v).
      * rewrite IH by (done || lia). done.
      * rewrite IH by (done || simpl; lia). done.
Qed.

Lemma code_points_app (s t : jsstring) :
  starts_low t = false →
  code_points (s ++ t) = code_points s ++ code_points t.
Proof. by apply (code_points_app_upto (length s)). Qed.

Lemma code_points_repeat (u : N) (n : nat) :
  is_high_surrogate u = false →
  code_points (repeat u n) = repeat [u] n.
Proof.
  intros Hu. induction n as [|n IH]; [done|].
  destruct n as [|n]; [done|].
  change (code_points (repeat u (S (S n))))
    with (if is_high_surrogate u && is_low_surrogate u
          then [u; u] :: code_points (repeat u n)
          else [u] :: code_points (repeat u (S n))).
  by rewrite Hu, IH.
Qed.

(** ** The shell stays alive through the handlers *)

Section WithEngine.

Variable Date_now : nat → Z.
Variable warningEngine : WarningEngine.t.

Abbreviation process_char := (IpcHandlers.process_char Date_now warningEngine).
Abbreviation shell_write := (IpcHandlers.shell_write Date_now warningEngine).
Abbreviation on_enter := (IpcHandlers.on_enter Date_now warningEngine).
Abbreviation evaluate := (WarningEngine.evaluate Date_now warningEngine).

Lemma write_alive (data : jsstring) (w : World) :
  ptyAlive w = true →
  shellManager_write data w = set_ptyInput (ptyInput w ++ [data]) w.
Proof. intros Ha. unfold shellManager_write. by rewrite Ha. Qed.

Lemma ptyAlive_write (data : jsstring) (w : World) :
  ptyAlive (shellManager_write data w) = ptyAlive w.
Proof. unfold shellManager_write. by destruct (ptyAlive w) eqn:Ha. Qed.

Lemma ptyAlive_send (payload : WarningDisplayPayload.t) (w : World) :
  ptyAlive (send_warningTriggered payload w) = ptyAlive w.
Proof. unfold send_warningTriggered. by destruct (hasWindow w). Qed.

Lemma ptyAlive_on_enter (char : jsstring) (w : World) :
  ptyAlive (on_enter char w) = ptyAlive w.
Proof.
  unfold IpcHandlers.on_enter.
  destruct (strlen (trim (lineBuffer w)) =? 0); simpl.
  - by rewrite ptyAlive_write.
  - destruct (WarningEngine.evaluate _ _ _ _) as [[res|] reads]; simpl.
    + by rewrite ptyAlive_send.
    + by rewrite ptyAlive_write.
Qed.

Lemma ptyAlive_process_char (w : World) (char : jsstring) :
  ptyAlive (process_char w char) = ptyAlive w.
Proof.
  unfold IpcHandlers.process_char.
  repeat (case_decide || case_match); simpl;
    rewrite ?ptyAlive_write, ?ptyAlive_on_enter; done.
Qed.

Lemma ptyAlive_chars (chars : list jsstring) (w : World) :
  ptyAlive (fold_left process_char chars w) = ptyAlive w.
Proof.
  revert w. induction chars as [|c chars IH]; intros w; simpl; [done|].
  by rewrite IH, ptyAlive_process_char.
Qed.

Lemma shell_write_alive (data : jsstring) (w : World) :
  ptyAlive w = true →
  shell_write data w = fold_left process_char (code_points data) w.
Proof. intros Ha. unfold IpcHandlers.shell_write, isAlive. by rewrite Ha. Qed.

Lemma ptyAlive_shell_write (data : jsstring) (w : World) :
  ptyAlive (shell_write data w) = ptyAlive w.
Proof.
  unfold IpcHandlers.shell_write, isAlive.
  destruct (ptyAlive w) eqn:Ha; simpl; [|done].
  by rewrite ptyAlive_chars.
Qed.

(** Two writes in a row are one write of the concatenation, as long as the
    cut does not fall inside a surrogate pair. *)
Lemma shell_write_app (s t : jsstring) (w : World) :
  starts_low t = false →
  shell_write (s ++ t) w = shell_write t (shell_write s w).
Proof.
  intros Hlow. destruct (ptyAlive w) eqn:Ha.
  - rewrite !shell_write_alive by (by rewrite ?ptyAlive_shell_write).
    by rewrite code_points_app, fold_left_app.
  - unfold IpcHandlers.shell_write, isAlive. by rewrite Ha; simpl; rewrite Ha.
Qed.

(** ** Escape sequences *)





(** ** The Enter branch *)

Lemma evaluate_none_reads (command : jsstring) (reads reads' : nat) :
  evaluate command reads = (None, reads') → reads' = reads.
Proof.
  unfold WarningEngine.evaluate.
  destruct (negb (WarningEngine.enabled warningEngine)); [by intros [= <-]|].
  destruct (strlen (trim command) =? 0); [by intros [= <-]|].
  generalize (WarningEngine.compiledRules warningEngine) as rules.
  induction rules as [|cr rules IH]; simpl; [by intros [= <-]|].
  by destruct (CompiledRule.regex cr (trim command)).
Qed.

Lemma process_char_enter (char : jsstring) (w : World) :
  inEscapeSequence w = false →
  char = CR ∨ char = LF →
  process_char w char = on_enter char w.
Proof.
  intros He Hchar. unfold IpcHandlers.process_char. rewrite He.
  rewrite decide_False by (by destruct Hchar as [-> | ->]).
  rewrite decide_False
    by (destruct Hchar as [-> | ->]; intros [H|H]; discriminate H).
  rewrite (decide_True (P := char = CR ∨ char = LF)) by done.
  destruct Hchar as [-> | ->].
  - by rewrite (bool_decide_eq_true_2 (CR = CR)), andb_false_r by done.
  - by rewrite (bool_decide_eq_true_2 (LF = LF)), andb_false_r by done.
Qed.

Lemma shell_write_enter (pre char : jsstring) (w : World) :
  ptyAlive w = true →
  char = CR ∨ char = LF →
  shell_write (pre ++ char) w = process_char (shell_write pre w) char.
Proof.
  intros Ha Hchar. rewrite shell_write_app by (by destruct Hchar as [-> | ->]).
  rewrite (shell_write_alive char) by (by rewrite ptyAlive_shell_write).
  by destruct Hchar as [-> | ->].
Qed.

Lemma set_clockReads_same (w : World) : set_clockReads (clockReads w) w = w.
Proof. by destruct w. Qed.

Lemma on_enter_empty (char : jsstring) (w : World) :
  ptyAlive w = true →
  trim (lineBuffer w) = [] →
  on_enter char w = set_lineBuffer [] (set_ptyInput (ptyInput w ++ [char]) w).
Proof.
  intros Ha Hc. unfold IpcHandlers.on_enter. rewrite Hc. simpl.
  by rewrite write_alive.
Qed.

Lemma on_enter_no_match (char : jsstring) (w : World) (reads : nat) :
  ptyAlive w = true →
  trim (lineBuffer w) ≠ [] →
  evaluate (trim (lineBuffer w)) (clockReads w) = (None, reads) →
  on_enter char w = set_lineBuffer [] (set_ptyInput (ptyInput w ++ [char]) w).
Proof.
  intros Ha Hc Hev. unfold IpcHandlers.on_enter.
  rewrite EngineFacts.strlen_zero, bool_decide_eq_false_2 by done.
  rewrite Hev. apply evaluate_none_reads in Hev as ->.
  rewrite set_clockReads_same. by rewrite write_alive.
Qed.

Lemma on_enter_match (char : jsstring) (w : World) (res : WarningResult.t)
    (reads : nat) :
  trim (lineBuffer w) ≠ [] →
  evaluate (trim (lineBuffer w)) (clockReads w) = (Some res, reads) →
  on_enter char w
  = send_warningTriggered (warningPayload_of res)
      (set_pendingCommands
         (<[WarningResult.warningId res :=
              PendingCommand.mk (WarningResult.warningId res) CR]>
            (pendingCommands w))
         (set_clockReads reads w)).
Proof.
  intros Hc Hev. unfold IpcHandlers.on_enter.
  rewrite EngineFacts.strlen_zero, bool_decide_eq_false_2 by done.
  by rewrite Hev.
Qed.


(** ** Resolution *)

Lemma confirm_known (warningId : jsstring) (pending : PendingCommand.t)
    (w : World) :
  pendingCommands w !! warningId = Some pending →
  warning_confirm warningId w
  = set_lineBuffer []
      (set_pendingCommands (delete warningId (pendingCommands w))
         (shellManager_write (PendingCommand.pendingData pending) w)).
Proof.
  intros Hp. unfold warning_confirm. rewrite Hp.
  unfold shellManager_write. by destruct (ptyAlive w).
Qed.

Lemma cancel_known (warningId : jsstring) (pending : PendingCommand.t)
    (w : World) :
  pendingCommands w !! warningId = Some pending →
  warning_cancel warningId w
  = shellManager_write CTRL_U
      (set_lineBuffer []
         (set_pendingCommands (delete warningId (pendingCommands w)) w)).
Proof. intros Hp. unfold warning_cancel. by rewrite Hp. Qed.

Lemma confirm_unknown (warningId : jsstring) (w : World) :
  pendingCommands w !! warningId = None → warning_confirm warningId w = w.
Proof. intros Hp. unfold warning_confirm. by rewrite Hp. Qed.

Lemma cancel_unknown (warningId : jsstring) (w : World) :
  pendingCommands w !! warningId = None → warning_cancel warningId w = w.
Proof. intros Hp. unfold warning_cancel. by rewrite Hp. Qed.

Lemma confirm_forgets (warningId : jsstring) (w : World) :
  pendingCommands (warning_confirm warningId w) !! warningId = None.
Proof.
  destruct (pendingCommands w !! warningId) as [pending|] eqn:Hp.
  - rewrite (confirm_known _ pending) by done. simpl. apply lookup_delete_eq.
  - by rewrite confirm_unknown.
Qed.

Lemma cancel_forgets (warningId : jsstring) (w : World) :
  pendingCommands (warning_cancel warningId w) !! warningId = None.
Proof.
  destruct (pendingCommands w !! warningId) as [pending|] eqn:Hp.
  - rewrite (cancel_known _ pending) by done.
    unfold shellManager_write; simpl. destruct (ptyAlive w); simpl;
      apply lookup_delete_eq.
  - by rewrite cancel_unknown.
Qed.

(** C3. A confirm or cancel whose identifier is not in the ledger -- unknown,
    or already resolved -- returns the state it was given: ledger, line
    buffer, shell input and renderer are untouched.  Confirm and cancel
    both leave their identifier out of the ledger, so the second of two
    resolutions of one identifier, in any of the four combinations, is such
    a call and does nothing. *)
Theorem resolution_takes_effect_once (warningId : jsstring) (w : World) :
  (pendingCommands w !! warningId = None →
     warning_confirm warningId w = w ∧ warning_cancel warningId w = w)
  ∧ pendingCommands (warning_confirm warningId w) !! warningId = None
  ∧ pendingCommands (warning_cancel warningId w) !! warningId = None
  ∧ warning_confirm warningId (warning_confirm warningId w)
    = warning_confirm warningId w
  ∧ warning_cancel warningId (warning_confirm warningId w)
    = warning_confirm warningId w
  ∧ warning_confirm warningId (warning_cancel warningId w)
    = warning_cancel warningId w
  ∧ warning_cancel warningId (warning_cancel warningId w)
    = warning_cancel warningId w.
Proof.
  split; [intros Hp; split; [by apply confirm_unknown|by apply cancel_unknown]|].
  split; [apply confirm_forgets|]. split; [apply cancel_forgets|].
  repeat split.
  - apply confirm_unknown, confirm_forgets.
  - apply cancel_unknown, confirm_forgets.
  - apply confirm_unknown, cancel_forgets.
  - apply cancel_unknown, cancel_forgets.
Qed.

(** C4, as amended. The ledger may hold several decisions at once: a rule
    match that arrives while an earlier decision is pending adds its own
    entry and, its identifier being another one, leaves the earlier entry in
    place; a later confirm of the earlier identifier still writes the data
    that entry holds to the shell. *)
Theorem second_match_keeps_earlier_decision (w : World) (char earlier : jsstring)
    (pending : PendingCommand.t) (res : WarningResult.t) (reads : nat) :
  ptyAlive w = true →
  inEscapeSequence w = false →
  char = CR ∨ char = LF →
  pendingCommands w !! earlier = Some pending →
  evaluate (trim (lineBuffer w)) (clockReads w) = (Some res, reads) →
  WarningResult.warningId res ≠ earlier →
  let after := shell_write char w in
  pendingCommands after !! earlier = Some pending
  ∧ pendingCommands after !! WarningResult.warningId res
    = Some (PendingCommand.mk (WarningResult.warningId res) CR)
  ∧ ptyInput after = ptyInput w
  ∧ ptyInput (warning_confirm earlier after)
    = ptyInput w ++ [PendingCommand.pendingData pending].
Proof.
  intros Ha He Hchar Hp Hev Hne after.
  assert (trim (lineBuffer w) ≠ []) as Hc.
  { intros Hc. rewrite Hc in Hev. unfold WarningEngine.evaluate in Hev.
    destruct (negb _); [done|]. by simpl in Hev. }
  assert (after
          = send_warningTriggered (warningPayload_of res)
              (set_pendingCommands
                 (<[WarningResult.warningId res :=
                      PendingCommand.mk (WarningResult.warningId res) CR]>
                    (pendingCommands w))
                 (set_clockReads reads w))) as Hafter.
  { unfold after. rewrite shell_write_alive by done.
    assert (code_points char = [char]) as -> by (by destruct Hchar as [-> | ->]).
    simpl. rewrite process_char_enter by done.
    by apply on_enter_match. }
  assert (pendingCommands after !! earlier = Some pending) as Hearlier.
  { rewrite Hafter. unfold send_warningTriggered.
    destruct (hasWindow _); simpl; by rewrite lookup_insert_ne. }
  split; [done|]. split; [|split].
  - rewrite Hafter. unfold send_warningTriggered.
    destruct (hasWindow _); simpl; by rewrite lookup_insert_eq.
  - rewrite Hafter. unfold send_warningTriggered. by destruct (hasWindow _).
  - rewrite (confirm_known _ pending) by done. simpl.
    assert (ptyAlive after = true) as Hal
      by (unfold after; by rewrite ptyAlive_shell_write).
    rewrite write_alive by done. simpl.
    rewrite Hafter. unfold send_warningTriggered. by destruct (hasWindow _).
Qed.

(** C5, as amended. A line terminator read outside an escape sequence with a
    non-empty candidate clears the line buffer at once when no rule
    matches; when a rule matches, the buffer keeps its text while the
    decision is pending, and is cleared when that decision is confirmed or
    cancelled. *)
Theorem buffer_cleared_on_resolution (w : World) (char : jsstring) :
  ptyAlive w = true →
  inEscapeSequence w = false →
  char = CR ∨ char = LF →
  trim (lineBuffer w) ≠ [] →
  let after := shell_write char w in
  match evaluate (trim (lineBuffer w)) (clockReads w) with
  | (None, _) => lineBuffer after = []
  | (Some res, _) =>
      lineBuffer after = lineBuffer w
      ∧ is_Some (pendingCommands after !! WarningResult.warningId res)
      ∧ lineBuffer (warning_confirm (WarningResult.warningId res) after) = []
      ∧ lineBuffer (warning_cancel (WarningResult.warningId res) after) = []
  end.
Proof.
  intros Ha He Hchar Hc after.
  assert (after = on_enter char w) as Hafter.
  { unfold after. rewrite shell_write_alive by done.
    assert (code_points char = [char]) as -> by (by destruct Hchar as [-> | ->]).
    simpl. by apply process_char_enter. }
  destruct (evaluate (trim (lineBuffer w)) (clockReads w))
    as [[res|] reads] eqn:Hev.
  - rewrite (on_enter_match _ _ res reads) in Hafter by done.
    assert (pendingCommands after !! WarningResult.warningId res
            = Some (PendingCommand.mk (WarningResult.warningId res) CR)) as Hp.
    { rewrite Hafter. unfold send_warningTriggered.
      destruct (hasWindow _); simpl; by rewrite lookup_insert_eq. }
    split; [|split; [by rewrite Hp|split]].
    + rewrite Hafter. unfold send_warningTriggered. by destruct (hasWindow _).
    + by rewrite (confirm_known _ _ _ Hp).
    + rewrite (cancel_known _ _ _ Hp). unfold shellManager_write; simpl.
      by destruct (ptyAlive after).
  - rewrite Hafter. by rewrite (on_enter_no_match _ _ reads).
Qed.

(** ** The capacity of the line buffer *)

Lemma process_char_regular (w : World) (char : jsstring) :
  ptyAlive w = true →
  inEscapeSequence w = false →
  32 ≤ charCodeAt0 char →
  char ≠ DEL →
  process_char w char
  = set_ptyInput (ptyInput w ++ [char])
      (if strlen (lineBuffer w) <? MAX_LINE_BUFFER_LENGTH
       then set_lineBuffer (lineBuffer w ++ char) w
       else w).
Proof.
  intros Ha He Hcode Hdel. unfold IpcHandlers.process_char. rewrite He.
  rewrite decide_False by (intros ->; simpl in Hcode; lia).
  rewrite decide_False by (intros [->| ->]; [done|simpl in Hcode; lia]).
  replace (charCodeAt0 char <? 32) with false by (symmetry; apply N.ltb_ge; lia).
  simpl. rewrite decide_False
    by (intros [->| ->]; simpl in Hcode; lia).
  destruct (strlen (lineBuffer w) <? MAX_LINE_BUFFER_LENGTH);
    by rewrite write_alive.
Qed.

(** At the capacity a printable character is written to the shell and
    left out of the buffer. *)
Lemma full_buffer_drops_and_forwards (w : World) (char : jsstring) :
  ptyAlive w = true →
  inEscapeSequence w = false →
  32 ≤ charCodeAt0 char →
  char ≠ DEL →
  MAX_LINE_BUFFER_LENGTH ≤ strlen (lineBuffer w) →
  process_char w char = set_ptyInput (ptyInput w ++ [char]) w.
Proof.
  intros Ha He Hcode Hdel Hfull. rewrite process_char_regular by done.
  by replace (strlen (lineBuffer w) <? MAX_LINE_BUFFER_LENGTH) with false
    by (symmetry; by apply N.ltb_ge).
Qed.

(** Typing [n] times the letter [a] into a buffer with room for them. *)
Lemma letters_fill_buffer (n : nat) (w : World) :
  ptyAlive w = true →
  inEscapeSequence w = false →
  strlen (lineBuffer w) + N.of_nat n ≤ MAX_LINE_BUFFER_LENGTH →
  fold_left process_char (repeat [97] n) w
  = set_ptyInput (ptyInput w ++ repeat [97] n)
      (set_lineBuffer (lineBuffer w ++ repeat 97 n) w).
Proof.
  revert w. induction n as [|n IH]; intros w Ha He Hroom.
  - simpl. rewrite !app_nil_r. by destruct w.
  - change (repeat [97] (S n)) with ([97] :: repeat [97] n).
    change (repeat 97 (S n)) with (97 :: repeat 97 n).
    cbn [fold_left]. rewrite process_char_regular by (done || simpl; lia).
    replace (strlen (lineBuffer w) <? MAX_LINE_BUFFER_LENGTH) with true
      by (symmetry; apply N.ltb_lt; lia).
    rewrite IH; [|done|done|].
    + destruct w; unfold set_ptyInput, set_lineBuffer; simpl.
      by rewrite <- !app_assoc.
    + cbn [lineBuffer set_ptyInput set_lineBuffer]. unfold strlen in *.
      rewrite length_app. simpl. lia.
Qed.

Lemma lineBuffer_write (data : jsstring) (w : World) :
  lineBuffer (shellManager_write data w) = lineBuffer w.
Proof. unfold shellManager_write. by destruct (ptyAlive w). Qed.

Lemma lineBuffer_on_enter (char : jsstring) (w : World) :
  lineBuffer (on_enter char w) = [] ∨ lineBuffer (on_enter char w) = lineBuffer w.
Proof.
  unfold IpcHandlers.on_enter.
  destruct (strlen (trim (lineBuffer w)) =? 0); [by left|].
  destruct (WarningEngine.evaluate _ _ _ _) as [[res|] reads].
  - right. unfold send_warningTriggered; simpl. by destruct (hasWindow w).
  - by left.
Qed.

Lemma strlen_slice (s : jsstring) : strlen (slice_0_m1 s) ≤ strlen s.
Proof.
  unfold strlen, slice_0_m1. induction s as [|u [|v s] IH]; simpl in *; lia.
Qed.

(** One character of at most [k] code units leaves the buffer within
    [MAX_LINE_BUFFER_LENGTH - 1 + k] code units. *)
Lemma process_char_capacity (k : N) (w : World) (char : jsstring) :
  1 ≤ k →
  strlen char ≤ k →
  strlen (lineBuffer w) ≤ MAX_LINE_BUFFER_LENGTH - 1 + k →
  strlen (lineBuffer (process_char w char)) ≤ MAX_LINE_BUFFER_LENGTH - 1 + k.
Proof.
  intros Hk Hchar Hw. unfold IpcHandlers.process_char.
  case_decide; [by rewrite lineBuffer_write|].
  destruct (inEscapeSequence w).
  { destruct (ends_escape_sequence char); simpl; by rewrite lineBuffer_write. }
  case_decide.
  { rewrite lineBuffer_write. simpl. pose proof (strlen_slice (lineBuffer w)). lia. }
  destruct (_ && _ && _).
  { rewrite lineBuffer_write. simpl. unfold strlen, MAX_LINE_BUFFER_LENGTH. simpl. lia. }
  case_decide.
  { destruct (lineBuffer_on_enter char w) as [-> | ->]; [|done].
    unfold strlen, MAX_LINE_BUFFER_LENGTH. simpl. lia. }
  rewrite lineBuffer_write.
  destruct (strlen (lineBuffer w) <? MAX_LINE_BUFFER_LENGTH) eqn:Hroom; [|done].
  apply N.ltb_lt in Hroom. simpl. unfold strlen in *. rewrite length_app. lia.
Qed.

Lemma code_points_short (s : jsstring) :
  Forall (λ char, strlen char ≤ 2) (code_points s).
Proof.
  assert (∀ n s, (length s ≤ n)%nat →
            Forall (λ char, strlen char ≤ 2) (code_points s)) as Hupto.
  { clear s. induction n as [|n IH]; intros s Hlen.
    - destruct s; [constructor|simpl in Hlen; lia].
    - destruct s as [|u [|v s]]; [constructor|by repeat constructor|].
      change (code_points (u :: v :: s))
        with (if is_high_surrogate u && is_low_surrogate v
              then [u; v] :: code_points s
              else [u] :: code_points (v :: s)).
      simpl in Hlen. destruct (_ && _); constructor;
        try (unfold strlen; simpl; lia); apply IH; simpl; lia. }
  by apply (Hupto (length s)).
Qed.

(** The buffer never holds more than one code unit above the capacity. *)
Lemma line_buffer_capacity_plus_one (data : jsstring) (w : World) :
  strlen (lineBuffer w) ≤ MAX_LINE_BUFFER_LENGTH + 1 →
  strlen (lineBuffer (shell_write data w)) ≤ MAX_LINE_BUFFER_LENGTH + 1.
Proof.
  unfold IpcHandlers.shell_write. destruct (negb (isAlive w)); [done|].
  pose proof (code_points_short data) as Hshort. revert w.
  induction Hshort as [|char chars Hchar _ IH]; intros w Hw; [done|].
  simpl. apply IH.
  replace (MAX_LINE_BUFFER_LENGTH + 1) with (MAX_LINE_BUFFER_LENGTH - 1 + 2) in *
    by (unfold MAX_LINE_BUFFER_LENGTH; lia).
  by apply process_char_capacity.
Qed.

(** It stays within the capacity as long as no surrogate pair is typed. *)
Lemma line_buffer_capacity_without_pairs (data : jsstring) (w : World) :
  Forall (λ char, strlen char ≤ 1) (code_points data) →
  strlen (lineBuffer w) ≤ MAX_LINE_BUFFER_LENGTH →
  strlen (lineBuffer (shell_write data w)) ≤ MAX_LINE_BUFFER_LENGTH.
Proof.
  unfold IpcHandlers.shell_write. destruct (negb (isAlive w)); [done|].
  intros Hshort. revert w.
  induction Hshort as [|char chars Hchar _ IH]; intros w Hw; [done|].
  simpl. apply IH.
  pose proof (process_char_capacity 1 w char) as Hstep.
  unfold MAX_LINE_BUFFER_LENGTH in *. lia.
Qed.

(** A surrogate pair typed after [n] letters, [n] below the capacity, is
    appended whole. *)
Lemma pair_after_letters (n : nat) :
  N.of_nat n < MAX_LINE_BUFFER_LENGTH →
  lineBuffer (shell_write (repeat 97 n ++ [0xD83D; 0xDE00]) spawned)
  = repeat 97 n ++ [0xD83D; 0xDE00].
Proof.
  intros Hn. rewrite shell_write_alive by done.
  rewrite code_points_app by done.
  rewrite code_points_repeat by done.
  rewrite fold_left_app.
  rewrite letters_fill_buffer; [|done|done|].
  - change (code_points [0xD83D; 0xDE00]) with [[0xD83D; 0xDE00]].
    cbn [fold_left].
    rewrite process_char_regular; [|done|done| |done].
    + cbn [lineBuffer set_ptyInput set_lineBuffer spawned app].
      replace (strlen (repeat 97 n) <? MAX_LINE_BUFFER_LENGTH) with true; [done|].
      symmetry. apply N.ltb_lt. unfold strlen. by rewrite repeat_length.
    + unfold charCodeAt0; simpl. lia.
  - change (strlen (lineBuffer spawned)) with 0. lia.
Qed.

(** C9, at the input on which the code leaves the capacity: 65535 letters
    followed by one character outside the Basic Multilingual Plane (here
    U+1F600, the surrogate pair D83D DE00).  The loop reads the pair as one
    [char]; the buffer, 65535 code units long, is below the capacity, so the
    two code units are appended, and the buffer is 65537 code units long. *)
Theorem surrogate_pair_overshoots_capacity :
  let data := repeat 97 (N.to_nat 65535) ++ [0xD83D; 0xDE00] in
  let after := shell_write data spawned in
  lineBuffer after = data
  ∧ strlen (lineBuffer after) = 65537
  ∧ MAX_LINE_BUFFER_LENGTH < strlen (lineBuffer after).
Proof.
  intros data after.
  assert (N.of_nat (N.to_nat 65535) = 65535) as Hn by apply N2Nat.id.
  assert (lineBuffer after = data) as Hbuf.
  { apply pair_after_letters. rewrite Hn. reflexivity. }
  assert (strlen (lineBuffer after) = 65537) as Hlen.
  { rewrite Hbuf. unfold data, strlen.
    rewrite length_app, repeat_length, Nat2N.inj_add, Hn. reflexivity. }
  split; [exact Hbuf|]. split; [exact Hlen|].
  rewrite Hlen. reflexivity.
Qed.

End WithEngine.

End PipelineFacts.

(** * The engine: order of evaluation and uncompilable rules *)

Module EngineClaims.
Import WarningEngine EngineSpec EngineFacts.

(** C6. An engine returns none when it is disabled or when the trimmed
    candidate is empty.  Otherwise it tests the trimmed candidate against
    its compiled rules in their order: when the rules before some rule do
    not match and that rule does, the result is the one for that rule,
    whatever rules follow it; when no rule matches the result is none.  The
    compiled rules of the engine built from a configuration are the rules
    of the rule set that compile under the flag ['i'] (case-insensitive
    matching), in the order of the rule set -- built-ins in catalog order
    without the disabled ones, then the custom rules in configuration
    order -- and that engine is enabled as the configuration says. *)
Theorem evaluate_first_match_wins
    (RegExp_new : jsstring → jsstring → completion (jsstring → bool))
    (Date_now : nat → Z) (config : WarningsConfig.t) (this : WarningEngine.t)
    (command : jsstring) (reads : nat) :
  (∃ built,
     constructor RegExp_new config = Normal built
     ∧ enabled built = WarningsConfig.enabled config
     ∧ compiledRules built = active_rules RegExp_new (rule_set config))
  ∧ let trimmed := trim command in
    (enabled this = false ∨ trimmed = [] →
       evaluate Date_now this command reads = (None, reads))
    ∧ (enabled this = true → trimmed ≠ [] →
         (∀ pre cr post,
            compiledRules this = pre ++ cr :: post →
            Forall (λ x, CompiledRule.regex x trimmed = false) pre →
            CompiledRule.regex cr trimmed = true →
            evaluate Date_now this command reads
            = (Some (result_for cr trimmed (Date_now reads)), S reads))
         ∧ (Forall (λ x, CompiledRule.regex x trimmed = false)
              (compiledRules this) →
            evaluate Date_now this command reads = (None, reads))).
Proof.
  split.
  { eexists. split; [apply constructor_returns|]. done. }
  intros trimmed. unfold evaluate. split.
  - intros [-> | Ht]; [done|].
    destruct (negb _); [done|]. fold trimmed. by rewrite Ht.
  - intros -> Ht. simpl. fold trimmed.
    rewrite strlen_zero, bool_decide_eq_false_2 by done. split.
    + intros pre cr post -> Hpre Hcr. by apply evaluate_loop_first.
    + apply evaluate_loop_none.
Qed.

(** C7. Building the engine returns normally for every configuration, and
    so does [addRule] for every rule and engine, whatever the RegExp
    constructor throws: the resulting compiled list is the rule list with
    exactly the rules whose pattern does not compile left out, the others
    kept in order with the regex their pattern compiled to, which is the
    engine's invariant.  On an engine with that invariant the rules that
    compile are the ones [evaluate] uses: when a rule of the rule list
    compiles and matches the trimmed candidate, and each rule before it
    does not compile or does not match, [evaluate] returns the result for
    that rule; when no rule that compiles matches, it returns none.  A
    result of [evaluate] comes from a rule whose pattern compiled;
    [evaluate] itself has no failing step. *)
Theorem uncompilable_rules_are_skipped
    (RegExp_new : jsstring → jsstring → completion (jsstring → bool))
    (Date_now : nat → Z) (config : WarningsConfig.t) (rule : WarningRule.t)
    (this : WarningEngine.t) :
  (∃ built,
     constructor RegExp_new config = Normal built
     ∧ enabled built = WarningsConfig.enabled config
     ∧ allRules built = rule_set config
     ∧ compiledRules built = active_rules RegExp_new (rule_set config)
     ∧ well_compiled RegExp_new built)
  ∧ (∃ extended,
       addRule RegExp_new rule this = Normal extended
       ∧ enabled extended = enabled this
       ∧ allRules extended = allRules this ++ [rule]
       ∧ compiledRules extended
         = active_rules RegExp_new (allRules this) ++ active_rules RegExp_new [rule]
       ∧ well_compiled RegExp_new extended)
  ∧ (∀ rules cr,
       cr ∈ active_rules RegExp_new rules ↔
       CompiledRule.rule cr ∈ rules
       ∧ RegExp_new (WarningRule.pattern (CompiledRule.rule cr)) (lit "i")
         = Normal (CompiledRule.regex cr))
  ∧ (∀ command reads res reads',
       well_compiled RegExp_new this →
       evaluate Date_now this command reads = (Some res, reads') →
       ∃ cr,
         cr ∈ compiledRules this
         ∧ RegExp_new (WarningRule.pattern (CompiledRule.rule cr)) (lit "i")
           = Normal (CompiledRule.regex cr)
         ∧ CompiledRule.regex cr (trim command) = true
         ∧ res = result_for cr (trim command) (Date_now reads))
  ∧ (∀ command reads pre deciding post regex,
       well_compiled RegExp_new this →
       enabled this = true →
       trim command ≠ [] →
       allRules this = pre ++ deciding :: post →
       Forall (λ x, ∀ regex,
                 RegExp_new (WarningRule.pattern x) (lit "i") = Normal regex →
                 regex (trim command) = false) pre →
       RegExp_new (WarningRule.pattern deciding) (lit "i") = Normal regex →
       regex (trim command) = true →
       evaluate Date_now this command reads
       = (Some (result_for (CompiledRule.mk deciding regex) (trim command)
                  (Date_now reads)), S reads))
  ∧ (∀ command reads,
       well_compiled RegExp_new this →
       Forall (λ x, ∀ regex,
                 RegExp_new (WarningRule.pattern x) (lit "i") = Normal regex →
                 regex (trim command) = false) (allRules this) →
       evaluate Date_now this command reads = (None, reads)).
Proof.
  split; [|split; [|split; [|split; [|split]]]].
  - eexists. split; [apply constructor_returns|]. done.
  - eexists. split; [apply addRule_returns|]. simpl.
    rewrite active_rules_app. repeat (split; [done|]).
    unfold EngineSpec.well_compiled. simpl. by rewrite active_rules_app.
  - apply active_rule_compiles.
  - intros command reads res reads' Hwc Hev. unfold evaluate in Hev.
    destruct (negb (enabled this)); [done|].
    destruct (strlen (trim command) =? 0); [done|].
    apply evaluate_loop_some in Hev
      as (pre & cr & post & Hrules & _ & Hcr & -> & _).
    assert (cr ∈ compiledRules this) as Hin
      by (rewrite Hrules; set_solver).
    exists cr. split; [done|]. split; [|done].
    rewrite Hwc in Hin. by apply active_rule_compiles in Hin as [_ ?].
  - intros command reads pre deciding post regex.
    apply evaluate_first_compiling.
  - intros command reads. apply evaluate_none_compiling.
Qed.

End EngineClaims.

(** * Runs of the pipeline on the built-in catalog *)

Module Runs.
Import IpcHandlers Scenarios.

Example default_engine_compiles_catalog :
  WarningEngine.constructor RegExpFragment.RegExp_new default_config
  = Normal default_engine
  ∧ map (λ cr, WarningRule.id (CompiledRule.rule cr))
      (WarningEngine.compiledRules default_engine)
    = map WarningRule.id BUILT_IN_RULES.
Proof. split; reflexivity. Qed.

(** Scenario A: [git status] and Enter go through, nothing is held. *)
Example scenario_git_status :
  let after := shell_write ticking_clock default_engine
                 (lit "git status" ++ CR) spawned in
  ptyInput after = typed (lit "git status") ++ [CR]
  ∧ lineBuffer after = []
  ∧ pendingCommands after = ∅
  ∧ warningTriggered after = [].
Proof. repeat split; vm_compute; reflexivity. Qed.

(** Scenario B: [rm -rf /] is echoed, Enter is held under rule [rm-rf]. *)
Example scenario_rm_rf :
  let after := shell_write ticking_clock default_engine
                 (lit "rm -rf /" ++ CR) spawned in
  ptyInput after = typed (lit "rm -rf /")
  ∧ pendingCommands after = {[ first_id := PendingCommand.mk first_id CR ]}
  ∧ map WarningDisplayPayload.riskLevel (warningTriggered after) = [critical]
  ∧ (WarningResult.ruleId <$>
       fst (WarningEngine.evaluate ticking_clock default_engine
              (lit "rm -rf /") 0))
    = Some (lit "rm-rf").
Proof. repeat split; vm_compute; reflexivity. Qed.

(** Scenario C: confirm writes the held Enter, cancel writes Ctrl+U. *)
Example scenario_confirm_cancel :
  let held := shell_write ticking_clock default_engine
                (lit "rm -rf /" ++ CR) spawned in
  ptyInput (warning_confirm first_id held) = ptyInput held ++ [CR]
  ∧ ptyInput (warning_cancel first_id held) = ptyInput held ++ [CTRL_U]
  ∧ pendingCommands (warning_confirm first_id held) = ∅
  ∧ pendingCommands (warning_cancel first_id held) = ∅.
Proof. repeat split; vm_compute; reflexivity. Qed.

(** Scenario D: the text erased by backspaces is not reviewed. *)
Example scenario_backspace :
  let after := shell_write ticking_clock default_engine
                 (lit "rm -rf /" ++ concat (repeat DEL 9) ++ lit "ls" ++ CR)
                 spawned in
  pendingCommands after = ∅
  ∧ warningTriggered after = []
  ∧ last (ptyInput after) = Some CR.
Proof. repeat split; vm_compute; reflexivity. Qed.

(** Scenario E: after the shell exits, the held decision is gone. *)
Example scenario_exit :
  let ended := run ticking_clock default_engine
                 [ShellWrite (lit "rm -rf /" ++ CR); ShellExit] spawned in
  pendingCommands ended = ∅
  ∧ warning_confirm first_id ended = ended.
Proof. repeat split; vm_compute; reflexivity. Qed.

(** Matching ignores case, and the first rule of the catalog that matches
    decides: [sudo rm -rf /] is reported under [rm-rf], not under [sudo]. *)
Example scenario_first_rule_decides :
  (WarningResult.ruleId <$>
     fst (WarningEngine.evaluate ticking_clock default_engine
            (lit "  SUDO Rm -RF /  ") 0))
  = Some (lit "rm-rf")
  ∧ (WarningResult.ruleId <$>
       fst (WarningEngine.evaluate ticking_clock default_engine
              (lit "sudo ls") 0))
    = Some (lit "sudo").
Proof. split; vm_compute; reflexivity. Qed.

(** An unbalanced pattern is left out, the rule after it still matches. *)
Example scenario_broken_rule :
  let this := engine_of (WarningEngine.constructor RegExpFragment.RegExp_new
                           broken_config) in
  map WarningRule.id (WarningEngine.allRules this)
  = filter (λ i, i ≠ lit "sudo") (map WarningRule.id BUILT_IN_RULES)
    ++ [lit "broken"; lit "danger"]
  ∧ map (λ cr, WarningRule.id (CompiledRule.rule cr))
      (WarningEngine.compiledRules this)
    = filter (λ i, i ≠ lit "sudo") (map WarningRule.id BUILT_IN_RULES)
      ++ [lit "danger"]
  ∧ (WarningResult.ruleId <$>
       fst (WarningEngine.evaluate ticking_clock this (lit "(danger zone") 0))
    = Some (lit "danger").
Proof. repeat split; vm_compute; reflexivity. Qed.

(** The engine built from [broken_config]: the unbalanced pattern of the
    first custom rule does not compile, and the custom rule after it decides
    a candidate that no built-in rule matches. *)
Lemma uncompilable_rules_are_skipped_witness :
  EngineSpec.well_compiled RegExpFragment.RegExp_new
    (engine_of (WarningEngine.constructor RegExpFragment.RegExp_new
                  broken_config))
  ∧ RegExpFragment.RegExp_new
      (WarningRule.pattern RuleScenarios.broken_rule) (lit "i")
    = Throw (lit "SyntaxError: Invalid regular expression")
  ∧ WarningEngine.allRules
      (engine_of (WarningEngine.constructor RegExpFragment.RegExp_new
                    broken_config))
    = (filter (λ r, WarningRule.id r ≠ lit "sudo") BUILT_IN_RULES
       ++ [RuleScenarios.broken_rule])
      ++ RuleScenarios.danger_rule :: []
  ∧ (WarningResult.ruleId <$>
       fst (WarningEngine.evaluate ticking_clock
              (engine_of (WarningEngine.constructor RegExpFragment.RegExp_new
                            broken_config))
              (lit " (danger zone ") 0))
    = Some (lit "danger").
Proof.
  set (this := engine_of (WarningEngine.constructor RegExpFragment.RegExp_new
                            broken_config)).
  pose (regex := match RegExpFragment.RegExp_new
                         (WarningRule.pattern RuleScenarios.danger_rule)
                         (lit "i") with
                 | Normal regex => regex
                 | Throw _ => λ _, false
                 end).
  assert (EngineSpec.well_compiled RegExpFragment.RegExp_new this) as Hwc
    by reflexivity.
  assert (RegExpFragment.RegExp_new
            (WarningRule.pattern RuleScenarios.broken_rule) (lit "i")
          = Throw (lit "SyntaxError: Invalid regular expression")) as Hbroken
    by reflexivity.
  assert (WarningEngine.enabled this = true) as Hen by reflexivity.
  assert (trim (lit " (danger zone ") ≠ []) as Ht by (vm_compute; discriminate).
  assert (WarningEngine.allRules this
          = (filter (λ r, WarningRule.id r ≠ lit "sudo") BUILT_IN_RULES
             ++ [RuleScenarios.broken_rule])
            ++ RuleScenarios.danger_rule :: []) as Hrules
    by (vm_compute; reflexivity).
  assert (Forall (λ x, ∀ regex,
                    RegExpFragment.RegExp_new (WarningRule.pattern x) (lit "i")
                    = Normal regex →
                    regex (trim (lit " (danger zone ")) = false)
            (filter (λ r, WarningRule.id r ≠ lit "sudo") BUILT_IN_RULES
             ++ [RuleScenarios.broken_rule])) as Hpre
    by (apply EngineFacts.no_match_by_test; vm_compute; reflexivity).
  assert (RegExpFragment.RegExp_new
            (WarningRule.pattern RuleScenarios.danger_rule) (lit "i")
          = Normal regex) as Hre by reflexivity.
  assert (regex (trim (lit " (danger zone ")) = true) as Hmatch
    by (vm_compute; reflexivity).
  split; [exact Hwc|]. split; [exact Hbroken|]. split; [exact Hrules|].
  rewrite (proj1 (proj2 (proj2 (proj2 (proj2
             (EngineClaims.uncompilable_rules_are_skipped
                RegExpFragment.RegExp_new ticking_clock broken_config
                RuleScenarios.danger_rule this)))))
             (lit " (danger zone ") 0%nat _ _ _ regex
             Hwc Hen Ht Hrules Hpre Hre Hmatch).
  reflexivity.
Defined.

(** ** C1 *)



(** ** C3 *)

Lemma resolution_takes_effect_once_witness :
  pendingCommands held_sudo !! second_id = None
  ∧ warning_confirm second_id held_sudo = held_sudo
  ∧ warning_cancel second_id held_sudo = held_sudo
  ∧ warning_confirm first_id (warning_confirm first_id held_sudo)
    = warning_confirm first_id held_sudo.
Proof.
  assert (pendingCommands held_sudo !! second_id = None) as H1
    by (vm_compute; reflexivity).
  split; [exact H1|].
  destruct (PipelineFacts.resolution_takes_effect_once second_id held_sudo)
    as [Hunknown _].
  destruct (PipelineFacts.resolution_takes_effect_once first_id held_sudo)
    as (_ & _ & _ & Htwice & _).
  destruct (Hunknown H1) as [Hconfirm Hcancel].
  split; [exact Hconfirm|]. split; [exact Hcancel|exact Htwice].
Defined.

(** ** C4 *)

(** C4 fails as stated. Two matches a millisecond apart leave two
    decisions in the ledger, and confirming the earlier one after the
    second match still writes its carriage return to the shell. *)
Lemma earlier_decision_survives_second_match :
  pendingCommands held_sudo = {[ first_id := PendingCommand.mk first_id CR ]}
  ∧ fst (WarningEngine.evaluate ticking_clock default_engine
           (trim (lineBuffer held_sudo)) (clockReads held_sudo))
    = Some (sudo_warning second_id)
  ∧ pendingCommands held_twice
    = {[ first_id := PendingCommand.mk first_id CR;
         second_id := PendingCommand.mk second_id CR ]}
  ∧ ptyInput (warning_confirm first_id held_twice)
    = ptyInput held_twice ++ [CR]
  ∧ ¬ AsSpecified.earlier_decision_cancelled ticking_clock default_engine
        held_sudo CR first_id.
Proof.
  repeat (split; [vm_compute; reflexivity|]).
  intros H. vm_compute in H. destruct H as (_ & H & _). discriminate H.
Qed.

Lemma second_match_keeps_earlier_decision_witness :
  ptyAlive held_sudo = true
  ∧ inEscapeSequence held_sudo = false
  ∧ (CR = CR ∨ CR = LF)
  ∧ pendingCommands held_sudo !! first_id = Some (PendingCommand.mk first_id CR)
  ∧ WarningEngine.evaluate ticking_clock default_engine
      (trim (lineBuffer held_sudo)) (clockReads held_sudo)
    = (Some (sudo_warning second_id), 2%nat)
  ∧ second_id ≠ first_id
  ∧ pendingCommands (shell_write ticking_clock default_engine CR held_sudo)
      !! first_id
    = Some (PendingCommand.mk first_id CR)
  ∧ ptyInput
      (warning_confirm first_id
         (shell_write ticking_clock default_engine CR held_sudo))
    = ptyInput held_sudo ++ [CR].
Proof.
  assert (ptyAlive held_sudo = true) as H1 by (vm_compute; reflexivity).
  assert (inEscapeSequence held_sudo = false) as H2 by (vm_compute; reflexivity).
  assert (CR = CR ∨ CR = LF) as H3 by (left; reflexivity).
  assert (pendingCommands held_sudo !! first_id
          = Some (PendingCommand.mk first_id CR)) as H4
    by (vm_compute; reflexivity).
  assert (WarningEngine.evaluate ticking_clock default_engine
            (trim (lineBuffer held_sudo)) (clockReads held_sudo)
          = (Some (sudo_warning second_id), 2%nat)) as H5
    by (vm_compute; reflexivity).
  assert (second_id ≠ first_id) as H6 by (vm_compute; discriminate).
  split; [exact H1|]. split; [exact H2|]. split; [exact H3|]. split; [exact H4|].
  split; [exact H5|]. split; [exact H6|].
  pose proof (PipelineFacts.second_match_keeps_earlier_decision
                ticking_clock default_engine held_sudo CR first_id
                (PendingCommand.mk first_id CR) (sudo_warning second_id) 2%nat
                H1 H2 H3 H4 H5 H6) as H.
  cbv zeta in H. destruct H as (Hkept & _ & _ & Hconfirm).
  split; [exact Hkept|exact Hconfirm].
Defined.

(** ** C5 *)

(** C5 fails as stated. After [sudo x] and Enter the decision is pending
    and the line buffer still holds [sudo x]. *)
Lemma buffer_kept_while_pending :
  ptyAlive typed_sudo = true
  ∧ inEscapeSequence typed_sudo = false
  ∧ trim (lineBuffer typed_sudo) = lit "sudo x"
  ∧ pendingCommands (shell_write ticking_clock default_engine CR typed_sudo)
    = {[ first_id := PendingCommand.mk first_id CR ]}
  ∧ lineBuffer (shell_write ticking_clock default_engine CR typed_sudo)
    = lit "sudo x"
  ∧ ¬ AsSpecified.buffer_cleared_at_detection ticking_clock default_engine
        typed_sudo CR.
Proof.
  repeat (split; [vm_compute; reflexivity|]).
  intros [H _]. vm_compute in H. discriminate H.
Qed.

Lemma buffer_cleared_on_resolution_witness :
  ptyAlive typed_sudo = true
  ∧ inEscapeSequence typed_sudo = false
  ∧ (CR = CR ∨ CR = LF)
  ∧ trim (lineBuffer typed_sudo) ≠ []
  ∧ lineBuffer (shell_write ticking_clock default_engine CR typed_sudo)
    = lineBuffer typed_sudo
  ∧ lineBuffer
      (warning_confirm first_id
         (shell_write ticking_clock default_engine CR typed_sudo))
    = [].
Proof.
  assert (ptyAlive typed_sudo = true) as H1 by (vm_compute; reflexivity).
  assert (inEscapeSequence typed_sudo = false) as H2 by (vm_compute; reflexivity).
  assert (CR = CR ∨ CR = LF) as H3 by (left; reflexivity).
  assert (trim (lineBuffer typed_sudo) ≠ []) as H4 by (vm_compute; discriminate).
  split; [exact H1|]. split; [exact H2|]. split; [exact H3|]. split; [exact H4|].
  pose proof (PipelineFacts.buffer_cleared_on_resolution
                ticking_clock default_engine typed_sudo CR H1 H2 H3 H4) as H.
  cbv zeta in H.
  assert (WarningEngine.evaluate ticking_clock default_engine
            (trim (lineBuffer typed_sudo)) (clockReads typed_sudo)
          = (Some (sudo_warning first_id), 1%nat)) as Hev
    by (vm_compute; reflexivity).
  rewrite Hev in H. destruct H as (Hkept & _ & Hconfirm & _).
  split; [exact Hkept|exact Hconfirm].
Defined.

(** ** C8 *)


(** ** C2 *)

(** C2, at the input on which the code departs from it: [sudo x] ended by a
    line feed.  The line feed is withheld, the ledger entry holds a carriage
    return, and confirm writes that carriage return: the withheld line feed
    never reaches the shell. *)
Theorem confirm_after_line_feed_writes_carriage_return :
  let held := shell_write ticking_clock default_engine (lit "sudo x" ++ LF)
                spawned in
  ptyInput held = typed (lit "sudo x")
  ∧ pendingCommands held = {[ first_id := PendingCommand.mk first_id CR ]}
  ∧ ptyInput (warning_confirm first_id held) = typed (lit "sudo x") ++ [CR]
  ∧ CR ≠ LF.
Proof. repeat split; vm_compute; (reflexivity || discriminate). Qed.

(** ** C10 *)

(** C10, at the input on which the code departs from it: two risky lines
    pasted in one write, so that both evaluations read the clock within the
    same millisecond.  Both detections are sent to the renderer under the
    same identifier, and the ledger holds one entry for the two of them. *)
Theorem same_millisecond_same_identifier :
  let after := shell_write frozen_clock default_engine
                 (lit "sudo a" ++ CR ++ lit "sudo b" ++ CR) spawned in
  map WarningDisplayPayload.warningId (warningTriggered after)
  = [first_id; first_id]
  ∧ map WarningDisplayPayload.command (warningTriggered after)
    = [lit "sudo a"; lit "sudo asudo b"]
  ∧ clockReads after = 2%nat
  ∧ pendingCommands after = {[ first_id := PendingCommand.mk first_id CR ]}.
Proof. repeat split; vm_compute; reflexivity. Qed.

End Runs.

(** * Further properties of the interception pipeline *)

Module CharacterFacts.
Import IpcHandlers PipelineSpec PipelineFacts.

Section WithEngine.

Variable Date_now : nat → Z.
Variable warningEngine : WarningEngine.t.

Abbreviation process_char := (IpcHandlers.process_char Date_now warningEngine).
Abbreviation shell_write := (IpcHandlers.shell_write Date_now warningEngine).
Abbreviation on_enter := (IpcHandlers.on_enter Date_now warningEngine).
Abbreviation handle := (IpcHandlers.handle Date_now warningEngine).
Abbreviation run := (IpcHandlers.run Date_now warningEngine).

(** ** What one character does to the shell input *)

(** A character that is not a terminator is written to the shell, and the
    ledger, the renderer and the clock are left alone. *)
Lemma non_terminator_forwarded (w : World) (char : jsstring) :
  ptyAlive w = true →
  is_terminator char = false →
  ptyInput (process_char w char) = ptyInput w ++ [char]
  ∧ pendingCommands (process_char w char) = pendingCommands w
  ∧ warningTriggered (process_char w char) = warningTriggered w
  ∧ clockReads (process_char w char) = clockReads w.
Proof.
  intros Ha Hterm. unfold is_terminator in Hterm.
  apply bool_decide_eq_false in Hterm.
  unfold IpcHandlers.process_char.
  case_decide; [by rewrite write_alive|].
  destruct (inEscapeSequence w).
  { rewrite write_alive by done. by destruct (ends_escape_sequence char). }
  case_decide; [by rewrite write_alive|].
  destruct (_ && _ && _); [by rewrite write_alive|].
  case_decide; [done|].
  destruct (strlen (lineBuffer w) <? MAX_LINE_BUFFER_LENGTH);
    by rewrite write_alive.
Qed.

(** A terminator is either written to the shell with the clock untouched,
    or withheld, and then the clock was read once. *)
Lemma terminator_forwarded_or_held (w : World) (char : jsstring) :
  ptyAlive w = true →
  is_terminator char = true →
  (ptyInput (process_char w char) = ptyInput w ++ [char]
   ∧ clockReads (process_char w char) = clockReads w)
  ∨ (ptyInput (process_char w char) = ptyInput w
     ∧ clockReads (process_char w char) = S (clockReads w)).
Proof.
  intros Ha Hterm. unfold is_terminator in Hterm.
  apply bool_decide_eq_true in Hterm.
  destruct (inEscapeSequence w) eqn:He.
  - left. unfold IpcHandlers.process_char.
    rewrite decide_False by (by destruct Hterm as [-> | ->]).
    rewrite He, write_alive by done.
    by destruct (ends_escape_sequence char).
  - rewrite process_char_enter by done. unfold IpcHandlers.on_enter.
    destruct (strlen (trim (lineBuffer w)) =? 0) eqn:Hc;
      [left; by rewrite write_alive|].
    destruct (WarningEngine.evaluate _ _ _ _) as [[res|] reads] eqn:Hev.
    + right. unfold send_warningTriggered; simpl.
      assert (reads = S (clockReads w)) as ->.
      { unfold WarningEngine.evaluate in Hev.
        destruct (negb _); [done|].
        destruct (strlen (trim (trim (lineBuffer w))) =? 0); [done|].
        by apply EngineFacts.evaluate_loop_some in Hev
          as (? & ? & ? & _ & _ & _ & _ & ->). }
      by destruct (hasWindow w).
    + left. apply evaluate_none_reads in Hev as ->.
      rewrite set_clockReads_same. by rewrite write_alive.
Qed.

End WithEngine.

End CharacterFacts.

(** * Streams of characters *)

Module StreamFacts.
Import IpcHandlers PipelineSpec PipelineFacts CharacterFacts.

Section WithEngine.

Variable Date_now : nat → Z.
Variable warningEngine : WarningEngine.t.

Abbreviation process_char := (IpcHandlers.process_char Date_now warningEngine).
Abbreviation shell_write := (IpcHandlers.shell_write Date_now warningEngine).
Abbreviation on_enter := (IpcHandlers.on_enter Date_now warningEngine).
Abbreviation handle := (IpcHandlers.handle Date_now warningEngine).
Abbreviation run := (IpcHandlers.run Date_now warningEngine).

(** ** Streams without a terminator *)

(** X1. While the shell is alive, a write whose characters include no line
    terminator sends every character to the shell, in order, and leaves the
    ledger, the renderer and the clock as they were: nothing is withheld
    and nothing is evaluated. *)
Theorem no_terminator_all_forwarded (data : jsstring) (w : World) :
  ptyAlive w = true →
  Forall (λ char, is_terminator char = false) (code_points data) →
  ptyInput (shell_write data w) = ptyInput w ++ code_points data
  ∧ pendingCommands (shell_write data w) = pendingCommands w
  ∧ warningTriggered (shell_write data w) = warningTriggered w
  ∧ clockReads (shell_write data w) = clockReads w.
Proof.
  intros Ha Hchars. rewrite shell_write_alive by done.
  revert w Ha. induction Hchars as [|char chars Hchar _ IH]; intros w Ha.
  - simpl. by rewrite app_nil_r.
  - simpl.
    destruct (non_terminator_forwarded Date_now warningEngine w char Ha Hchar)
      as (Hin & Hp & Hs & Hc).
    destruct (IH (process_char w char)) as (Hin' & Hp' & Hs' & Hc').
    { by rewrite ptyAlive_process_char. }
    rewrite Hin', Hp', Hs', Hc', Hin, Hp, Hs, Hc.
    by rewrite <- app_assoc.
Qed.

(** ** Nothing is lost, nothing is sent twice *)

(** X2. While the shell is alive, what a write adds to the shell input is a
    subsequence of the characters written: every character that is not a
    line terminator is in it, in order and once, and each character left
    out is a terminator withheld by a match, for which the clock was read
    once. *)
Theorem forwarded_once_or_held (data : jsstring) (w : World) :
  ptyAlive w = true →
  ∃ (kept : list jsstring) (held : nat),
    ptyInput (shell_write data w) = ptyInput w ++ kept
    ∧ sublist kept (code_points data)
    ∧ filter (λ char, is_terminator char = false) kept
      = filter (λ char, is_terminator char = false) (code_points data)
    ∧ length (code_points data) = (length kept + held)%nat
    ∧ clockReads (shell_write data w) = (clockReads w + held)%nat.
Proof.
  intros Ha. rewrite shell_write_alive by done.
  generalize (code_points data) as chars. intros chars.
  revert w Ha. induction chars as [|char chars IH]; intros w Ha.
  - exists [], 0%nat. simpl. rewrite app_nil_r. repeat split; (done || lia).
  - simpl fold_left.
    destruct (IH (process_char w char)) as (kept & held & Hin & Hsub & Hfil & Hlen & Hclk).
    { by rewrite ptyAlive_process_char. }
    destruct (is_terminator char) eqn:Hterm.
    + destruct (terminator_forwarded_or_held Date_now warningEngine w char Ha Hterm)
        as [[Hfw Hc] | [Hheld Hc]].
      * exists (char :: kept), held. rewrite Hin, Hfw, Hclk, Hc.
        rewrite <- app_assoc. split; [done|]. split; [by constructor|].
        split; [|simpl; lia].
        rewrite !filter_cons_False by (by rewrite Hterm). done.
      * exists kept, (S held). rewrite Hin, Hheld, Hclk, Hc.
        split; [done|]. split; [by constructor|].
        split; [|simpl; lia].
        rewrite filter_cons_False by (by rewrite Hterm). done.
    + destruct (non_terminator_forwarded Date_now warningEngine w char Ha Hterm)
        as (Hfw & _ & _ & Hc).
      exists (char :: kept), held. rewrite Hin, Hfw, Hclk, Hc.
      rewrite <- app_assoc. split; [done|]. split; [by constructor|].
      split; [|simpl; lia].
      rewrite !filter_cons_True by done. by rewrite Hfil.
Qed.

End WithEngine.
End StreamFacts.

(** * Editing the line *)

Module EditingFacts.
Import IpcHandlers PipelineSpec PipelineFacts CharacterFacts.

(** ** Strings without surrogate pairs *)

Lemma code_points_plain (s : jsstring) :
  Forall (λ u, is_high_surrogate u = false) s →
  code_points s = map (λ u, [u]) s.
Proof.
  induction 1 as [|u s Hu _ IH]; [done|].
  destruct s as [|v s]; [done|].
  change (code_points (u :: v :: s))
    with (if is_high_surrogate u && is_low_surrogate v
          then [u; v] :: code_points s
          else [u] :: code_points (v :: s)).
  by rewrite Hu, IH.
Qed.

Lemma plain_unit_facts (u : N) :
  is_plain_unit u = true →
  32 ≤ u ∧ u ≠ 127 ∧ is_high_surrogate u = false.
Proof.
  unfold is_plain_unit. intros H.
  apply andb_true_iff in H as [H Hlow].
  apply andb_true_iff in H as [H Hhigh].
  apply andb_true_iff in H as [H32 H127].
  apply N.leb_le in H32. apply negb_true_iff, N.eqb_neq in H127.
  by apply negb_true_iff in Hhigh.
Qed.

Lemma removelast_take {A} (l : list A) :
  removelast l = take (length l - 1) l.
Proof.
  induction l as [|x [|y l] IH]; [done|done|].
  change (removelast (x :: y :: l)) with (x :: removelast (y :: l)).
  rewrite IH. simpl. by rewrite Nat.sub_0_r.
Qed.

Section WithEngine.

Variable Date_now : nat → Z.
Variable warningEngine : WarningEngine.t.

Abbreviation process_char := (IpcHandlers.process_char Date_now warningEngine).
Abbreviation shell_write := (IpcHandlers.shell_write Date_now warningEngine).
Abbreviation on_enter := (IpcHandlers.on_enter Date_now warningEngine).

(** Typing plain text into a buffer with room for it appends it. *)
Lemma plain_text_fills_buffer (s : jsstring) (w : World) :
  ptyAlive w = true →
  inEscapeSequence w = false →
  Forall (λ u, is_plain_unit u = true) s →
  strlen (lineBuffer w) + strlen s ≤ MAX_LINE_BUFFER_LENGTH →
  fold_left process_char (map (λ u, [u]) s) w
  = set_ptyInput (ptyInput w ++ map (λ u, [u]) s)
      (set_lineBuffer (lineBuffer w ++ s) w).
Proof.
  intros Ha He Hs. revert w Ha He.
  induction Hs as [|u s Hu _ IH]; intros w Ha He Hroom.
  - simpl. rewrite !app_nil_r. by destruct w.
  - destruct (plain_unit_facts u Hu) as (H32 & H127 & _).
    simpl map. cbn [fold_left].
    rewrite process_char_regular; [|done|done|done|by intros [= ->]].
    unfold strlen in Hroom. simpl length in Hroom.
    replace (strlen (lineBuffer w) <? MAX_LINE_BUFFER_LENGTH) with true
      by (symmetry; apply N.ltb_lt; unfold strlen; lia).
    rewrite IH; [|done|done|].
    + destruct w; unfold set_ptyInput, set_lineBuffer; simpl.
      by rewrite <- !app_assoc.
    + cbn [lineBuffer set_ptyInput set_lineBuffer]. unfold strlen.
      rewrite length_app. simpl. lia.
Qed.

(** Each backspace drops the last code unit of the buffer. *)
Lemma backspaces_shorten_buffer (k : nat) (w : World) :
  ptyAlive w = true →
  inEscapeSequence w = false →
  fold_left process_char (repeat DEL k) w
  = set_ptyInput (ptyInput w ++ repeat DEL k)
      (set_lineBuffer (take (length (lineBuffer w) - k) (lineBuffer w)) w).
Proof.
  revert w. induction k as [|k IH]; intros w Ha He.
  - simpl. rewrite app_nil_r, Nat.sub_0_r, firstn_all. by destruct w.
  - cbn [repeat fold_left].
    assert (process_char w DEL
            = set_ptyInput (ptyInput w ++ [DEL])
                (set_lineBuffer (slice_0_m1 (lineBuffer w)) w)) as ->.
    { unfold IpcHandlers.process_char. rewrite decide_False by done.
      rewrite He. rewrite decide_True by (by left). by rewrite write_alive. }
    rewrite IH by done.
    destruct w as [a i b m e h t c]; unfold set_ptyInput, set_lineBuffer; simpl.
    unfold slice_0_m1. rewrite removelast_take.
    rewrite length_take, take_take, <- app_assoc. simpl. do 2 f_equal. lia.
Qed.

(** X3. Backspaces mirror the edit: after plain text (printable code units,
    no surrogates) typed into a buffer with room for it, [k] backspaces
    leave the buffer without its last [k] code units -- empty once [k]
    reaches its length -- and every character typed, backspaces included,
    has gone to the shell. *)
Theorem backspaces_undo_typing (s : jsstring) (k : nat) (w : World) :
  ptyAlive w = true →
  inEscapeSequence w = false →
  Forall (λ u, is_plain_unit u = true) s →
  strlen (lineBuffer w) + strlen s ≤ MAX_LINE_BUFFER_LENGTH →
  lineBuffer (shell_write (s ++ repeat 127 k) w)
  = take (length (lineBuffer w ++ s) - k) (lineBuffer w ++ s)
  ∧ ptyInput (shell_write (s ++ repeat 127 k) w)
    = ptyInput w ++ map (λ u, [u]) s ++ repeat DEL k.
Proof.
  intros Ha He Hs Hroom. rewrite shell_write_alive by done.
  rewrite code_points_plain.
  2:{ apply Forall_app. split.
      - eapply Forall_impl; [exact Hs|]. intros u Hu.
        by destruct (plain_unit_facts u Hu) as (_ & _ & ?).
      - clear. induction k as [|k IH]; by constructor. }
  rewrite map_app, fold_left_app.
  rewrite (plain_text_fills_buffer s w) by done.
  assert (map (λ u : N, [u]) (repeat 127 k) = repeat DEL k) as ->.
  { induction k as [|k IH]; [done|]. simpl. by rewrite IH. }
  rewrite backspaces_shorten_buffer by done. simpl.
  by rewrite <- app_assoc.
Qed.

(** X4. A backspace drops one code unit, not one character: after a
    character outside the Basic Multilingual Plane, typed into a buffer with
    room, one backspace leaves the high surrogate of the pair in the
    buffer. *)
Theorem backspace_splits_surrogate_pair (high low : N) (w : World) :
  ptyAlive w = true →
  inEscapeSequence w = false →
  is_high_surrogate high = true →
  is_low_surrogate low = true →
  strlen (lineBuffer w) < MAX_LINE_BUFFER_LENGTH →
  lineBuffer (shell_write [high; low; 127] w) = lineBuffer w ++ [high].
Proof.
  intros Ha He Hh Hl Hroom. rewrite shell_write_alive by done.
  assert (code_points [high; low; 127] = [[high; low]; DEL]) as ->.
  { change (code_points [high; low; 127])
      with (if is_high_surrogate high && is_low_surrogate low
            then [high; low] :: code_points [127]
            else [high] :: code_points [low; 127]).
    by rewrite Hh, Hl. }
  cbn [fold_left].
  assert (32 ≤ high) as H32.
  { unfold is_high_surrogate in Hh. apply andb_true_iff in Hh as [Hh _].
    apply N.leb_le in Hh. lia. }
  rewrite (process_char_regular Date_now warningEngine w [high; low]);
    [|done|done|exact H32|by intros [=]].
  replace (strlen (lineBuffer w) <? MAX_LINE_BUFFER_LENGTH) with true
    by (symmetry; by apply N.ltb_lt).
  set (w1 := set_ptyInput _ _).
  change (process_char w1 DEL) with (fold_left process_char (repeat DEL 1) w1).
  rewrite (backspaces_shorten_buffer 1) by done. simpl.
  rewrite length_app. simpl.
  replace (length (lineBuffer w) + 2 - 1)%nat with (length (lineBuffer w) + 1)%nat by lia.
  rewrite take_app_add'; [|done]. done.
Qed.

(** X5. A control character other than escape, backspace, carriage return
    and line feed abandons the line: read outside an escape sequence and
    followed by a line terminator, both go to the shell at once, the buffer
    ends empty, and the ledger, the renderer and the clock are untouched,
    whatever the buffer held. *)
Theorem control_character_abandons_line (u : N) (char : jsstring)
    (w : World) :
  ptyAlive w = true →
  inEscapeSequence w = false →
  is_abandon_unit u = true →
  char = CR ∨ char = LF →
  shell_write ([u] ++ char) w
  = set_lineBuffer [] (set_ptyInput (ptyInput w ++ [[u]; char]) w).
Proof.
  intros Ha He Hu Hchar.
  unfold is_abandon_unit in Hu.
  apply andb_true_iff in Hu as [Hu H10]. apply andb_true_iff in Hu as [Hu H13].
  apply andb_true_iff in Hu as [Hu H8]. apply andb_true_iff in Hu as [H32 H27].
  apply negb_true_iff, N.eqb_neq in H10, H13, H8, H27.
  rewrite shell_write_enter by done.
  rewrite shell_write_alive by done.
  assert (code_points [u] = [[u]]) as -> by done. cbn [fold_left].
  assert (process_char w [u]
          = set_ptyInput (ptyInput w ++ [[u]]) (set_lineBuffer [] w)) as ->.
  { unfold IpcHandlers.process_char.
    rewrite decide_False by (intros [= ->]; done).
    rewrite He.
    rewrite decide_False by (intros [[= ->] | [= ->]]; done).
    unfold charCodeAt0; simpl hd. rewrite H32. simpl.
    rewrite !bool_decide_eq_false_2 by (intros [= ->]; done). simpl.
    by rewrite write_alive. }
  rewrite process_char_enter by done.
  rewrite on_enter_empty by done.
  destruct w; unfold set_ptyInput, set_lineBuffer; simpl.
  by rewrite <- app_assoc.
Qed.

End WithEngine.
End EditingFacts.

(** * The ledger over whole runs *)

Module LedgerFacts.
Import IpcHandlers PipelineSpec PipelineFacts CharacterFacts.

Section WithEngine.

Variable Date_now : nat → Z.
Variable warningEngine : WarningEngine.t.

Abbreviation process_char := (IpcHandlers.process_char Date_now warningEngine).
Abbreviation shell_write := (IpcHandlers.shell_write Date_now warningEngine).
Abbreviation on_enter := (IpcHandlers.on_enter Date_now warningEngine).
Abbreviation handle := (IpcHandlers.handle Date_now warningEngine).
Abbreviation run := (IpcHandlers.run Date_now warningEngine).

(** ** The shape of the ledger *)

Lemma wellformed_delete (id : jsstring) (m : gmap jsstring PendingCommand.t) :
  ledger_entries_wellformed m → ledger_entries_wellformed (delete id m).
Proof.
  intros Hm other pending Hlook.
  apply lookup_delete_Some in Hlook as [_ Hlook]. by apply Hm.
Qed.

Lemma wellformed_process_char (w : World) (char : jsstring) :
  ledger_entries_wellformed (pendingCommands w) →
  ledger_entries_wellformed (pendingCommands (process_char w char)).
Proof.
  intros Hm. unfold IpcHandlers.process_char.
  assert (∀ data w', pendingCommands (shellManager_write data w')
                     = pendingCommands w') as Hwrite.
  { intros data w'. unfold shellManager_write. by destruct (ptyAlive w'). }
  case_decide; [by rewrite Hwrite|].
  destruct (inEscapeSequence w).
  { destruct (ends_escape_sequence char); simpl; by rewrite Hwrite. }
  case_decide; [by rewrite Hwrite|].
  destruct (_ && _ && _); [by rewrite Hwrite|].
  case_decide.
  2:{ rewrite Hwrite. by destruct (strlen (lineBuffer w) <? _). }
  unfold IpcHandlers.on_enter.
  destruct (strlen (trim (lineBuffer w)) =? 0); [simpl; by rewrite Hwrite|].
  destruct (WarningEngine.evaluate _ _ _ _) as [[res|] reads] eqn:Hev;
    [|simpl; by rewrite Hwrite].
  unfold send_warningTriggered.
  assert (∃ now, WarningResult.warningId res = lit "warn-" ++ number_toString now)
    as [now Hid].
  { unfold WarningEngine.evaluate in Hev.
    destruct (negb _); [done|]. destruct (strlen _ =? 0); [done|].
    apply EngineFacts.evaluate_loop_some in Hev
      as (? & cr & ? & _ & _ & _ & -> & _).
    by eexists. }
  assert (ledger_entries_wellformed
            (<[WarningResult.warningId res :=
                 PendingCommand.mk (WarningResult.warningId res) CR]>
               (pendingCommands w))) as Hins.
  { intros id pending Hlook. apply lookup_insert_Some in Hlook
      as [[<- <-] | [_ Hlook]]; [|by apply Hm].
    split; [done|]. split; [done|]. by exists now. }
  by destruct (hasWindow _).
Qed.

Lemma wellformed_handle (w : World) (e : event) :
  ledger_entries_wellformed (pendingCommands w) →
  ledger_entries_wellformed (pendingCommands (handle w e)).
Proof.
  intros Hm. destruct e as [data|command|id|id| |]; simpl.
  - unfold IpcHandlers.shell_write. destruct (negb (isAlive w)); [done|].
    generalize (code_points data) as chars. intros chars. revert w Hm.
    induction chars as [|char chars IH]; intros w Hm; [done|].
    simpl. apply IH. by apply wellformed_process_char.
  - done.
  - unfold warning_confirm.
    destruct (pendingCommands w !! id) eqn:Hp; [|done]. simpl.
    unfold shellManager_write. destruct (ptyAlive w); simpl;
      by apply wellformed_delete.
  - unfold warning_cancel.
    destruct (pendingCommands w !! id) eqn:Hp; [|done].
    unfold shellManager_write; simpl. destruct (ptyAlive w); simpl;
      by apply wellformed_delete.
  - done.
  - intros id pending Hlook. by rewrite lookup_empty in Hlook.
Qed.

(** X6. The ledger keeps its shape through every event: if each entry sits
    under its own identifier, holds a carriage return and has an identifier
    of the form ['warn-'] plus a decimal time value, the same is true after
    any sequence of writes, checks, confirms, cancels, kills and exits.  So
    the only data a confirm ever sends to the shell is a carriage return. *)
Theorem ledger_shape_is_invariant (events : list event) (w : World) :
  ledger_entries_wellformed (pendingCommands w) →
  ledger_entries_wellformed (pendingCommands (run events w))
  ∧ ∀ id,
      ptyInput (warning_confirm id (run events w)) = ptyInput (run events w)
      ∨ ptyInput (warning_confirm id (run events w))
        = ptyInput (run events w) ++ [CR].
Proof.
  intros Hm.
  assert (ledger_entries_wellformed (pendingCommands (run events w))) as Hrun.
  { unfold IpcHandlers.run. revert w Hm.
    induction events as [|e events IH]; intros w Hm; [done|].
    simpl. apply IH. by apply wellformed_handle. }
  split; [done|]. intros id. unfold warning_confirm.
  destruct (pendingCommands (run events w) !! id) as [pending|] eqn:Hp;
    [|by left].
  destruct (Hrun id pending Hp) as (_ & -> & _).
  unfold shellManager_write. destruct (ptyAlive _); [right|left]; done.
Qed.

(** ** After the shell is gone *)

(** X7. Once the exit of the shell has been handled, the pipeline is inert:
    the ledger and the buffer are empty, the escape flag is down, and every
    later write, confirm or cancel -- in particular a confirm of a decision
    that was pending at the exit -- returns the state unchanged, so nothing
    more reaches the shell input. *)
Theorem exit_orphans_pending_decisions (w : World) :
  let ended := shell_exit w in
  pendingCommands ended = ∅
  ∧ lineBuffer ended = []
  ∧ inEscapeSequence ended = false
  ∧ ptyInput ended = ptyInput w
  ∧ ∀ events,
      Forall (λ e, match e with
                   | ShellWrite _ | WarningConfirm _ | WarningCancel _
                   | ShellKill | ShellExit => True
                   | WarningCheck _ => False
                   end) events →
      run events ended = ended.
Proof.
  intros ended. repeat (split; [done|]).
  induction 1 as [|e events He _ IH]; [done|].
  unfold IpcHandlers.run in *. simpl.
  destruct e as [data|command|id|id| |]; try done.
Qed.

(** X8. Between a kill and the exit event the ledger still holds its
    decisions, but the shell takes nothing: a write is discarded whole, and
    a confirm of a pending decision removes its entry and clears the buffer
    without sending the withheld carriage return. *)
Theorem confirm_after_kill_forwards_nothing (id : jsstring)
    (pending : PendingCommand.t) (data : jsstring) (w : World) :
  pendingCommands w !! id = Some pending →
  let killed := shell_kill w in
  pendingCommands killed = pendingCommands w
  ∧ shell_write data killed = killed
  ∧ warning_confirm id killed
    = set_lineBuffer []
        (set_pendingCommands (delete id (pendingCommands w)) killed)
  ∧ ptyInput (warning_confirm id killed) = ptyInput w.
Proof.
  intros Hp killed. split; [done|]. split; [done|].
  unfold warning_confirm. simpl. rewrite Hp. done.
Qed.

End WithEngine.
End LedgerFacts.

(** * What [trim] returns *)

Module TrimFacts.
Import TrimSpec.

Lemma trimStart_clean (s : jsstring) : starts_clean (trimStart s).
Proof.
  induction s as [|u s IH]; [done|]. simpl.
  destruct (is_white_space u) eqn:Hu; [done|].
  intros v [= <-]. done.
Qed.

Lemma trimStart_fixed (s : jsstring) : starts_clean s → trimStart s = s.
Proof.
  destruct s as [|u s]; [done|]. intros Hs. simpl.
  by rewrite (Hs u eq_refl).
Qed.

Lemma trimStart_suffix (s : jsstring) : ∃ pre, s = pre ++ trimStart s.
Proof.
  induction s as [|u s [pre IH]]; [by exists []|]. simpl.
  destruct (is_white_space u); [|by exists []].
  exists (u :: pre). simpl. by rewrite <- IH.
Qed.

Lemma last_suffix (pre s : jsstring) (u : N) :
  last s = Some u → last (pre ++ s) = Some u.
Proof.
  intros Hs. destruct s as [|v s]; [done|].
  rewrite last_app. by rewrite Hs.
Qed.

Lemma last_rev (s : jsstring) : last (rev s) = head s.
Proof. destruct s as [|u s]; [done|]. simpl. by rewrite last_snoc. Qed.

Lemma head_rev (s : jsstring) : head (rev s) = last s.
Proof. by rewrite <- last_rev, rev_involutive. Qed.

Lemma trimEnd_clean (s : jsstring) : ends_clean (trimEnd s).
Proof.
  intros u Hu. unfold trimEnd in Hu. rewrite last_rev in Hu.
  by apply (trimStart_clean (rev s)).
Qed.

Lemma trimEnd_fixed (s : jsstring) : ends_clean s → trimEnd s = s.
Proof.
  intros Hs. unfold trimEnd. rewrite trimStart_fixed; [apply rev_involutive|].
  intros u Hu. rewrite head_rev in Hu. by apply Hs.
Qed.

Lemma trimEnd_keeps_start (s : jsstring) :
  starts_clean s → starts_clean (trimEnd s).
Proof.
  intros Hs u Hu. unfold trimEnd in Hu. rewrite head_rev in Hu.
  destruct (trimStart_suffix (rev s)) as [pre Hpre].
  apply (last_suffix pre) in Hu. rewrite <- Hpre, last_rev in Hu.
  by apply Hs.
Qed.

Lemma trim_clean (s : jsstring) : starts_clean (trim s) ∧ ends_clean (trim s).
Proof.
  split; [apply trimEnd_keeps_start, trimStart_clean|apply trimEnd_clean].
Qed.

Lemma trim_fixed (s : jsstring) : starts_clean s → ends_clean s → trim s = s.
Proof.
  intros Hs He. unfold trim. rewrite (trimStart_fixed s) by done.
  by apply trimEnd_fixed.
Qed.

Lemma trim_idempotent (s : jsstring) : trim (trim s) = trim s.
Proof. destruct (trim_clean s). by apply trim_fixed. Qed.

End TrimFacts.

(** * Further properties of the rule engine *)

Module EngineLaws.
Import WarningEngine EngineSpec EngineFacts TrimSpec TrimFacts.

(** ** Decimal identifiers *)

Lemma digits_inj (d d' : Decimal.uint) : digits d = digits d' → d = d'.
Proof.
  revert d'. induction d as [|d IH|d IH|d IH|d IH|d IH|d IH|d IH|d IH|d IH|d IH];
    intros [|d'|d'|d'|d'|d'|d'|d'|d'|d'|d']; simpl; try done;
    intros [= H]; f_equal; by apply IH.
Qed.

Lemma digits_no_minus (d d' : Decimal.uint) : digits d ≠ 45 :: digits d'.
Proof. by destruct d. Qed.

Lemma number_toString_inj (z z' : Z) :
  number_toString z = number_toString z' → z = z'.
Proof.
  unfold number_toString. intros H. apply DecimalZ.to_int_inj.
  destruct (Z.to_int z) as [d|d], (Z.to_int z') as [d'|d'].
  - f_equal. by apply digits_inj.
  - by apply digits_no_minus in H.
  - symmetry in H. by apply digits_no_minus in H.
  - injection H as H. f_equal. by apply digits_inj.
Qed.

Section WithRuntime.

Variable RegExp_new : jsstring → jsstring → completion (jsstring → bool).
Variable Date_now : nat → Z.

(** X9. The identifiers of two Warning Results are equal exactly when the
    two evaluations read the same time value from the clock: readings that
    differ, by a millisecond or more, give different identifiers. *)
Theorem identifiers_differ_with_the_clock (this this' : WarningEngine.t)
    (command command' : jsstring) (reads reads' after after' : nat)
    (res res' : WarningResult.t) :
  evaluate Date_now this command reads = (Some res, after) →
  evaluate Date_now this' command' reads' = (Some res', after') →
  (WarningResult.warningId res = WarningResult.warningId res'
   ↔ Date_now reads = Date_now reads').
Proof.
  assert (∀ this command reads res after,
            evaluate Date_now this command reads = (Some res, after) →
            WarningResult.warningId res
            = lit "warn-" ++ number_toString (Date_now reads)) as Hid.
  { clear. intros this command reads res after Hev. unfold evaluate in Hev.
    destruct (negb _); [done|]. destruct (strlen _ =? 0); [done|].
    by apply evaluate_loop_some in Hev as (? & ? & ? & _ & _ & _ & -> & _). }
  intros Hev Hev'. rewrite (Hid _ _ _ _ _ Hev), (Hid _ _ _ _ _ Hev'). split.
  - intros H. apply app_inv_head in H. by apply number_toString_inj.
  - by intros ->.
Qed.

(** X10. [evaluate] looks at its argument through [trim] only: a command
    and its trimmed form get the same answer, and the command text of a
    Warning Result is the trimmed command, which is not empty and has no
    white space at either end. *)
Theorem evaluate_ignores_surrounding_whitespace (this : WarningEngine.t)
    (command : jsstring) (reads : nat) :
  evaluate Date_now this (trim command) reads
  = evaluate Date_now this command reads
  ∧ ∀ res after,
      evaluate Date_now this command reads = (Some res, after) →
      WarningResult.command res = trim command
      ∧ trim command ≠ []
      ∧ starts_clean (WarningResult.command res)
      ∧ ends_clean (WarningResult.command res).
Proof.
  split.
  - unfold evaluate. by rewrite trim_idempotent.
  - intros res after Hev. unfold evaluate in Hev.
    destruct (negb _); [done|].
    rewrite strlen_zero in Hev. case_bool_decide as Ht; [done|].
    apply evaluate_loop_some in Hev as (? & ? & ? & _ & _ & _ & -> & _).
    simpl. split; [done|]. split; [done|]. apply trim_clean.
Qed.

Lemma evaluate_loop_app (l1 l2 : list CompiledRule.t) (trimmed : jsstring)
    (reads : nat) :
  evaluate_loop Date_now (l1 ++ l2) trimmed reads
  = match evaluate_loop Date_now l1 trimmed reads with
    | (Some res, after) => (Some res, after)
    | (None, _) => evaluate_loop Date_now l2 trimmed reads
    end.
Proof.
  induction l1 as [|cr l1 IH]; [done|]. simpl.
  by destruct (CompiledRule.regex cr trimmed).
Qed.

(** X11. A rule added with [addRule] comes last: on an engine whose
    compiled list is up to date, a command that already had a result keeps
    exactly that result, and a command that had none gets the result of the
    new rule when the engine is enabled, the trimmed command is not empty,
    and the new pattern compiles and matches -- and none otherwise. *)
Theorem added_rule_has_lowest_priority (rule : WarningRule.t)
    (this : WarningEngine.t) (command : jsstring) (reads : nat) :
  well_compiled RegExp_new this →
  ∃ extended,
    addRule RegExp_new rule this = Normal extended
    ∧ getRules extended = getRules this ++ [rule]
    ∧ match evaluate Date_now this command reads with
      | (Some res, after) =>
          evaluate Date_now extended command reads = (Some res, after)
      | (None, _) =>
          evaluate Date_now extended command reads
          = match RegExp_new (WarningRule.pattern rule) (lit "i") with
            | Normal regex =>
                if enabled this && negb (strlen (trim command) =? 0)
                   && regex (trim command)
                then (Some (result_for (CompiledRule.mk rule regex)
                              (trim command) (Date_now reads)), S reads)
                else (None, reads)
            | Throw _ => (None, reads)
            end
      end.
Proof.
  intros Hwc. eexists. split; [apply addRule_returns|]. split; [done|].
  unfold evaluate; simpl. rewrite active_rules_app, <- Hwc.
  destruct (enabled this); simpl; [|by destruct (RegExp_new _ _)].
  destruct (strlen (trim command) =? 0); simpl; [by destruct (RegExp_new _ _)|].
  rewrite evaluate_loop_app.
  destruct (evaluate_loop Date_now (compiledRules this) (trim command) reads)
    as [[res|] after] eqn:Hloop; [done|].
  unfold active_rules, compiled; simpl.
  destruct (RegExp_new (WarningRule.pattern rule) (lit "i")) as [regex|err];
    simpl; [|done].
  by destruct (regex (trim command)).
Qed.

(** X12. A rule whose pattern does not compile is accepted by [addRule]
    without an error and listed by [getRules], but stays inactive: on an
    engine whose compiled list is up to date the compiled rules are
    unchanged, and so is the answer of [evaluate] to every command. *)
Theorem uncompilable_added_rule_is_inactive (rule : WarningRule.t)
    (this : WarningEngine.t) (err : jsstring) :
  well_compiled RegExp_new this →
  RegExp_new (WarningRule.pattern rule) (lit "i") = Throw err →
  ∃ extended,
    addRule RegExp_new rule this = Normal extended
    ∧ rule ∈ getRules extended
    ∧ compiledRules extended = compiledRules this
    ∧ ∀ command reads,
        evaluate Date_now extended command reads
        = evaluate Date_now this command reads.
Proof.
  intros Hwc Herr. eexists. split; [apply addRule_returns|].
  assert (active_rules RegExp_new (allRules this ++ [rule]) = compiledRules this)
    as Hsame.
  { rewrite active_rules_app, <- Hwc. unfold active_rules, compiled; simpl.
    by rewrite Herr, app_nil_r. }
  split; [unfold getRules; simpl; set_solver|]. split; [done|].
  intros command reads. unfold evaluate; simpl. by rewrite Hsame.
Qed.

(** X13. The list of disabled identifiers filters the built-in catalog
    only: every custom rule of the configuration is a rule of the engine,
    also one whose identifier is in the list; a built-in rule is a rule of
    the engine exactly when its identifier is not in the list; and the
    engine has no other rules. *)
Theorem disabled_list_filters_builtins_only (config : WarningsConfig.t) :
  ∃ built,
    constructor RegExp_new config = Normal built
    ∧ (∀ rule, rule ∈ WarningsConfig.customRules config →
         rule ∈ getRules built)
    ∧ (∀ rule, rule ∈ BUILT_IN_RULES →
         WarningRule.id rule ∉ WarningsConfig.disabledBuiltInRules config →
         rule ∈ getRules built)
    ∧ (∀ rule, rule ∈ getRules built →
         rule ∈ WarningsConfig.customRules config
         ∨ (rule ∈ BUILT_IN_RULES
            ∧ WarningRule.id rule
              ∉ WarningsConfig.disabledBuiltInRules config)).
Proof.
  eexists. split; [apply constructor_returns|].
  unfold getRules, rule_set; simpl. split; [|split].
  - intros rule Hin. apply elem_of_app. by right.
  - intros rule Hin Hid. apply elem_of_app. left.
    by apply list_elem_of_filter.
  - intros rule Hin. apply elem_of_app in Hin as [Hin|Hin]; [right|by left].
    by apply list_elem_of_filter in Hin as [? ?].
Qed.

End WithRuntime.
End EngineLaws.

(** * Runs that meet the preconditions of the further properties *)

Module Instances.
Import IpcHandlers Scenarios PipelineSpec EngineSpec RuleScenarios.

Lemma no_terminator_all_forwarded_witness :
  ptyAlive spawned = true
  ∧ Forall (λ char, is_terminator char = false) (code_points (lit "git status"))
  ∧ ptyInput (shell_write ticking_clock default_engine (lit "git status") spawned)
    = ptyInput spawned ++ code_points (lit "git status").
Proof.
  assert (ptyAlive spawned = true) as H1 by reflexivity.
  assert (Forall (λ char, is_terminator char = false)
            (code_points (lit "git status"))) as H2
    by (repeat constructor).
  split; [exact H1|]. split; [exact H2|].
  exact (proj1 (StreamFacts.no_terminator_all_forwarded
                  ticking_clock default_engine (lit "git status") spawned
                  H1 H2)).
Defined.

Lemma forwarded_once_or_held_witness :
  ptyAlive spawned = true
  ∧ ∃ (kept : list jsstring) (held : nat),
      ptyInput (shell_write ticking_clock default_engine (lit "sudo x" ++ CR)
                  spawned)
      = ptyInput spawned ++ kept
      ∧ length (code_points (lit "sudo x" ++ CR)) = (length kept + held)%nat.
Proof.
  assert (ptyAlive spawned = true) as H1 by reflexivity.
  split; [exact H1|].
  destruct (StreamFacts.forwarded_once_or_held ticking_clock default_engine
              (lit "sudo x" ++ CR) spawned H1)
    as (kept & held & Hin & _ & _ & Hlen & _).
  exists kept, held. split; [exact Hin|exact Hlen].
Defined.

Lemma backspaces_undo_typing_witness :
  ptyAlive spawned = true
  ∧ inEscapeSequence spawned = false
  ∧ Forall (λ u, is_plain_unit u = true) (lit "rm -rf /")
  ∧ strlen (lineBuffer spawned) + strlen (lit "rm -rf /")
    ≤ MAX_LINE_BUFFER_LENGTH
  ∧ lineBuffer (shell_write ticking_clock default_engine
                  (lit "rm -rf /" ++ repeat 127 3) spawned)
    = take (length (lineBuffer spawned ++ lit "rm -rf /") - 3)
        (lineBuffer spawned ++ lit "rm -rf /").
Proof.
  assert (ptyAlive spawned = true) as H1 by reflexivity.
  assert (inEscapeSequence spawned = false) as H2 by reflexivity.
  assert (Forall (λ u, is_plain_unit u = true) (lit "rm -rf /")) as H3
    by (repeat constructor).
  assert (strlen (lineBuffer spawned) + strlen (lit "rm -rf /")
          ≤ MAX_LINE_BUFFER_LENGTH) as H4 by (vm_compute; discriminate).
  split; [exact H1|]. split; [exact H2|]. split; [exact H3|]. split; [exact H4|].
  exact (proj1 (EditingFacts.backspaces_undo_typing
                  ticking_clock default_engine (lit "rm -rf /") 3 spawned
                  H1 H2 H3 H4)).
Defined.

Lemma backspace_splits_surrogate_pair_witness :
  ptyAlive spawned = true
  ∧ inEscapeSequence spawned = false
  ∧ is_high_surrogate 0xD83D = true
  ∧ is_low_surrogate 0xDE00 = true
  ∧ strlen (lineBuffer spawned) < MAX_LINE_BUFFER_LENGTH
  ∧ lineBuffer (shell_write ticking_clock default_engine
                  [0xD83D; 0xDE00; 127] spawned)
    = lineBuffer spawned ++ [0xD83D].
Proof.
  assert (ptyAlive spawned = true) as H1 by reflexivity.
  assert (inEscapeSequence spawned = false) as H2 by reflexivity.
  assert (is_high_surrogate 0xD83D = true) as H3 by reflexivity.
  assert (is_low_surrogate 0xDE00 = true) as H4 by reflexivity.
  assert (strlen (lineBuffer spawned) < MAX_LINE_BUFFER_LENGTH) as H5
    by reflexivity.
  split; [exact H1|]. split; [exact H2|]. split; [exact H3|]. split; [exact H4|].
  split; [exact H5|].
  exact (EditingFacts.backspace_splits_surrogate_pair
           ticking_clock default_engine 0xD83D 0xDE00 spawned H1 H2 H3 H4 H5).
Defined.

Lemma control_character_abandons_line_witness :
  ptyAlive typed_sudo = true
  ∧ inEscapeSequence typed_sudo = false
  ∧ is_abandon_unit 3 = true
  ∧ (CR = CR ∨ CR = LF)
  ∧ shell_write ticking_clock default_engine ([3] ++ CR) typed_sudo
    = set_lineBuffer []
        (set_ptyInput (ptyInput typed_sudo ++ [[3]; CR]) typed_sudo).
Proof.
  assert (ptyAlive typed_sudo = true) as H1 by (vm_compute; reflexivity).
  assert (inEscapeSequence typed_sudo = false) as H2 by (vm_compute; reflexivity).
  assert (is_abandon_unit 3 = true) as H3 by reflexivity.
  assert (CR = CR ∨ CR = LF) as H4 by (left; reflexivity).
  split; [exact H1|]. split; [exact H2|]. split; [exact H3|]. split; [exact H4|].
  exact (EditingFacts.control_character_abandons_line
           ticking_clock default_engine 3 CR typed_sudo H1 H2 H3 H4).
Defined.

Lemma ledger_shape_is_invariant_witness :
  ledger_entries_wellformed (pendingCommands spawned)
  ∧ ledger_entries_wellformed
      (pendingCommands
         (run ticking_clock default_engine
            [ShellWrite (lit "sudo x" ++ CR); ShellWrite CR] spawned)).
Proof.
  assert (ledger_entries_wellformed (pendingCommands spawned)) as H1.
  { intros id pending Hlook. simpl in Hlook. rewrite lookup_empty in Hlook.
    discriminate Hlook. }
  split; [exact H1|].
  exact (proj1 (LedgerFacts.ledger_shape_is_invariant
                  ticking_clock default_engine
                  [ShellWrite (lit "sudo x" ++ CR); ShellWrite CR] spawned H1)).
Defined.

Lemma confirm_after_kill_forwards_nothing_witness :
  pendingCommands held_sudo !! first_id = Some (PendingCommand.mk first_id CR)
  ∧ ptyInput (warning_confirm first_id (shell_kill held_sudo))
    = ptyInput held_sudo.
Proof.
  assert (pendingCommands held_sudo !! first_id
          = Some (PendingCommand.mk first_id CR)) as H1
    by (vm_compute; reflexivity).
  split; [exact H1|].
  pose proof (LedgerFacts.confirm_after_kill_forwards_nothing
                ticking_clock default_engine first_id
                (PendingCommand.mk first_id CR) [] held_sudo H1) as H.
  cbv zeta in H. exact (proj2 (proj2 (proj2 H))).
Defined.

Lemma identifiers_differ_with_the_clock_witness :
  WarningEngine.evaluate ticking_clock default_engine (lit "sudo x") 0
  = (Some (sudo_warning first_id), 1%nat)
  ∧ WarningEngine.evaluate ticking_clock default_engine (lit "sudo x") 1
    = (Some (sudo_warning second_id), 2%nat)
  ∧ (WarningResult.warningId (sudo_warning first_id)
     = WarningResult.warningId (sudo_warning second_id)
     ↔ ticking_clock 0 = ticking_clock 1).
Proof.
  assert (WarningEngine.evaluate ticking_clock default_engine (lit "sudo x") 0
          = (Some (sudo_warning first_id), 1%nat)) as H1
    by (vm_compute; reflexivity).
  assert (WarningEngine.evaluate ticking_clock default_engine (lit "sudo x") 1
          = (Some (sudo_warning second_id), 2%nat)) as H2
    by (vm_compute; reflexivity).
  split; [exact H1|]. split; [exact H2|].
  exact (EngineLaws.identifiers_differ_with_the_clock ticking_clock
           default_engine default_engine (lit "sudo x") (lit "sudo x")
           0 1 1 2 (sudo_warning first_id) (sudo_warning second_id) H1 H2).
Defined.

Lemma added_rule_has_lowest_priority_witness :
  well_compiled RegExpFragment.RegExp_new default_engine
  ∧ ∃ extended,
      WarningEngine.addRule RegExpFragment.RegExp_new danger_rule default_engine
      = Normal extended
      ∧ WarningEngine.getRules extended
        = WarningEngine.getRules default_engine ++ [danger_rule].
Proof.
  assert (well_compiled RegExpFragment.RegExp_new default_engine) as H1
    by reflexivity.
  split; [exact H1|].
  destruct (EngineLaws.added_rule_has_lowest_priority
              RegExpFragment.RegExp_new ticking_clock danger_rule
              default_engine (lit "sudo x") 0 H1)
    as (extended & Hadd & Hrules & _).
  exists extended. split; [exact Hadd|exact Hrules].
Defined.

Lemma uncompilable_added_rule_is_inactive_witness :
  well_compiled RegExpFragment.RegExp_new default_engine
  ∧ RegExpFragment.RegExp_new (WarningRule.pattern broken_rule) (lit "i")
    = Throw (lit "SyntaxError: Invalid regular expression")
  ∧ ∃ extended,
      WarningEngine.addRule RegExpFragment.RegExp_new broken_rule default_engine
      = Normal extended
      ∧ WarningEngine.compiledRules extended
        = WarningEngine.compiledRules default_engine.
Proof.
  assert (well_compiled RegExpFragment.RegExp_new default_engine) as H1
    by reflexivity.
  assert (RegExpFragment.RegExp_new (WarningRule.pattern broken_rule) (lit "i")
          = Throw (lit "SyntaxError: Invalid regular expression")) as H2
    by reflexivity.
  split; [exact H1|]. split; [exact H2|].
  destruct (EngineLaws.uncompilable_added_rule_is_inactive
              RegExpFragment.RegExp_new ticking_clock broken_rule
              default_engine _ H1 H2)
    as (extended & Hadd & _ & Hcompiled & _).
  exists extended. split; [exact Hadd|exact Hcompiled].
Defined.

End Instances.

(** * The warning overlay *)

Module OverlayFacts.
Import IpcHandlers WarningOverlay OverlaySpec.

(** ** What [dismissWithAction] and [show] change *)


Lemma dismiss_fields (a : action) (st : t) :
  let st' := dismissWithAction a st in
  currentWarningId st' = None
  ∧ currentResolve st' = None
  ∧ promises st' = promises st
  ∧ ipcSent st'
    = ipcSent st ++ match truthy (currentWarningId st) with
                    | Some id => [message a id]
                    | None => []
                    end
  ∧ resolved st'
    = resolved st ++ match currentResolve st with
                     | Some p => [(p, match a with confirm => true | cancel => false end)]
                     | None => []
                     end
  ∧ rendered st' = false.
Proof.
  destruct st as [[[h m]|] [r|] [[|u id]|] [] n res ipc dis]; destruct a;
    cbn; rewrite ?app_nil_r; done.
Qed.

Lemma show_fields (warning : WarningDisplayPayload.t) (st : t) :
  let st' := on_warning warning st in
  currentWarningId st' = Some (WarningDisplayPayload.warningId warning)
  ∧ currentResolve st' = Some (promises st)
  ∧ promises st' = S (promises st)
  ∧ ipcSent st'
    = ipcSent st ++ match currentResolve st, truthy (currentWarningId st) with
                    | Some _, Some id => [WarningCancel id]
                    | _, _ => []
                    end
  ∧ resolved st'
    = resolved st ++ match currentResolve st with
                     | Some p => [(p, false)]
                     | None => []
                     end
  ∧ boundKeydownHandler st' = true.
Proof.
  destruct st as [[[h m]|] [r|] [[|u id]|] [] n res ipc dis];
    cbn; rewrite ?app_nil_r; done.
Qed.

Lemma show_mounted (warning : WarningDisplayPayload.t) (st : t) :
  is_Some (container st) → rendered (on_warning warning st) = true.
Proof.
  intros [c Hc].
  destruct st as [[[h m]|] [r|] [[|u id]|] [] n res ipc dis]; by cbn in *.
Qed.


Lemma coherent_dismiss (a : action) (st : t) : coherent (dismissWithAction a st).
Proof.
  destruct (dismiss_fields a st) as (Hid & Hr & _). unfold coherent.
  rewrite Hid, Hr. done.
Qed.

Lemma coherent_show (warning : WarningDisplayPayload.t) (st : t) :
  coherent (on_warning warning st).
Proof.
  destruct (show_fields warning st) as (Hid & Hr & _). unfold coherent.
  rewrite Hid, Hr. split; by eexists.
Qed.

Lemma coherent_dom_event (e : dom_event) (st : t) :
  coherent st → coherent (on_dom_event e st).
Proof.
  intros Hc. destruct e as [| | |key]; simpl;
    repeat (case_match || case_decide); auto using coherent_dismiss.
Qed.

(** ** One decision per warning shown *)


Lemma decided_message (a : action) (id : jsstring) :
  decided (message a id) = Some id.
Proof. by destruct a. Qed.

Lemma omap_snoc {A B} (f : A → option B) (l : list A) (x : A) :
  omap f (l ++ [x]) = omap f l ++ option_list (f x).
Proof. rewrite omap_app. simpl. by destruct (f x). Qed.

Lemma follows_dismiss (a : action) (ids : list jsstring) (st : t) :
  Forall (λ id, id ≠ []) ids →
  follows ids st → follows ids (dismissWithAction a st).
Proof.
  intros Hne (Hids & Hres & Hn & Hc).
  destruct (dismiss_fields a st) as (Hid' & Hr' & Hn' & Hipc' & Hres' & _).
  split; [|split; [|split]].
  - rewrite Hid', Hipc'. simpl. rewrite app_nil_r.
    destruct (currentWarningId st) as [id|] eqn:Hcur; simpl.
    + assert (id ≠ []) as Hid.
      { rewrite Forall_forall in Hne. apply Hne. rewrite <- Hids.
        set_solver. }
      destruct id as [|u id]; [done|]. simpl.
      rewrite omap_snoc, decided_message. done.
    + rewrite app_nil_r. by rewrite <- Hids, app_nil_r.
  - rewrite Hr', Hres'. simpl. rewrite app_nil_r.
    destruct (currentResolve st) as [p|]; simpl.
    + by rewrite fmap_app.
    + by rewrite <- Hres, !app_nil_r.
  - by rewrite Hn'.
  - apply coherent_dismiss.
Qed.

Lemma follows_show (warning : WarningDisplayPayload.t) (ids : list jsstring)
    (st : t) :
  Forall (λ id, id ≠ []) ids →
  follows ids st →
  follows (ids ++ [WarningDisplayPayload.warningId warning])
    (on_warning warning st).
Proof.
  intros Hne (Hids & Hres & Hn & Hc).
  destruct (show_fields warning st) as (Hid' & Hr' & Hn' & Hipc' & Hres' & _).
  split; [|split; [|split]].
  - rewrite Hid', Hipc'. simpl. rewrite <- Hids. f_equal.
    destruct (currentWarningId st) as [id|] eqn:Hcur; simpl.
    + assert (id ≠ []) as Hid.
      { rewrite Forall_forall in Hne. apply Hne. rewrite <- Hids.
        set_solver. }
      destruct (proj1 Hc) as [p ->]; [by eexists|].
      destruct id as [|u id]; [done|]. simpl.
      by rewrite omap_snoc.
    + destruct (currentResolve st); by rewrite !app_nil_r.
  - rewrite Hr', Hres', Hn. simpl.
    rewrite length_app, Nat.add_1_r, seq_S. simpl. f_equal.
    rewrite <- Hres.
    destruct (currentResolve st) as [p|]; simpl.
    + by rewrite fmap_app.
    + by rewrite !app_nil_r.
  - rewrite Hn', Hn, length_app. simpl. lia.
  - apply coherent_show.
Qed.

Lemma follows_run (inputs : list input) (ids : list jsstring) (st : t) :
  Forall (λ id, id ≠ []) ids →
  Forall (λ p, WarningDisplayPayload.warningId p ≠ []) (shown inputs) →
  follows ids st →
  follows (ids ++ map WarningDisplayPayload.warningId (shown inputs))
    (run inputs st).
Proof.
  revert ids st. induction inputs as [|i inputs IH]; intros ids st Hne Hsh Hf.
  { simpl. by rewrite app_nil_r. }
  destruct i as [warning|e]; simpl in *.
  - apply Forall_cons in Hsh as [Hw Hsh].
    rewrite cons_middle, app_assoc. apply IH; [|done|].
    + apply Forall_app. split; [done|]. by constructor.
    + by apply follows_show.
  - apply IH; [done|done|].
    destruct e as [| | |key]; simpl;
      repeat (case_match || case_decide); auto using follows_dismiss.
Qed.

(** X14. The overlay decides the warnings in the order they were shown, one
    decision each: when every warning shown has a non-empty identifier, the
    identifiers of the confirm and cancel messages sent so far, followed by
    the identifier of the warning on display if there is one, are the
    identifiers of the warnings shown, in order; and the same holds of the
    promises returned by [show], none of which is resolved twice. *)
Theorem one_decision_per_warning (containerEl : Container)
    (inputs : list input) :
  Forall (λ p, WarningDisplayPayload.warningId p ≠ []) (shown inputs) →
  let st := run inputs (init containerEl initial) in
  omap decided (ipcSent st) ++ option_list (currentWarningId st)
  = map WarningDisplayPayload.warningId (shown inputs)
  ∧ (resolved st).*1 ++ option_list (currentResolve st)
    = seq 0 (length (shown inputs)).
Proof.
  intros Hsh st.
  destruct (follows_run inputs [] (init containerEl initial)) as (H1 & H2 & _).
  - constructor.
  - done.
  - repeat split; try done; by intros [? ?].
  - split; [done|]. fold st in H2. rewrite H2. simpl. by rewrite length_map.
Qed.

(** ** Confirmations come from the Execute button *)

Lemma count_confirm_dismiss (a : action) (st : t) :
  (length (filter (λ e, is_confirm e = true) (ipcSent (dismissWithAction a st)))
   ≤ length (filter (λ e, is_confirm e = true) (ipcSent st))
     + match a with confirm => 1 | cancel => 0 end)%nat.
Proof.
  destruct (dismiss_fields a st) as (_ & _ & _ & -> & _).
  rewrite filter_app, length_app.
  destruct (truthy (currentWarningId st)); destruct a; simpl; lia.
Qed.


(** X15. The overlay never confirms on its own: the number of
    [warning:confirm] messages it has sent is at most the number of clicks
    on Execute Anyway.  Escape, a click on Cancel or on the backdrop, and a
    warning that takes the place of the one on display send cancel or
    nothing. *)
Theorem confirm_needs_execute_click (inputs : list input) (st : t) :
  (length (filter (λ e, is_confirm e = true) (ipcSent (run inputs st)))
   ≤ length (filter (λ e, is_confirm e = true) (ipcSent st))
     + length (filter (λ i, is_execute_click i = true) inputs))%nat.
Proof.
  revert st. induction inputs as [|i inputs IH]; intros st; simpl; [lia|].
  etransitivity; [apply IH|].
  assert (length (filter (λ e, is_confirm e = true) (ipcSent (on_input st i)))
          ≤ length (filter (λ e, is_confirm e = true) (ipcSent st))
            + (if is_execute_click i then 1 else 0))%nat as Hstep.
  { destruct i as [warning|[| | |key]];
      unfold on_input, on_dom_event, is_execute_click.
    - destruct (show_fields warning st) as (_ & _ & _ & -> & _).
      rewrite filter_app, length_app.
      destruct (currentResolve st), (truthy (currentWarningId st)); simpl; lia.
    - destruct (rendered st); [apply (count_confirm_dismiss confirm)|lia].
    - destruct (rendered st); [apply (count_confirm_dismiss cancel)|lia].
    - destruct (rendered st); [apply (count_confirm_dismiss cancel)|lia].
    - destruct (boundKeydownHandler st); [|lia].
      case_decide; [apply (count_confirm_dismiss cancel)|lia]. }
  rewrite filter_cons. destruct (is_execute_click i) eqn:Hi.
  - rewrite decide_True by done. simpl. lia.
  - rewrite decide_False by (by intros ?). lia.
Qed.

End OverlayFacts.

(** * The two processes together *)

Module AppFacts.
Import IpcHandlers PipelineSpec WarningOverlay OverlaySpec OverlayFacts App AppSpec.

Section WithEngine.

Variable Date_now : nat → Z.
Variable warningEngine : WarningEngine.t.

Abbreviation handle := (IpcHandlers.handle Date_now warningEngine).
Abbreviation process_char := (IpcHandlers.process_char Date_now warningEngine).
Abbreviation step := (App.step Date_now warningEngine).
Abbreviation run := (App.run Date_now warningEngine).

(** ** What a handler adds to the ledger it announces to the renderer *)


Lemma announces_refl (w w' : World) :
  hasWindow w' = hasWindow w →
  warningTriggered w' = warningTriggered w →
  pendingCommands w' = pendingCommands w →
  announces w w'.
Proof.
  intros Hw Hwt Hp. split; [done|]. exists []. rewrite app_nil_r.
  split; [done|]. intros id. rewrite Hp. by left.
Qed.

Lemma announces_trans (w1 w2 w3 : World) :
  announces w1 w2 → announces w2 w3 → announces w1 w3.
Proof.
  intros (Hw1 & new1 & Hwt1 & Hp1) (Hw2 & new2 & Hwt2 & Hp2).
  split; [congruence|]. exists (new1 ++ new2).
  split; [by rewrite Hwt2, Hwt1, app_assoc|].
  intros id Hid. rewrite map_app, elem_of_app.
  destruct (Hp2 id Hid) as [Hid2|?]; [|by right; right].
  destruct (Hp1 id Hid2); [by left|by right; left].
Qed.

Lemma announces_write (data : jsstring) (w : World) :
  announces w (shellManager_write data w).
Proof.
  apply announces_refl; unfold shellManager_write; by destruct (ptyAlive w).
Qed.

Lemma announces_process_char (w : World) (char : jsstring) :
  hasWindow w = true → announces w (process_char w char).
Proof.
  intros Hwin. unfold IpcHandlers.process_char.
  assert (∀ data w', hasWindow (shellManager_write data w') = hasWindow w'
                     ∧ warningTriggered (shellManager_write data w')
                       = warningTriggered w'
                     ∧ pendingCommands (shellManager_write data w')
                       = pendingCommands w') as Hwrite.
  { intros data w'. unfold shellManager_write. by destruct (ptyAlive w'). }
  assert (∀ data w', hasWindow w' = hasWindow w →
            warningTriggered w' = warningTriggered w →
            pendingCommands w' = pendingCommands w →
            announces w (shellManager_write data w')) as Hsame.
  { intros data w' H1 H2 H3. destruct (Hwrite data w') as (E1 & E2 & E3).
    apply announces_refl; congruence. }
  case_decide; [by apply Hsame|].
  destruct (inEscapeSequence w).
  { destruct (ends_escape_sequence char).
    - destruct (Hwrite char w) as (E1 & E2 & E3). by apply announces_refl.
    - by apply Hsame. }
  case_decide; [by apply Hsame|].
  destruct (_ && _ && _); [by apply Hsame|].
  case_decide.
  2:{ destruct (strlen (lineBuffer w) <? _); by apply Hsame. }
  unfold IpcHandlers.on_enter.
  destruct (strlen (trim (lineBuffer w)) =? 0).
  { destruct (Hwrite char w) as (E1 & E2 & E3). by apply announces_refl. }
  destruct (WarningEngine.evaluate _ _ _ _) as [[res|] reads] eqn:Hev.
  2:{ destruct (Hwrite char (set_clockReads reads w)) as (E1 & E2 & E3).
      by apply announces_refl. }
  unfold send_warningTriggered. simpl. rewrite Hwin.
  split; [done|]. exists [warningPayload_of res]. split; [done|].
  intros id Hid. simpl in Hid.
  destruct (decide (WarningResult.warningId res = id)) as [<-|Hne].
  - right. simpl. set_solver.
  - left. by rewrite lookup_insert_ne in Hid.
Qed.

Lemma announces_handle (w : World) (e : event) :
  hasWindow w = true →
  announces w (handle w e)
  ∧ ∀ id, decided e = Some id → pendingCommands (handle w e) !! id = None.
Proof.
  intros Hwin. destruct e as [data|command|id|id| |]; simpl.
  - split; [|done]. unfold IpcHandlers.shell_write.
    destruct (negb (isAlive w)); [by apply announces_refl|].
    generalize (code_points data) as chars. intros chars.
    assert (∀ w', announces w w' →
              announces w (fold_left process_char chars w')) as Hfold.
    { induction chars as [|char chars IH]; intros w' Hw'; [done|].
      simpl. apply IH. eapply announces_trans; [done|].
      apply announces_process_char. destruct Hw' as [-> _]. done. }
    apply Hfold. by apply announces_refl.
  - split; [|done]. by apply announces_refl.
  - unfold warning_confirm.
    destruct (pendingCommands w !! id) as [pending|] eqn:Hp.
    + split.
      * split; [unfold shellManager_write; by destruct (ptyAlive w)|].
        exists []. rewrite app_nil_r.
        split; [unfold shellManager_write; by destruct (ptyAlive w)|].
        intros other [x Hx]. left.
        assert (pendingCommands
                  (set_lineBuffer []
                     (set_pendingCommands
                        (delete id
                           (pendingCommands
                              (shellManager_write
                                 (PendingCommand.pendingData pending) w)))
                        (shellManager_write
                           (PendingCommand.pendingData pending) w)))
                = delete id (pendingCommands w)) as Heq.
        { unfold shellManager_write. by destruct (ptyAlive w). }
        rewrite Heq in Hx. apply lookup_delete_Some in Hx as [_ Hx].
        by eexists.
      * intros ? [= <-]. unfold shellManager_write.
        destruct (ptyAlive w); simpl; apply lookup_delete_eq.
    + split; [by apply announces_refl|]. by intros ? [= <-].
  - unfold warning_cancel.
    destruct (pendingCommands w !! id) as [pending|] eqn:Hp.
    + split.
      * split; [unfold shellManager_write; simpl; by destruct (ptyAlive w)|].
        exists []. rewrite app_nil_r.
        split; [unfold shellManager_write; simpl; by destruct (ptyAlive w)|].
        intros other [x Hx]. left.
        assert (pendingCommands
                  (shellManager_write CTRL_U
                     (set_lineBuffer []
                        (set_pendingCommands (delete id (pendingCommands w)) w)))
                = delete id (pendingCommands w)) as Heq.
        { unfold shellManager_write. simpl. by destruct (ptyAlive w). }
        rewrite Heq in Hx. apply lookup_delete_Some in Hx as [_ Hx].
        by eexists.
      * intros ? [= <-]. unfold shellManager_write. simpl.
        destruct (ptyAlive w); simpl; apply lookup_delete_eq.
    + split; [by apply announces_refl|]. by intros ? [= <-].
  - split; [|done]. by apply announces_refl.
  - split; [|done]. split; [done|]. exists []. rewrite app_nil_r.
    split; [done|]. intros id [x Hx]. simpl in Hx.
    by rewrite lookup_empty in Hx.
Qed.

(** ** No decision is forgotten *)


Lemma elem_of_drop_app {A} (x : A) (n : nat) (l k : list A) :
  x ∈ drop n l → x ∈ drop n (l ++ k).
Proof. rewrite drop_app. set_solver. Qed.

Lemma elem_of_drop_snoc {A} (x : A) (n : nat) (l : list A) :
  (n ≤ length l)%nat → x ∈ drop n (l ++ [x]).
Proof.
  intros Hn. rewrite drop_app.
  replace (n - length l)%nat with 0%nat by lia. set_solver.
Qed.

Lemma wellformed_nonempty (m : gmap jsstring PendingCommand.t) (id : jsstring) :
  ledger_entries_wellformed m → is_Some (m !! id) → id ≠ [].
Proof.
  intros Hm [pending Hp]. destruct (Hm id pending Hp) as (_ & _ & now & ->).
  done.
Qed.

Lemma accounted_sent (s : App.t) (r' : WarningOverlay.t) (new : list event) :
  ipcSent r' = ipcSent (renderer s) ++ new →
  (∀ id, is_Some (pendingCommands (main s) !! id) →
         currentWarningId (renderer s) = Some id →
         currentWarningId r' = Some id
         ∨ WarningConfirm id ∈ new ∨ WarningCancel id ∈ new) →
  (handled s ≤ length (ipcSent (renderer s)))%nat →
  accounted s →
  accounted (App.mk (main s) r' (delivered s) (handled s)).
Proof.
  intros Hipc Hcur Hn Hacc id Hid. simpl. rewrite Hipc.
  destruct (Hacc id Hid) as [?|[Hc|[?|?]]].
  - by left.
  - destruct (Hcur id Hid Hc) as [?|[Hin|Hin]].
    + by right; left.
    + right; right; left. rewrite drop_app.
      replace (handled s - length (ipcSent (renderer s)))%nat with 0%nat by lia.
      set_solver.
    + right; right; right. rewrite drop_app.
      replace (handled s - length (ipcSent (renderer s)))%nat with 0%nat by lia.
      set_solver.
  - right; right; left. by apply elem_of_drop_app.
  - right; right; right. by apply elem_of_drop_app.
Qed.

Ltac split_invariant :=
  split; [|split; [|split; [|split; [|split]]]];
  cbn [App.main App.renderer App.delivered App.handled].

Lemma invariant_dismiss (a : WarningOverlay.action) (s : App.t) :
  invariant s →
  invariant (App.mk (main s) (dismissWithAction a (renderer s))
               (delivered s) (handled s)).
Proof.
  intros (Hacc & Hwin & Hwf & Hco & Hd & Hh).
  destruct (dismiss_fields a (renderer s)) as (Hid' & Hr' & _ & Hipc' & _).
  split_invariant; try done.
  - eapply accounted_sent; [exact Hipc'| |done|done].
    intros id Hid Hcur. right. rewrite Hcur.
    pose proof (wellformed_nonempty _ _ Hwf Hid) as Hne.
    destruct id as [|u id]; [done|]. simpl.
    destruct a; set_solver.
  - apply coherent_dismiss.
  - rewrite Hipc', length_app. lia.
Qed.

Lemma invariant_step (s : App.t) (a : App.action) :
  invariant s → invariant (step s a).
Proof.
  intros Hinv. pose proof Hinv as (Hacc & Hwin & Hwf & Hco & Hd & Hh).
  destruct a as [data|e| | |]; unfold App.step.
  - (* the terminal sends the keys *)
    split_invariant; try done.
    + eapply accounted_sent; [done| |done|done]. intros id _ Hcur. by left.
    + simpl. rewrite length_app. lia.
  - (* a button, the backdrop or a key *)
    destruct e as [| | |key]; simpl;
      repeat (case_match || case_decide);
      try (by apply invariant_dismiss); by destruct s.
  - (* the main process handles a message *)
    destruct (ipcSent (renderer s) !! handled s) as [e|] eqn:He; [|done].
    destruct (announces_handle (main s) e Hwin)
      as [(Hwin' & new & Hwt' & Hnew) Hgone].
    split_invariant; try done.
    + intros id Hid. simpl in *. rewrite Hwt'.
      destruct (Hnew id Hid) as [Hold|Hin].
      * destruct (Hacc id Hold) as [?|[?|[Hin|Hin]]].
        -- left. rewrite drop_app, map_app. set_solver.
        -- by right; left.
        -- right; right; left.
           rewrite (drop_S _ _ _ He) in Hin.
           apply elem_of_cons in Hin as [<-|Hin]; [|done].
           rewrite (Hgone id eq_refl) in Hid. by destruct Hid.
        -- right; right; right.
           rewrite (drop_S _ _ _ He) in Hin.
           apply elem_of_cons in Hin as [<-|Hin]; [|done].
           rewrite (Hgone id eq_refl) in Hid. by destruct Hid.
      * left. rewrite drop_app, map_app.
        replace (delivered s - length (warningTriggered (main s)))%nat
          with 0%nat by lia.
        set_solver.
    + congruence.
    + by apply LedgerFacts.wellformed_handle.
    + rewrite Hwt', length_app. lia.
    + apply lookup_lt_Some in He. lia.
  - (* the renderer receives a warning *)
    destruct (warningTriggered (main s) !! delivered s) as [payload|] eqn:Hp;
      [|done].
    destruct (show_fields payload (renderer s))
      as (Hid' & Hr' & _ & Hipc' & _).
    split_invariant; try done.
    + intros id Hid. simpl in *.
      destruct (Hacc id Hid) as [Hin|[Hcur|[Hin|Hin]]].
      * rewrite (drop_S _ _ _ Hp) in Hin. simpl in Hin.
        apply elem_of_cons in Hin as [->|Hin]; [by right; left|by left].
      * right; right; right. rewrite Hipc'.
        destruct (proj1 Hco) as [p ->]; [by eexists|]. rewrite Hcur.
        pose proof (wellformed_nonempty _ _ Hwf Hid) as Hne.
        destruct id as [|u id]; [done|]. simpl.
        by apply elem_of_drop_snoc.
      * right; right; left. rewrite Hipc'. by apply elem_of_drop_app.
      * right; right; right. rewrite Hipc'. by apply elem_of_drop_app.
    + apply lookup_lt_Some in Hp. lia.
    + rewrite Hipc', length_app. lia.
  - (* the shell exits *)
    split_invariant; try done.
    intros id [x Hx]. simpl in Hx. by rewrite lookup_empty in Hx.
Qed.

Lemma invariant_run (actions : list App.action) (s : App.t) :
  invariant s → invariant (run actions s).
Proof.
  revert s. induction actions as [|a actions IH]; intros s Hs; [done|].
  simpl. apply IH. by apply invariant_step.
Qed.

(** X16. No withheld Enter is forgotten while the window and the overlay
    are there: however typing, clicks, key presses, the exit of the shell
    and the handling of messages by the two processes interleave, every
    entry of the ledger belongs to a warning that is still on its way to
    the renderer, or is the one on display, or has its confirm or cancel on
    its way to the main process. *)
Theorem every_pending_decision_is_accounted
    (containerEl : WarningOverlay.Container) (actions : list App.action) :
  accounted (run actions (start containerEl)).
Proof.
  apply (invariant_run actions (start containerEl)).
  split_invariant; try done.
  - intros id [x Hx]. simpl in Hx. by rewrite lookup_empty in Hx.
  - split; by intros [? ?].
Qed.

(** ** A newer warning takes the place of the one on display *)

(** X17. The implicit cancel is the renderer's: when a warning arrives
    while another one, whose entry is still in the ledger, is on display,
    [show] cancels the displayed one; once the main process has handled
    that message the earlier entry is gone, the line buffer is empty,
    Ctrl+U has been written to the live shell, and a confirm of the earlier
    identifier does nothing any more. *)
Theorem newer_warning_cancels_displayed_one (s : App.t) (id : jsstring)
    (promise : nat) (pending : PendingCommand.t)
    (newer : WarningDisplayPayload.t) :
  ptyAlive (main s) = true →
  currentWarningId (renderer s) = Some id →
  currentResolve (renderer s) = Some promise →
  pendingCommands (main s) !! id = Some pending →
  id ≠ [] →
  warningTriggered (main s) !! delivered s = Some newer →
  handled s = length (ipcSent (renderer s)) →
  let s' := run [RendererTurn; MainTurn] s in
  currentWarningId (renderer s')
  = Some (WarningDisplayPayload.warningId newer)
  ∧ resolved (renderer s') = resolved (renderer s) ++ [(promise, false)]
  ∧ pendingCommands (main s') = delete id (pendingCommands (main s))
  ∧ lineBuffer (main s') = []
  ∧ ptyInput (main s') = ptyInput (main s) ++ [CTRL_U]
  ∧ warning_confirm id (main s') = main s'.
Proof.
  intros Halive Hcur Hres Hp Hne Hnew Hh s'.
  destruct (show_fields newer (renderer s))
    as (Hid' & Hr' & _ & Hipc' & Hres' & _).
  rewrite Hcur, Hres in Hipc'. rewrite Hres in Hres'.
  destruct id as [|u id]; [done|]. simpl in Hipc'.
  assert (s' = App.mk (warning_cancel (u :: id) (main s))
                 (on_warning newer (renderer s))
                 (S (delivered s)) (S (handled s))) as ->.
  { unfold s', App.run. simpl. rewrite Hnew. simpl.
    rewrite Hipc', Hh, lookup_app_r by lia.
    by rewrite Nat.sub_diag. }
  simpl. unfold warning_cancel. rewrite Hp.
  unfold shellManager_write. simpl. rewrite Halive. simpl.
  repeat split; try done.
  unfold warning_confirm. simpl. by rewrite lookup_delete_eq.
Qed.

(** X18. Execute Anyway on the warning that took the place of another one
    sends an Enter to a line that was just killed: with the main process up
    to date, a displayed warning [id] and a newer warning [newer], both in
    the ledger, the arrival of the newer one, the handling of the cancel it
    causes, a click on Execute Anyway and the handling of that confirm
    leave the shell with Ctrl+U followed by the withheld data of the newer
    entry, and both entries gone. *)
Theorem confirm_after_displacement_follows_kill_line (s : App.t)
    (id : jsstring) (promise : nat) (pending later : PendingCommand.t)
    (containerEl : WarningOverlay.Container)
    (newer : WarningDisplayPayload.t) :
  ptyAlive (main s) = true →
  container (renderer s) = Some containerEl →
  currentWarningId (renderer s) = Some id →
  currentResolve (renderer s) = Some promise →
  pendingCommands (main s) !! id = Some pending →
  pendingCommands (main s) !! WarningDisplayPayload.warningId newer
  = Some later →
  id ≠ [] →
  WarningDisplayPayload.warningId newer ≠ [] →
  WarningDisplayPayload.warningId newer ≠ id →
  warningTriggered (main s) !! delivered s = Some newer →
  handled s = length (ipcSent (renderer s)) →
  let s' := run [RendererTurn; MainTurn; Ui ClickExecute; MainTurn] s in
  ptyInput (main s')
  = ptyInput (main s) ++ [CTRL_U; PendingCommand.pendingData later]
  ∧ pendingCommands (main s')
    = delete (WarningDisplayPayload.warningId newer)
        (delete id (pendingCommands (main s)))
  ∧ lineBuffer (main s') = []
  ∧ currentWarningId (renderer s') = None
  ∧ omap decided (drop (handled s) (ipcSent (renderer s')))
    = [id; WarningDisplayPayload.warningId newer].
Proof.
  intros Halive Hcont Hcur Hres Hp Hlater Hne Hne' Hdiff Hnew Hh s'.
  destruct (show_fields newer (renderer s))
    as (Hid1 & Hr1 & _ & Hipc1 & _ & _).
  rewrite Hcur, Hres in Hipc1.
  destruct id as [|u id]; [done|]. cbn [truthy] in Hipc1.
  pose proof (show_mounted newer (renderer s)) as Hrend.
  rewrite Hcont in Hrend. specialize (Hrend (ltac:(by eexists))).
  remember (on_warning newer (renderer s)) as r1 eqn:Hr1def.
  destruct (dismiss_fields confirm r1) as (Hid2 & _ & _ & Hipc2 & _ & _).
  rewrite Hid1 in Hipc2.
  destruct (WarningDisplayPayload.warningId newer) as [|v nid] eqn:Hnid;
    [done|].
  cbn [truthy message] in Hipc2. rewrite Hipc1 in Hipc2.
  remember (dismissWithAction confirm r1) as r2 eqn:Hr2def.
  remember (warning_cancel (u :: id) (main s)) as w1 eqn:Hw1def.
  assert (s' = App.mk (warning_confirm (v :: nid) w1) r2
                 (S (delivered s)) (S (S (handled s)))) as ->.
  { unfold s', App.run. cbn [fold_left]. unfold App.step at 4.
    rewrite Hnew. cbn [App.main App.renderer App.delivered App.handled].
    rewrite <- Hr1def. unfold App.step at 3.
    cbn [App.main App.renderer App.delivered App.handled].
    rewrite Hipc1, Hh, lookup_app_r by lia. rewrite Nat.sub_diag.
    cbn [lookup list_lookup]. cbn [handle].
    unfold App.step at 2.
    cbn [App.main App.renderer App.delivered App.handled on_dom_event].
    rewrite Hrend, <- Hr2def. unfold App.step.
    cbn [App.main App.renderer App.delivered App.handled].
    rewrite Hipc2, <- app_assoc, lookup_app_r by lia.
    replace (S (length (ipcSent (renderer s))) - length (ipcSent (renderer s)))%nat
      with 1%nat by lia.
    cbn [app lookup list_lookup handle]. by rewrite <- Hw1def. }
  cbn [App.main App.renderer App.delivered App.handled].
  assert (w1 = shellManager_write CTRL_U
                 (set_lineBuffer []
                    (set_pendingCommands
                       (delete (u :: id) (pendingCommands (main s))) (main s))))
    as Hw1.
  { rewrite Hw1def. unfold warning_cancel. by rewrite Hp. }
  assert (pendingCommands w1 = delete (u :: id) (pendingCommands (main s))
          ∧ ptyInput w1 = ptyInput (main s) ++ [CTRL_U]
          ∧ ptyAlive w1 = true) as (Hpend1 & Hin1 & Halive1).
  { rewrite Hw1. unfold shellManager_write. simpl. by rewrite Halive. }
  unfold warning_confirm. rewrite Hpend1.
  rewrite lookup_delete_ne by (by intros E; apply Hdiff).
  rewrite Hlater. unfold shellManager_write. rewrite Halive1. simpl.
  rewrite Hin1, Hpend1, <- app_assoc. repeat split; try done.
  rewrite Hipc2, Hh, <- app_assoc, drop_app_length. done.
Qed.

End WithEngine.
End AppFacts.

Module OverlayInstances.
Import IpcHandlers Scenarios PipelineSpec WarningOverlay App OverlayScenarios.

Lemma one_decision_per_warning_witness :
  Forall (λ p, WarningDisplayPayload.warningId p ≠ [])
    (shown [WarningShow first_warning; WarningShow second_warning;
            Dom ClickExecute])
  ∧ omap decided
      (ipcSent (WarningOverlay.run
                  [WarningShow first_warning; WarningShow second_warning;
                   Dom ClickExecute]
                  (init overlay_element initial)))
    ++ option_list
         (currentWarningId
            (WarningOverlay.run
               [WarningShow first_warning; WarningShow second_warning;
                Dom ClickExecute]
               (init overlay_element initial)))
    = map WarningDisplayPayload.warningId
        (shown [WarningShow first_warning; WarningShow second_warning;
                Dom ClickExecute]).
Proof.
  assert (Forall (λ p, WarningDisplayPayload.warningId p ≠ [])
            (shown [WarningShow first_warning; WarningShow second_warning;
                    Dom ClickExecute])) as H1.
  { repeat (constructor; [discriminate|]). constructor. }
  split; [exact H1|].
  exact (proj1 (OverlayFacts.one_decision_per_warning overlay_element
                  [WarningShow first_warning; WarningShow second_warning;
                   Dom ClickExecute] H1)).
Defined.

Lemma newer_warning_cancels_displayed_one_witness :
  ptyAlive (main displaced) = true
  ∧ currentWarningId (renderer displaced) = Some first_id
  ∧ currentResolve (renderer displaced) = Some 0%nat
  ∧ pendingCommands (main displaced) !! first_id
    = Some (PendingCommand.mk first_id CR)
  ∧ first_id ≠ []
  ∧ warningTriggered (main displaced) !! delivered displaced
    = Some displacing_warning
  ∧ handled displaced = length (ipcSent (renderer displaced))
  ∧ ptyInput (main (App.run ticking_clock default_engine
                      [RendererTurn; MainTurn] displaced))
    = ptyInput (main displaced) ++ [CTRL_U].
Proof.
  assert (ptyAlive (main displaced) = true) as H1 by (vm_compute; reflexivity).
  assert (currentWarningId (renderer displaced) = Some first_id) as H2
    by (vm_compute; reflexivity).
  assert (currentResolve (renderer displaced) = Some 0%nat) as H3
    by (vm_compute; reflexivity).
  assert (pendingCommands (main displaced) !! first_id
          = Some (PendingCommand.mk first_id CR)) as H4
    by (vm_compute; reflexivity).
  assert (first_id ≠ []) as H5 by discriminate.
  assert (warningTriggered (main displaced) !! delivered displaced
          = Some displacing_warning) as H6 by (vm_compute; reflexivity).
  assert (handled displaced = length (ipcSent (renderer displaced))) as H7
    by (vm_compute; reflexivity).
  split; [exact H1|]. split; [exact H2|]. split; [exact H3|].
  split; [exact H4|]. split; [exact H5|]. split; [exact H6|].
  split; [exact H7|].
  exact (proj1 (proj2 (proj2 (proj2 (proj2
    (AppFacts.newer_warning_cancels_displayed_one ticking_clock default_engine
       displaced first_id 0%nat (PendingCommand.mk first_id CR)
       displacing_warning H1 H2 H3 H4 H5 H6 H7)))))).
Defined.

Lemma confirm_after_displacement_follows_kill_line_witness :
  ptyAlive (main displaced) = true
  ∧ container (renderer displaced)
    = Some (mkContainer false (Some first_warning_displayed))
  ∧ currentWarningId (renderer displaced) = Some first_id
  ∧ currentResolve (renderer displaced) = Some 0%nat
  ∧ pendingCommands (main displaced) !! first_id
    = Some (PendingCommand.mk first_id CR)
  ∧ pendingCommands (main displaced)
    !! WarningDisplayPayload.warningId displacing_warning
    = Some (PendingCommand.mk second_id CR)
  ∧ first_id ≠ []
  ∧ WarningDisplayPayload.warningId displacing_warning ≠ []
  ∧ WarningDisplayPayload.warningId displacing_warning ≠ first_id
  ∧ warningTriggered (main displaced) !! delivered displaced
    = Some displacing_warning
  ∧ handled displaced = length (ipcSent (renderer displaced))
  ∧ ptyInput (main (App.run ticking_clock default_engine
                      [RendererTurn; MainTurn; Ui ClickExecute; MainTurn]
                      displaced))
    = ptyInput (main displaced)
      ++ [CTRL_U; PendingCommand.pendingData (PendingCommand.mk second_id CR)].
Proof.
  assert (ptyAlive (main displaced) = true) as H1 by (vm_compute; reflexivity).
  assert (container (renderer displaced)
          = Some (mkContainer false (Some first_warning_displayed))) as H2
    by (vm_compute; reflexivity).
  assert (currentWarningId (renderer displaced) = Some first_id) as H3
    by (vm_compute; reflexivity).
  assert (currentResolve (renderer displaced) = Some 0%nat) as H4
    by (vm_compute; reflexivity).
  assert (pendingCommands (main displaced) !! first_id
          = Some (PendingCommand.mk first_id CR)) as H5
    by (vm_compute; reflexivity).
  assert (pendingCommands (main displaced)
          !! WarningDisplayPayload.warningId displacing_warning
          = Some (PendingCommand.mk second_id CR)) as H6
    by (vm_compute; reflexivity).
  assert (first_id ≠ []) as H7 by discriminate.
  assert (WarningDisplayPayload.warningId displacing_warning ≠ []) as H8
    by discriminate.
  assert (WarningDisplayPayload.warningId displacing_warning ≠ first_id) as H9
    by discriminate.
  assert (warningTriggered (main displaced) !! delivered displaced
          = Some displacing_warning) as H10 by (vm_compute; reflexivity).
  assert (handled displaced = length (ipcSent (renderer displaced))) as H11
    by (vm_compute; reflexivity).
  split; [exact H1|]. split; [exact H2|]. split; [exact H3|].
  split; [exact H4|]. split; [exact H5|]. split; [exact H6|].
  split; [exact H7|]. split; [exact H8|]. split; [exact H9|].
  split; [exact H10|]. split; [exact H11|].
  exact (proj1
    (AppFacts.confirm_after_displacement_follows_kill_line
       ticking_clock default_engine displaced first_id 0%nat
       (PendingCommand.mk first_id CR) (PendingCommand.mk second_id CR)
       (mkContainer false (Some first_warning_displayed))
       displacing_warning H1 H2 H3 H4 H5 H6 H7 H8 H9 H10 H11)).
Defined.

End OverlayInstances.

(** * The shell manager across respawns *)

Module ShellManagerFacts.
Import ShellManager.

Section Callbacks.

Context {DataCallback ExitCallback : Type}.

Abbreviation manager := (ShellManager.t DataCallback ExitCallback).
Abbreviation call := (ShellManager.call DataCallback ExitCallback).

Lemma Forall_lt_S {A} (f : A → nat) (n : nat) (l : list A) :
  Forall (λ x, (f x < n)%nat) l → Forall (λ x, (f x < S n)%nat) l.
Proof.
  intros H. eapply Forall_impl; [exact H|]. intros x Hx. simpl in *. lia.
Qed.

Lemma spawn_fields (cwd : jsstring) (cols rows : Z) (starts : bool)
    (this : manager) :
  let this' := spawn cwd cols rows starts this in
  ptyProcess this' = (if starts then Some (spawnedCount this) else None)
  ∧ spawnedCount this'
    = (if starts then S (spawnedCount this) else spawnedCount this)
  ∧ killed this' = killed this ++ option_list (ptyProcess this)
  ∧ written this' = written this
  ∧ exitCalls this' = exitCalls this
  ∧ exitCallbacks this' = []
  ∧ dataCallbacks this' = [].
Proof.
  unfold spawn, kill.
  destruct (ptyProcess this) as [p|] eqn:Hcur; destruct starts; simpl;
    rewrite ?Hcur, ?app_nil_r; done.
Qed.

Lemma kill_fields (this : manager) :
  ptyProcess (kill this) = None
  ∧ spawnedCount (kill this) = spawnedCount this
  ∧ killed (kill this) = killed this ++ option_list (ptyProcess this)
  ∧ written (kill this) = written this.
Proof.
  unfold kill. destruct (ptyProcess this) as [p|] eqn:Hcur; simpl;
    rewrite ?Hcur, ?app_nil_r; done.
Qed.

Lemma write_fields (data : jsstring) (this : manager) :
  ptyProcess (write data this) = ptyProcess this
  ∧ spawnedCount (write data this) = spawnedCount this
  ∧ killed (write data this) = killed this
  ∧ written (write data this)
    = written this ++ match ptyProcess this with
                      | Some p => [(p, data)]
                      | None => []
                      end.
Proof.
  unfold write. destruct (ptyProcess this) as [p|] eqn:Hcur; simpl;
    rewrite ?Hcur, ?app_nil_r; done.
Qed.

Lemma resize_fields (cols rows : Z) (this : manager) :
  ptyProcess (resize cols rows this) = ptyProcess this
  ∧ spawnedCount (resize cols rows this) = spawnedCount this
  ∧ killed (resize cols rows this) = killed this
  ∧ written (resize cols rows this) = written this.
Proof.
  unfold resize. destruct (ptyProcess this) as [p|] eqn:Hcur; simpl;
    rewrite ?Hcur; done.
Qed.

Lemma bounded_perform (this : manager) (c : call) :
  bounded this → bounded (perform this c).
Proof.
  intros (Hp & Hk & Hw).
  assert (Forall (λ p, (p < spawnedCount this)%nat)
            (killed this ++ option_list (ptyProcess this))) as Hk'.
  { rewrite Forall_app. split; [done|].
    destruct (ptyProcess this) as [p|]; simpl; [|done].
    constructor; [|done]. by apply Hp. }
  destruct c as [cwd cols rows starts| |data|cols rows|cb|cb|p data|p code];
    simpl.
  - destruct (spawn_fields cwd cols rows starts this)
      as (E1 & E2 & E3 & E4 & _).
    unfold bounded. rewrite E1, E2, E3, E4. destruct starts.
    + split; [intros q [= <-]; lia|].
      split; [by apply (Forall_lt_S id)|by apply (Forall_lt_S fst)].
    + done.
  - destruct (kill_fields this) as (E1 & E2 & E3 & E4).
    unfold bounded. rewrite E1, E2, E3, E4. done.
  - destruct (write_fields data this) as (E1 & E2 & E3 & E4).
    unfold bounded. rewrite E1, E2, E3, E4.
    split; [done|]. split; [done|]. rewrite Forall_app. split; [done|].
    destruct (ptyProcess this) as [p|]; [|done].
    constructor; [|done]. by apply Hp.
  - destruct (resize_fields cols rows this) as (E1 & E2 & E3 & E4).
    unfold bounded. rewrite E1, E2, E3, E4. done.
  - done.
  - done.
  - by case_decide.
  - case_decide; [|done]. split; [done|]. done.
Qed.

Lemma bounded_run (calls : list call) (this : manager) :
  bounded this → bounded (run calls this).
Proof.
  revert this. induction calls as [|c calls IH]; intros this Hb; [done|].
  simpl. apply IH. by apply bounded_perform.
Qed.

(** A process the manager has dropped is never held again, and no call
    reaches it. *)
Lemma dropped_perform (p : nat) (this : manager) (c : call) :
  dropped p this →
  dropped p (perform this c)
  ∧ (p ∈ killed (perform this c) → p ∈ killed this)
  ∧ (∀ data, (p, data) ∈ written (perform this c) → (p, data) ∈ written this).
Proof.
  intros [Hne Hlt].
  assert (p ∈ killed this ++ option_list (ptyProcess this) → p ∈ killed this)
    as Hk.
  { rewrite elem_of_app. intros [?|Hin]; [done|].
    destruct (ptyProcess this) as [q|]; simpl in Hin; [|by inversion Hin].
    apply list_elem_of_singleton in Hin. congruence. }
  destruct c as [cwd cols rows starts| |data|cols rows|cb|cb|q data|q code];
    simpl.
  - destruct (spawn_fields cwd cols rows starts this)
      as (E1 & E2 & E3 & E4 & _).
    unfold dropped. rewrite E1, E2, E3, E4. destruct starts.
    + split; [split; [intros [= <-]; lia|lia]|]. done.
    + done.
  - destruct (kill_fields this) as (E1 & E2 & E3 & E4).
    unfold dropped. rewrite E1, E2, E3, E4. done.
  - destruct (write_fields data this) as (E1 & E2 & E3 & E4).
    unfold dropped. rewrite E1, E2, E3, E4.
    split; [done|]. split; [done|]. intros d. rewrite elem_of_app.
    intros [?|Hin]; [done|].
    destruct (ptyProcess this) as [r|]; simpl in Hin; [|by inversion Hin].
    apply list_elem_of_singleton in Hin. congruence.
  - destruct (resize_fields cols rows this) as (E1 & E2 & E3 & E4).
    unfold dropped. rewrite E1, E2, E3, E4. done.
  - done.
  - done.
  - by case_decide.
  - case_decide; done.
Qed.

Lemma dropped_run (p : nat) (calls : list call) (this : manager) :
  dropped p this →
  (p ∈ killed (run calls this) → p ∈ killed this)
  ∧ (∀ data, (p, data) ∈ written (run calls this) → (p, data) ∈ written this).
Proof.
  revert this. induction calls as [|c calls IH]; intros this Hd; [done|].
  simpl. destruct (dropped_perform p this c Hd) as (Hd' & Hk & Hw).
  destruct (IH _ Hd') as [Hk' Hw']. split; [tauto|].
  intros data Hin. by apply Hw, Hw'.
Qed.

(** Registrations, writes, resizes and output leave the process and the
    exit calls alone, and add the exit callbacks they register. *)
Lemma quiet_run (calls : list call) (this : manager) :
  Forall (λ c, is_quiet c = true) calls →
  ptyProcess (run calls this) = ptyProcess this
  ∧ spawnedCount (run calls this) = spawnedCount this
  ∧ killed (run calls this) = killed this
  ∧ exitCalls (run calls this) = exitCalls this
  ∧ exitCallbacks (run calls this)
    = exitCallbacks this ++ registered_exit calls.
Proof.
  revert this. induction calls as [|c calls IH]; intros this Hq.
  { simpl. by rewrite app_nil_r. }
  apply Forall_cons in Hq as [Hc Hq]. simpl.
  destruct (IH (perform this c) Hq) as (-> & -> & -> & -> & ->).
  destruct c as [cwd cols rows starts| |data|cols rows|cb|cb|q data|q code];
    try done; simpl.
  - unfold write. destruct (ptyProcess this) eqn:Hcur; simpl;
      by rewrite ?Hcur.
  - unfold resize. destruct (ptyProcess this) eqn:Hcur; simpl;
      by rewrite ?Hcur.
  - by rewrite <- app_assoc.
  - by case_decide.
Qed.

(** X19. Spawning over a live shell loses the new shell to the exit of the
    old one.  The exit handler that [spawn] registers on a process does not
    check which process exited: when a shell is spawned while another one is
    held, the old one is killed, and when its exit then arrives -- after any
    registrations, writes, resizes and output -- the callbacks registered
    for the new shell are the ones told of an exit and the manager reports
    that no shell is alive.  From then on no call of the manager reaches the
    new process: it is never killed and nothing more is written to it. *)
Theorem exit_of_replaced_shell_orphans_new_one
    (before between later : list call) (home cwd : jsstring) (cols rows : Z)
    (old : nat) (exitCode : Z) :
  let this := run before (constructor DataCallback ExitCallback home) in
  ptyProcess this = Some old →
  Forall (λ c, is_quiet c = true) between →
  let fresh := spawnedCount this in
  let respawned := run (Spawn cwd cols rows true :: between) this in
  let after := perform respawned (PtyExit old exitCode) in
  ptyProcess respawned = Some fresh
  ∧ old ∈ killed respawned
  ∧ (fresh ∉ killed respawned)
  ∧ isAlive after = false
  ∧ exitCalls after
    = exitCalls this
      ++ map (λ callback, (callback, exitCode)) (registered_exit between)
  ∧ (fresh ∉ killed (run later after))
  ∧ ∀ data, (fresh, data) ∈ written (run later after) →
            (fresh, data) ∈ written respawned.
Proof.
  intros this Hold Hq fresh respawned after.
  assert (bounded this) as (Hp & Hk & Hw).
  { apply bounded_run. repeat split; try done. }
  pose proof (Hp old Hold) as Hlt.
  set (started := spawn cwd cols rows true this).
  assert (ptyProcess started = Some fresh
          ∧ spawnedCount started = S fresh
          ∧ killed started = killed this ++ [old]
          ∧ exitCalls started = exitCalls this
          ∧ exitCallbacks started = []) as (Hs1 & Hs2 & Hs3 & Hs4 & Hs5).
  { destruct (spawn_fields cwd cols rows true this)
      as (E1 & E2 & E3 & _ & E5 & E6 & _).
    fold started in E1, E2, E3, E5, E6. rewrite Hold in E3. done. }
  destruct (quiet_run between started Hq) as (Hq1 & Hq2 & Hq3 & Hq4 & Hq5).
  assert (respawned = run between started) as Hresp by reflexivity.
  clearbody respawned. rewrite <- Hresp in Hq1, Hq2, Hq3, Hq4, Hq5.
  rewrite Hs1 in Hq1. rewrite Hs2 in Hq2. rewrite Hs3 in Hq3.
  rewrite Hs4 in Hq4. rewrite Hs5 in Hq5. simpl in Hq5.
  assert (fresh ∉ killed respawned) as Hfresh.
  { rewrite Hq3, elem_of_app, list_elem_of_singleton.
    intros [Hin|Heq]; [|unfold fresh in Heq; lia].
    rewrite Forall_forall in Hk. specialize (Hk _ Hin). unfold fresh in Hk.
    lia. }
  assert (after = pty_exit exitCode respawned) as Hafter.
  { unfold after. simpl. rewrite decide_True; [done|]. rewrite Hq2.
    unfold fresh. lia. }
  split; [done|]. split; [rewrite Hq3; set_solver|]. split; [done|].
  split; [by rewrite Hafter|].
  split; [rewrite Hafter; simpl; by rewrite Hq4, Hq5|].
  assert (dropped fresh after) as Hd.
  { rewrite Hafter. split; [done|]. simpl. rewrite Hq2. lia. }
  destruct (dropped_run fresh later after Hd) as [Hk' Hw'].
  split.
  - intros Hin. apply Hk' in Hin. by rewrite Hafter in Hin.
  - intros data Hin. apply Hw' in Hin. by rewrite Hafter in Hin.
Qed.

End Callbacks.
End ShellManagerFacts.

Module ShellManagerInstances.
Import ShellManager.

Lemma exit_of_replaced_shell_orphans_new_one_witness :
  ptyProcess (run [Spawn (lit ".") 80 24 true; OnData 0%nat; OnExit 0%nat]
                (constructor nat nat (lit "/home/user")))
  = Some 0%nat
  ∧ Forall (λ c, is_quiet c = true) [OnData 1%nat; OnExit 1%nat]
  ∧ isAlive
      (perform
         (run (Spawn (lit ".") 80 24 true :: [OnData 1%nat; OnExit 1%nat])
            (run [Spawn (lit ".") 80 24 true; OnData 0%nat; OnExit 0%nat]
               (constructor nat nat (lit "/home/user"))))
         (PtyExit 0 0))
    = false.
Proof.
  assert (ptyProcess
            (run [Spawn (lit ".") 80 24 true; OnData 0%nat; OnExit 0%nat]
               (constructor nat nat (lit "/home/user")))
          = Some 0%nat) as H1 by reflexivity.
  assert (Forall (λ c : call nat nat, is_quiet c = true)
            [OnData 1%nat; OnExit 1%nat]) as H2
    by (repeat constructor).
  split; [exact H1|]. split; [exact H2|].
  exact (proj1 (proj2 (proj2 (proj2
    (ShellManagerFacts.exit_of_replaced_shell_orphans_new_one
       [Spawn (lit ".") 80 24 true; OnData 0%nat; OnExit 0%nat]
       [OnData 1%nat; OnExit 1%nat]
       [Write (lit "x"); Kill]
       (lit "/home/user") (lit ".") 80 24 0%nat 0 H1 H2))))).
Defined.

End ShellManagerInstances.

(** * The project detector *)

Module ProjectDetectorFacts.
Import JsSet ProjectDetector.

Section Fs.

Variable path_join : jsstring → jsstring → jsstring.
Variable fs_access : jsstring → bool.

Abbreviation check := (ProjectDetector.check path_join fs_access).
Abbreviation detect := (ProjectDetector.detect path_join fs_access).
Abbreviation marked := (ProjectDetector.marked path_join fs_access).

Lemma Set_add_spec {A : Type} `{EqDecision A} (x y : A) (set : list A) :
  y ∈ Set_add x set ↔ y = x ∨ y ∈ set.
Proof. unfold Set_add. case_decide; set_solver. Qed.

Lemma Set_add_NoDup {A : Type} `{EqDecision A} (x : A) (set : list A) :
  NoDup set → NoDup (Set_add x set).
Proof.
  intros Hnd. unfold Set_add. case_decide; [done|].
  apply NoDup_app. repeat split; [done| |apply NoDup_singleton].
  intros y Hy Hin. apply list_elem_of_singleton in Hin. by subst.
Qed.

Lemma fold_check (directory : jsstring)
    (settled : list (jsstring * ProjectType)) (set : list ProjectType) :
  NoDup set →
  NoDup (fold_left (check directory) settled set)
  ∧ ∀ t, t ∈ fold_left (check directory) settled set
         ↔ t ∈ set
           ∨ ∃ markerFile, (markerFile, t) ∈ settled
                           ∧ fs_access (path_join directory markerFile) = true.
Proof.
  revert set. induction settled as [|[m ty] settled IH]; intros set Hnd.
  { simpl. split; [done|]. intros t. split; [by left|].
    intros [?|(? & Hin & _)]; [done|]. by apply elem_of_nil in Hin. }
  simpl. destruct (fs_access (path_join directory m)) eqn:Hacc.
  - destruct (IH (Set_add ty set) (Set_add_NoDup ty set Hnd)) as [Hnd' Hin'].
    split; [done|]. intros t. rewrite Hin', Set_add_spec. split.
    + intros [[->|?]|(m' & Hm' & Ha)].
      * right. exists m. split; [left|done].
      * by left.
      * right. exists m'. split; [by right|done].
    + intros [?|(m' & Hm' & Ha)]; [by left; right|].
      apply elem_of_cons in Hm' as [[= -> ->]|Hm']; [by left; left|].
      right. by exists m'.
  - destruct (IH set Hnd) as [Hnd' Hin']. split; [done|].
    intros t. rewrite Hin'. split.
    + intros [?|(m' & Hm' & Ha)]; [by left|].
      right. exists m'. split; [by right|done].
    + intros [?|(m' & Hm' & Ha)]; [by left|].
      apply elem_of_cons in Hm' as [[= -> ->]|Hm']; [congruence|].
      right. by exists m'.
Qed.

Lemma detect_spec (directory : jsstring)
    (settled : list (jsstring * ProjectType)) :
  settled ≡ₚ MARKER_MAP →
  NoDup (detect directory settled)
  ∧ ∀ t, t ∈ detect directory settled ↔ marked directory t.
Proof.
  intros Ho.
  destruct (fold_check directory settled [] NoDup_nil_2) as [Hnd Hin].
  split; [done|]. intros t. unfold ProjectDetector.detect. rewrite Hin.
  unfold ProjectDetector.marked. split.
  - intros [Hn|(m & Hm & Ha)]; [by apply elem_of_nil in Hn|].
    exists m. by rewrite <- Ho.
  - intros (m & Hm & Ha). right. exists m. by rewrite Ho.
Qed.

(** X20. [detect] returns the set of project types that have a marker file
    in the directory, whatever the order in which the file system answers:
    no type is listed twice (two Python markers give one [python]), a type is
    listed exactly when one of its marker files is accessible, and two
    orders of settling give the same types up to their order in the
    array. *)
Theorem detect_lists_marked_types_once (directory : jsstring)
    (settled settled' : list (jsstring * ProjectType)) :
  settled ≡ₚ MARKER_MAP →
  settled' ≡ₚ MARKER_MAP →
  NoDup (detect directory settled)
  ∧ (∀ t, t ∈ detect directory settled ↔ marked directory t)
  ∧ detect directory settled ≡ₚ detect directory settled'.
Proof.
  intros Hp Hp'.
  destruct (detect_spec directory settled Hp) as [Hnd Hin].
  destruct (detect_spec directory settled' Hp') as [Hnd' Hin'].
  split; [done|]. split; [done|].
  apply NoDup_Permutation; [done|done|].
  intros t. by rewrite Hin, Hin'.
Qed.

End Fs.
End ProjectDetectorFacts.

(** * The configuration manager *)

Module ConfigManagerFacts.
Import Json ConfigManager.

Section Runtime.

Variable JSON_stringify : json → jsstring.
Variable JSON_parse : jsstring → completion json.
Variable fs_outcome : nat → outcome.

Abbreviation writeToDisk := (ConfigManager.writeToDisk JSON_stringify fs_outcome).
Abbreviation save := (ConfigManager.save JSON_stringify fs_outcome).
Abbreviation set := (ConfigManager.set JSON_stringify fs_outcome).
Abbreviation reset := (ConfigManager.reset JSON_stringify fs_outcome).
Abbreviation load := (ConfigManager.load JSON_stringify JSON_parse fs_outcome).

(** ** Writing the file *)

(** [writeToDisk] leaves the configuration in memory and the backup alone;
    when it returns the file holds the configuration, and when it throws the
    file is as before: the content goes to the temporary file first. *)
Lemma writeToDisk_spec (this : ConfigManager.t) :
  let '(result, this') := writeToDisk this in
  config this' = config this
  ∧ backupFile (files this') = backupFile (files this)
  ∧ (fsCalls this < fsCalls this')%nat
  ∧ match result with
    | Normal _ =>
        configFile (files this')
        = Some (JSON_stringify (JObject (config this)))
    | Throw _ => configFile (files this') = configFile (files this)
    end.
Proof.
  destruct this as [cfg [cf bf tf] n].
  unfold ConfigManager.writeToDisk, fs_mkdir, fs_writeFile, fs_rename,
    next_outcome, get_config, get_files, set_files, throw, mbind, M_bind,
    mret, M_ret.
  simpl.
  destruct (fs_outcome n) as [|l0]; simpl; [|repeat split; lia].
  destruct (fs_outcome (S n)) as [|[l1|]]; simpl;
    [|repeat split; lia|repeat split; lia].
  destruct (fs_outcome (S (S n))) as [|l2]; simpl; repeat split; lia.
Qed.

(** X21. [save] is all or nothing.  When it returns, the configuration in
    memory is the one passed and the file holds its text; when it throws,
    the configuration in memory is the previous one again and the file is
    untouched -- a partial write can only have reached the temporary file. *)
Theorem save_is_all_or_nothing (config' : AppConfig) (this : ConfigManager.t) :
  match save config' this with
  | (Normal _, this') =>
      config this' = config'
      ∧ configFile (files this') = Some (JSON_stringify (JObject config'))
  | (Throw _, this') =>
      config this' = config this
      ∧ configFile (files this') = configFile (files this)
  end.
Proof.
  unfold ConfigManager.save, try_, get_config, set_config, throw, mbind,
    M_bind.
  simpl.
  pose proof (writeToDisk_spec (mk config' (files this) (fsCalls this)))
    as Hw.
  destruct (writeToDisk (mk config' (files this) (fsCalls this)))
    as [[[]|err] this'];
    simpl in *; destruct Hw as (Hc & _ & _ & Hf); done.
Qed.

(** X22. [set] and [reset] are not rolled back.  When the write fails they
    throw with the file untouched but the configuration in memory already
    changed, so that [get] answers with a value that was never stored. *)
Theorem set_and_reset_keep_unsaved_changes (key : jsstring) (value : json)
    (this : ConfigManager.t) :
  match set key value this with
  | (Normal _, this') =>
      config this' = <[key := value]> (config this)
      ∧ configFile (files this')
        = Some (JSON_stringify (JObject (<[key := value]> (config this))))
  | (Throw _, this') =>
      configFile (files this') = configFile (files this)
      ∧ get key this' = (Normal (Some value), this')
  end
  ∧ match reset this with
    | (Normal _, this') =>
        config this' = DEFAULT_CONFIG
        ∧ configFile (files this')
          = Some (JSON_stringify (JObject DEFAULT_CONFIG))
    | (Throw _, this') =>
        configFile (files this') = configFile (files this)
        ∧ config this' = DEFAULT_CONFIG
    end.
Proof.
  split.
  - unfold ConfigManager.set, get, get_config, set_config, mbind, M_bind,
      mret, M_ret.
    cbv beta. cbn [config files fsCalls].
    pose proof (writeToDisk_spec
                  (mk (<[key := value]> (config this)) (files this)
                     (fsCalls this))) as Hw.
    destruct (writeToDisk _) as [[[]|err] this'];
      cbv beta iota in Hw; cbn [config files fsCalls] in Hw;
      destruct Hw as (Hc & _ & _ & Hf); [done|].
    split; [done|]. rewrite Hc. cbn [config]. by rewrite lookup_insert_eq.
  - unfold ConfigManager.reset, set_config, mbind, M_bind.
    simpl.
    pose proof (writeToDisk_spec
                  (mk DEFAULT_CONFIG (files this) (fsCalls this))) as Hw.
    destruct (writeToDisk _) as [[[]|err] this'];
      simpl in *; destruct Hw as (Hc & _ & _ & Hf); done.
Qed.

(** ** Loading *)

Abbreviation write_defaults :=
  (ConfigManager.write_defaults JSON_stringify fs_outcome).
Abbreviation back_up_and_reset :=
  (ConfigManager.back_up_and_reset JSON_stringify fs_outcome).

Lemma write_defaults_spec (this : ConfigManager.t) :
  match write_defaults this with
  | (Normal cfg, this') =>
      cfg = DEFAULT_CONFIG ∧ config this' = DEFAULT_CONFIG
      ∧ backupFile (files this') = backupFile (files this)
      ∧ configFile (files this')
        = Some (JSON_stringify (JObject DEFAULT_CONFIG))
  | (Throw _, this') =>
      backupFile (files this') = backupFile (files this)
      ∧ configFile (files this') = configFile (files this)
  end.
Proof.
  unfold ConfigManager.write_defaults, get_config, set_config, mbind, M_bind.
  cbv beta. cbn [config files fsCalls].
  pose proof (writeToDisk_spec (mk DEFAULT_CONFIG (files this) (fsCalls this)))
    as Hw.
  destruct (writeToDisk _) as [[[]|err] this'];
    cbv beta iota in Hw; cbn [config files fsCalls] in Hw;
    destruct Hw as (Hc & Hb & _ & Hf); done.
Qed.

Lemma back_up_and_reset_spec (fileContent : jsstring) (this : ConfigManager.t) :
  match back_up_and_reset fileContent this with
  | (Normal cfg, this') =>
      cfg = DEFAULT_CONFIG ∧ config this' = DEFAULT_CONFIG
      ∧ backupFile (files this') = Some fileContent
  | (Throw _, this') =>
      configFile (files this') = configFile (files this)
  end.
Proof.
  unfold ConfigManager.back_up_and_reset, fs_writeFile, next_outcome,
    get_files, set_files, throw, mbind, M_bind.
  cbv beta. cbn [config files fsCalls].
  destruct (fs_outcome (fsCalls this)) as [|[remains|]];
    cbn [config files fsCalls]; [| |done].
  - pose proof (write_defaults_spec
                  (mk (config this) (store BackupFile (Some fileContent) (files this))
                     (S (fsCalls this)))) as Hw.
    destruct (write_defaults _) as [[cfg|err] this'];
      cbn [config files fsCalls] in Hw.
    + destruct Hw as (-> & Hc & Hb & _). by rewrite Hb.
    + destruct Hw as (_ & ->). done.
  - done.
Qed.

(** X23. [load] never throws, returns the configuration it has put in
    memory, and does not lose the user's file: whatever calls of [fs] fail,
    the content found in the configuration file is afterwards still in that
    file, or in the backup file, or it was the text of an object of an
    older version and the file now holds its migrated form.  A missing file
    stays missing or receives the defaults. *)
Theorem load_returns_and_keeps_the_file (this : ConfigManager.t) :
  ∃ cfg this',
    load this = (Normal cfg, this')
    ∧ config this' = cfg
    ∧ (∀ content, configFile (files this) = Some content →
         configFile (files this') = Some content
         ∨ backupFile (files this') = Some content
         ∨ ∃ loaded,
             JSON_parse content = Normal (JObject loaded)
             ∧ outdated (mergeWithDefaults loaded) = true
             ∧ cfg = migrate (mergeWithDefaults loaded)
             ∧ configFile (files this') = Some (JSON_stringify (JObject cfg)))
    ∧ (configFile (files this) = None →
         configFile (files this') = None
         ∨ (cfg = DEFAULT_CONFIG
            ∧ configFile (files this')
              = Some (JSON_stringify (JObject DEFAULT_CONFIG)))).
Proof.
  unfold ConfigManager.load, try_, fs_mkdir, fs_readFile, next_outcome,
    get_files, get_config, set_config, throw, mbind, M_bind, mret, M_ret.
  cbv beta. cbn [config files fsCalls].
  (* mkdir *)
  destruct (fs_outcome (fsCalls this)) as [|r0]; cbn [config files fsCalls].
  2:{ eexists _, _. split; [done|]. split; [done|]. split; [by left|by left]. }
  (* readFile *)
  cbn [read]. destruct (configFile (files this)) as [content|] eqn:Hfile.
  2:{ (* the file is missing *)
      rewrite decide_True by done.
      pose proof (write_defaults_spec
                    (mk (config this) (files this) (S (S (fsCalls this)))))
        as Hw.
      destruct (write_defaults _) as [[cfg|err] this'];
        cbn [config files fsCalls] in Hw.
      - destruct Hw as (-> & Hc & _ & Hf). eexists _, _.
        split; [done|]. split; [done|]. split; [done|]. by right.
      - destruct Hw as (_ & Hf). rewrite Hfile in Hf. eexists _, _.
        split; [done|]. split; [done|]. split; [done|]. by left. }
  destruct (fs_outcome (S (fsCalls this))) as [|r1]; cbn [config files fsCalls].
  2:{ rewrite decide_False by done. cbn [config files fsCalls].
      eexists _, _. split; [done|]. split; [done|].
      split; [intros ? [= <-]; by left|done]. }
  assert (∀ this0,
            configFile (files this0) = Some content →
            ∃ cfg this',
              match back_up_and_reset content this0 with
              | (Normal a, this1) => (Normal a, this1)
              | (Throw _, this1) =>
                  (Normal DEFAULT_CONFIG,
                   mk DEFAULT_CONFIG (files this1) (fsCalls this1))
              end = (Normal cfg, this')
              ∧ config this' = cfg
              ∧ (configFile (files this') = Some content
                 ∨ backupFile (files this') = Some content)) as Hbackup.
  { intros this0 H0. pose proof (back_up_and_reset_spec content this0) as Hb.
    destruct (back_up_and_reset content this0) as [[cfg|err] this1].
    - destruct Hb as (-> & Hc & Hb). eexists _, _.
      split; [done|]. split; [done|]. by right.
    - eexists _, _. split; [done|]. split; [done|]. left.
      cbn [files]. by rewrite Hb. }
  destruct (JSON_parse content) as [parsed|perr] eqn:Hparse.
  2:{ destruct (Hbackup (mk (config this) (files this) (S (S (fsCalls this)))))
        as (cfg & this' & -> & Hc & Hk); [done|].
      eexists _, _. split; [done|]. split; [done|].
      split; [|done]. intros ? [= <-]. destruct Hk; [by left|by right; left]. }
  destruct (plain_object parsed) as [loaded|] eqn:Hplain.
  2:{ destruct (Hbackup (mk (config this) (files this) (S (S (fsCalls this)))))
        as (cfg & this' & -> & Hc & Hk); [done|].
      eexists _, _. split; [done|]. split; [done|].
      split; [|done]. intros ? [= <-]. destruct Hk; [by left|by right; left]. }
  assert (parsed = JObject loaded) as ->.
  { destruct parsed; try done. by injection Hplain as ->. }
  destruct (outdated (mergeWithDefaults loaded)) eqn:Hout;
    cbn [config files fsCalls].
  2:{ eexists _, _. split; [done|]. split; [done|].
      split; [intros ? [= <-]; by left|done]. }
  pose proof (writeToDisk_spec
                (mk (migrate (mergeWithDefaults loaded)) (files this)
                   (S (S (fsCalls this))))) as Hw.
  destruct (writeToDisk _) as [[[]|err] this'];
    cbv beta iota in Hw; cbn [config files fsCalls] in Hw;
    destruct Hw as (Hc & _ & _ & Hf).
  - eexists _, _. split; [done|]. split; [done|]. split; [|done].
    intros ? [= <-]. right; right. exists loaded. rewrite Hc. done.
  - eexists _, _. split; [done|]. split; [done|]. split; [|done].
    intros ? [= <-]. left. cbn [files]. by rewrite Hf.
Qed.

End Runtime.
End ConfigManagerFacts.

(** * Merging a loaded configuration with the defaults *)

Module MergeFacts.
Import Json ConfigManager ConfigSpec.

Lemma union_absorbs (defaults merged : gmap jsstring json) :
  (∀ key, is_Some (defaults !! key) → is_Some (merged !! key)) →
  merged ∪ defaults = merged.
Proof.
  intros Habs. apply map_eq. intros key. rewrite lookup_union.
  destruct (merged !! key) as [v|] eqn:Hm; [by destruct (defaults !! key)|].
  destruct (defaults !! key) as [d|] eqn:Hd; [|done].
  destruct (Habs key) as [v Hv]; [by eexists|]. congruence.
Qed.

Lemma over_defaults_covers (defaults : json) (value : option json)
    (key : jsstring) :
  is_Some (spread defaults !! key) →
  is_Some (over_defaults defaults value !! key).
Proof.
  intros [d Hd]. unfold over_defaults. rewrite lookup_union, Hd.
  destruct ((if is_object_value value then _ else _) !! key); by eexists.
Qed.

Lemma over_defaults_keeps (defaults : json) (properties : gmap jsstring json)
    (key : jsstring) (value : json) :
  properties !! key = Some value →
  over_defaults defaults (Some (JObject properties)) !! key = Some value.
Proof.
  intros Hp. unfold over_defaults. simpl. rewrite lookup_union, Hp.
  by destruct (spread defaults !! key).
Qed.

Lemma over_defaults_again (defaults : json) (value : option json) :
  over_defaults defaults (Some (JObject (over_defaults defaults value)))
  = over_defaults defaults value.
Proof.
  unfold over_defaults at 1. simpl. apply union_absorbs.
  intros key. apply over_defaults_covers.
Qed.

Lemma array_or_again (value : option json) (fallback : json) :
  array_or (Some (array_or value (JArray []))) fallback
  = array_or value (JArray []).
Proof. by destruct value as [[]|]. Qed.

Ltac distinct_keys :=
  let H := fresh in intros H; cbv in H; discriminate H.

Ltac lookup_merged :=
  unfold mergeWithDefaults;
  repeat (rewrite lookup_insert_ne by distinct_keys);
  rewrite ?lookup_insert_eq.

Lemma merged_version (loaded : gmap jsstring json) :
  ∃ n, mergeWithDefaults loaded !! lit "version" = Some (JNumber n).
Proof.
  lookup_merged.
  destruct (loaded !! lit "version") as [[]|]; by eexists.
Qed.

Lemma merged_lookup (loaded : gmap jsstring json) :
  mergeWithDefaults loaded !! lit "shell"
  = Some (JObject (over_defaults DEFAULT_SHELL (loaded !! lit "shell")))
  ∧ mergeWithDefaults loaded !! lit "animation"
    = Some (JObject (over_defaults DEFAULT_ANIMATION (loaded !! lit "animation")))
  ∧ mergeWithDefaults loaded !! lit "warnings"
    = Some (JObject (merged_warnings (loaded !! lit "warnings")))
  ∧ mergeWithDefaults loaded !! lit "ui"
    = Some (JObject (merged_ui (loaded !! lit "ui")))
  ∧ mergeWithDefaults loaded !! lit "customCommands"
    = Some (array_or (loaded !! lit "customCommands") (JArray [])).
Proof. repeat split; by lookup_merged. Qed.

Lemma merged_warnings_again (value : option json) :
  merged_warnings (Some (JObject (merged_warnings value)))
  = merged_warnings value.
Proof.
  unfold merged_warnings at 1. simpl.
  assert (merged_warnings value !! lit "customRules"
          = Some (array_or (prop value (lit "customRules")) (JArray [])))
    as Hcr.
  { unfold merged_warnings. by rewrite lookup_insert_eq. }
  assert (merged_warnings value !! lit "disabledBuiltInRules"
          = Some (array_or (prop value (lit "disabledBuiltInRules"))
                    (JArray []))) as Hdbr.
  { unfold merged_warnings. rewrite lookup_insert_ne by distinct_keys.
    by rewrite lookup_insert_eq. }
  rewrite Hcr, Hdbr, !array_or_again.
  assert (over_defaults DEFAULT_WARNINGS (Some (JObject (merged_warnings value)))
          = merged_warnings value) as ->.
  { unfold over_defaults. simpl. apply union_absorbs. intros key Hk.
    unfold merged_warnings.
    destruct (decide (key = lit "customRules")) as [->|Hne1];
      [rewrite lookup_insert_eq; by eexists|].
    rewrite lookup_insert_ne by done.
    destruct (decide (key = lit "disabledBuiltInRules")) as [->|Hne2];
      [rewrite lookup_insert_eq; by eexists|].
    rewrite lookup_insert_ne by done. by apply over_defaults_covers. }
  rewrite (insert_id _ _ _ Hdbr). by rewrite (insert_id _ _ _ Hcr).
Qed.

Lemma merged_ui_again (value : option json) :
  merged_ui (Some (JObject (merged_ui value))) = merged_ui value.
Proof.
  unfold merged_ui at 1. simpl.
  assert (merged_ui value !! lit "terminalTheme"
          = Some (JObject (over_defaults DEFAULT_TERMINAL_THEME
                             (prop value (lit "terminalTheme"))))) as Htt.
  { unfold merged_ui. by rewrite lookup_insert_eq. }
  rewrite Htt, over_defaults_again.
  assert (over_defaults DEFAULT_UI (Some (JObject (merged_ui value)))
          = merged_ui value) as ->.
  { unfold over_defaults. simpl. apply union_absorbs. intros key Hk.
    unfold merged_ui.
    destruct (decide (key = lit "terminalTheme")) as [->|Hne1];
      [rewrite lookup_insert_eq; by eexists|].
    rewrite lookup_insert_ne by done. by apply over_defaults_covers. }
  by rewrite (insert_id _ _ _ Htt).
Qed.

Lemma spread_obj (properties : list (string * json)) :
  spread (obj properties)
  = list_to_map (map (λ kv, (lit kv.1, kv.2)) properties).
Proof. done. Qed.

Lemma over_defaults_none (defaults : json) :
  over_defaults defaults None = spread defaults.
Proof. unfold over_defaults. simpl. apply (left_id_L ∅ (∪)). Qed.

Lemma merge_of_empty : mergeWithDefaults ∅ = DEFAULT_CONFIG.
Proof.
  unfold mergeWithDefaults, merged_warnings, merged_ui.
  rewrite !lookup_empty. cbn [prop array_or].
  rewrite !over_defaults_none.
  assert (default JNull (DEFAULT_CONFIG !! lit "version") = num 1) as ->.
  { unfold DEFAULT_CONFIG. rewrite spread_obj. cbn [map list_to_map foldr fst snd].
    by rewrite lookup_insert_eq. }
  assert (<[lit "customRules" := JArray []]>
            (<[lit "disabledBuiltInRules" := JArray []]> (spread DEFAULT_WARNINGS))
          = spread DEFAULT_WARNINGS) as ->.
  { unfold DEFAULT_WARNINGS. rewrite spread_obj.
    cbn [map list_to_map foldr fst snd].
    rewrite (insert_id _ (lit "disabledBuiltInRules")).
    2:{ rewrite lookup_insert_ne by distinct_keys. by rewrite lookup_insert_eq. }
    rewrite insert_id; [done|].
    rewrite !lookup_insert_ne by distinct_keys. by rewrite lookup_insert_eq. }
  assert (<[lit "terminalTheme" := JObject (spread DEFAULT_TERMINAL_THEME)]>
            (spread DEFAULT_UI) = spread DEFAULT_UI) as ->.
  { unfold DEFAULT_UI. rewrite spread_obj.
    cbn [map list_to_map foldr fst snd].
    rewrite insert_id; [done|].
    rewrite !lookup_insert_ne by distinct_keys. by rewrite lookup_insert_eq. }
  unfold DEFAULT_CONFIG. rewrite spread_obj.
  cbn [map list_to_map foldr fst snd].
  apply map_eq. intros key.
  destruct (decide (key = lit "customCommands")) as [->|H1].
  { rewrite lookup_insert_eq, !lookup_insert_ne by distinct_keys.
    by rewrite lookup_insert_eq. }
  destruct (decide (key = lit "ui")) as [->|H2].
  { rewrite !lookup_insert_ne by distinct_keys.
    by rewrite !lookup_insert_eq. }
  destruct (decide (key = lit "warnings")) as [->|H3].
  { rewrite !lookup_insert_ne by distinct_keys.
    by rewrite !lookup_insert_eq. }
  destruct (decide (key = lit "animation")) as [->|H4].
  { rewrite !lookup_insert_ne by distinct_keys.
    by rewrite !lookup_insert_eq. }
  destruct (decide (key = lit "shell")) as [->|H5].
  { rewrite !lookup_insert_ne by distinct_keys.
    by rewrite !lookup_insert_eq. }
  destruct (decide (key = lit "version")) as [->|H6].
  { rewrite !lookup_insert_ne by distinct_keys.
    by rewrite !lookup_insert_eq. }
  by rewrite !lookup_insert_ne by done.
Qed.

(** X24. What [mergeWithDefaults] returns: an object with exactly the six
    keys of the defaults, whatever other keys the loaded object has; its
    four sections are objects that have every key of their defaults, and an
    own property of a loaded section that is an object is kept as it is,
    whatever its type (in [warnings] and [ui], apart from the three keys
    the function sets itself); the empty object gives the defaults; and
    merging the result again changes nothing. *)
Theorem mergeWithDefaults_completes_without_validating
    (loaded : gmap jsstring json) :
  (∀ key, is_Some (mergeWithDefaults loaded !! key) ↔ key ∈ CONFIG_KEYS)
  ∧ (∀ section defaults,
       (section, defaults) ∈ CONFIG_SECTIONS →
       ∃ merged,
         mergeWithDefaults loaded !! section = Some (JObject merged)
         ∧ (∀ key, is_Some (spread defaults !! key) → is_Some (merged !! key))
         ∧ ∀ properties key value,
             loaded !! section = Some (JObject properties) →
             properties !! key = Some value →
             key ∉ GUARDED_KEYS →
             merged !! key = Some value)
  ∧ mergeWithDefaults ∅ = DEFAULT_CONFIG
  ∧ mergeWithDefaults (mergeWithDefaults loaded) = mergeWithDefaults loaded.
Proof.
  destruct (merged_lookup loaded) as (Hs & Ha & Hw & Hu & Hc).
  destruct (merged_version loaded) as [n Hv].
  split; [|split; [|split]].
  - intros key. unfold CONFIG_KEYS. split.
    + intros [v Hk]. unfold mergeWithDefaults in Hk.
      repeat (apply lookup_insert_Some in Hk as [[<- _]|[_ Hk]];
              [by repeat constructor|]).
      by rewrite lookup_empty in Hk.
    + intros Hin. repeat (apply elem_of_cons in Hin as [->|Hin]);
        try (by eexists). by apply elem_of_nil in Hin.
  - intros section defaults Hin. unfold CONFIG_SECTIONS in Hin.
    repeat (apply elem_of_cons in Hin as [[= -> ->]|Hin]);
      [| | | |by apply elem_of_nil in Hin].
    + eexists. split; [exact Hs|]. split.
      * intros key. apply over_defaults_covers.
      * intros properties key value -> Hp _. by apply over_defaults_keeps.
    + eexists. split; [exact Ha|]. split.
      * intros key. apply over_defaults_covers.
      * intros properties key value -> Hp _. by apply over_defaults_keeps.
    + eexists. split; [exact Hw|]. split.
      * intros key Hk. unfold merged_warnings.
        destruct (decide (key = lit "customRules")) as [->|Hne1];
          [rewrite lookup_insert_eq; by eexists|].
        rewrite lookup_insert_ne by done.
        destruct (decide (key = lit "disabledBuiltInRules")) as [->|Hne2];
          [rewrite lookup_insert_eq; by eexists|].
        rewrite lookup_insert_ne by done. by apply over_defaults_covers.
      * intros properties key value -> Hp Hg. unfold merged_warnings.
        unfold GUARDED_KEYS in Hg. rewrite !not_elem_of_cons in Hg.
        destruct Hg as (Hg1 & Hg2 & Hg3 & _).
        rewrite !lookup_insert_ne by done.
        by apply over_defaults_keeps.
    + eexists. split; [exact Hu|]. split.
      * intros key Hk. unfold merged_ui.
        destruct (decide (key = lit "terminalTheme")) as [->|Hne1];
          [rewrite lookup_insert_eq; by eexists|].
        rewrite lookup_insert_ne by done. by apply over_defaults_covers.
      * intros properties key value -> Hp Hg. unfold merged_ui.
        unfold GUARDED_KEYS in Hg. rewrite !not_elem_of_cons in Hg.
        destruct Hg as (Hg1 & Hg2 & Hg3 & _).
        rewrite !lookup_insert_ne by done.
        by apply over_defaults_keeps.
  - apply merge_of_empty.
  - pose (version :=
            match loaded !! lit "version" with
            | Some (JNumber n) => JNumber n
            | _ => default JNull (DEFAULT_CONFIG !! lit "version")
            end).
    assert (mergeWithDefaults loaded !! lit "version" = Some version) as Hv'
      by (by lookup_merged).
    assert (∃ m, version = JNumber m) as [m Hm].
    { unfold version. destruct (loaded !! lit "version") as [[]|];
        by eexists. }
    unfold mergeWithDefaults at 1.
    rewrite Hv', Hs, Ha, Hw, Hu, Hc, Hm.
    rewrite !over_defaults_again, array_or_again.
    fold (merged_warnings (Some (JObject (merged_warnings (loaded !! lit "warnings"))))).
    fold (merged_ui (Some (JObject (merged_ui (loaded !! lit "ui"))))).
    rewrite merged_warnings_again, merged_ui_again, <- Hm.
    reflexivity.
Qed.

End MergeFacts.

(** * Merging the command lists *)

Module CommandFacts.
Import DefaultCommands.

Abbreviation ident := CommandDefinition.id.

(** ** Sorting by [order] *)

Lemma before_or_level_spec (a b : CommandDefinition.t) :
  before_or_level a b = true ↔ by_order a b.
Proof. apply Qle_bool_iff. Qed.

Lemma by_order_trans (a b c : CommandDefinition.t) :
  by_order a b → by_order b c → by_order a c.
Proof. apply Qle_trans. Qed.

Lemma by_order_total (a b : CommandDefinition.t) :
  before_or_level a b = false → by_order b a.
Proof.
  intros Hab. apply Qlt_le_weak, Qnot_le_lt. intros Hle.
  apply before_or_level_spec in Hle. congruence.
Qed.

Lemma insert_by_order_perm (a : CommandDefinition.t)
    (l : list CommandDefinition.t) :
  insert_by_order a l ≡ₚ a :: l.
Proof.
  induction l as [|b l IH]; simpl; [done|].
  destruct (before_or_level a b); [done|].
  rewrite IH. apply Permutation_swap.
Qed.

Lemma sort_by_order_perm (l : list CommandDefinition.t) :
  sort_by_order l ≡ₚ l.
Proof.
  induction l as [|a l IH]; simpl; [done|].
  by rewrite insert_by_order_perm, IH.
Qed.

Lemma insert_by_order_sorted (a : CommandDefinition.t)
    (l : list CommandDefinition.t) :
  StronglySorted by_order l → StronglySorted by_order (insert_by_order a l).
Proof.
  induction 1 as [|b l Hl IH Hb]; simpl.
  { repeat constructor. }
  destruct (before_or_level a b) eqn:Hab.
  - apply before_or_level_spec in Hab. constructor.
    + by constructor.
    + constructor; [done|]. eapply Forall_impl; [exact Hb|].
      intros c Hc. by eapply by_order_trans.
  - constructor; [done|].
    rewrite insert_by_order_perm. constructor; [|done].
    by apply by_order_total.
Qed.

Lemma sort_by_order_sorted (l : list CommandDefinition.t) :
  StronglySorted by_order (sort_by_order l).
Proof.
  induction l as [|a l IH]; simpl; [constructor|].
  by apply insert_by_order_sorted.
Qed.

Lemma sort_by_order_sorted_id (l : list CommandDefinition.t) :
  StronglySorted by_order l → sort_by_order l = l.
Proof.
  induction 1 as [|a l Hl IH Ha]; simpl; [done|].
  rewrite IH. destruct l as [|b l]; simpl; [done|].
  apply Forall_cons in Ha as [Hab _].
  apply before_or_level_spec in Hab. by rewrite Hab.
Qed.

Lemma filter_sorted (P : CommandDefinition.t → Prop)
    `{∀ x, Decision (P x)} (l : list CommandDefinition.t) :
  StronglySorted by_order l → StronglySorted by_order (filter P l).
Proof.
  induction 1 as [|a l Hl IH Ha]; [constructor|].
  rewrite filter_cons. case_decide; [|done].
  constructor; [done|]. rewrite Forall_forall in *. intros b Hb.
  apply list_elem_of_filter in Hb as [_ Hb]. by apply Ha.
Qed.

(** ** The map of the custom commands *)

Section JsMap.

Context {V : Type}.

Implicit Types m : list (jsstring * V).

Lemma Map_get_None (key : jsstring) m :
  Map_get key m = None ↔ key ∉ m.*1.
Proof.
  induction m as [|[k v] m IH]; simpl.
  - split; [intros _; apply not_elem_of_nil|done].
  - case_decide as Hk.
    + subst. split; [done|]. intros Hn. exfalso. apply Hn. left.
    + rewrite IH, not_elem_of_cons. naive_solver.
Qed.

Lemma Map_get_Some (key : jsstring) (value : V) m :
  NoDup m.*1 → Map_get key m = Some value ↔ (key, value) ∈ m.
Proof.
  induction m as [|[k v] m IH]; simpl; intros Hnd.
  - split; [done|]. intros Hin. by apply elem_of_nil in Hin.
  - apply NoDup_cons in Hnd as [Hk Hnd]. case_decide as Hkey.
    + subst. split.
      * intros [= ->]. left.
      * intros Hin. apply elem_of_cons in Hin as [[= ->]|Hin]; [done|].
        exfalso. apply Hk. apply list_elem_of_fmap. by exists (key, value).
    + rewrite (IH Hnd). split; [by right|].
      intros Hin. apply elem_of_cons in Hin as [[= -> ->]|Hin]; done.
Qed.

Lemma Map_set_keys (key : jsstring) (value : V) m :
  (Map_set key value m).*1
  = if decide (key ∈ m.*1) then m.*1 else m.*1 ++ [key].
Proof.
  induction m as [|[k v] m IH].
  - destruct (decide (key ∈ ([] : list (jsstring * V)).*1)) as [Hin|Hin];
      [by apply elem_of_nil in Hin|done].
  - cbn [Map_set]. destruct (decide (k = key)) as [->|Hk].
    + destruct (decide (key ∈ ((key, v) :: m).*1)) as [Hin|Hin]; [done|].
      exfalso. apply Hin. left.
    + rewrite fmap_cons, IH. cbn [fst].
      destruct (decide (key ∈ m.*1)) as [Hin|Hin];
        destruct (decide (key ∈ ((k, v) :: m).*1)) as [Hin'|Hin'];
        try done.
      * exfalso. apply Hin'. by right.
      * exfalso. rewrite fmap_cons in Hin'.
        apply elem_of_cons in Hin' as [?|?]; cbn [fst] in *; congruence.
Qed.

Lemma Map_set_NoDup (key : jsstring) (value : V) m :
  NoDup m.*1 → NoDup (Map_set key value m).*1.
Proof.
  intros Hnd. rewrite Map_set_keys. case_decide as Hin; [done|].
  apply NoDup_app. repeat split; [done| |apply NoDup_singleton].
  intros k Hk Hk'. apply list_elem_of_singleton in Hk'. by subst.
Qed.

Lemma Map_get_set (key key' : jsstring) (value : V) m :
  Map_get key (Map_set key' value m)
  = if decide (key' = key) then Some value else Map_get key m.
Proof.
  induction m as [|[k v] m IH]; simpl.
  - done.
  - destruct (decide (k = key')) as [->|Hk]; simpl.
    + destruct (decide (key' = key)); done.
    + rewrite IH. destruct (decide (k = key)) as [->|Hk'].
      * by rewrite decide_False by done.
      * done.
Qed.

Lemma Map_get_delete (key key' : jsstring) m :
  Map_get key (Map_delete key' m)
  = if decide (key = key') then None else Map_get key m.
Proof.
  unfold Map_delete. induction m as [|[k v] m IH]; simpl.
  - by case_decide.
  - rewrite filter_cons. simpl. destruct (decide (k ≠ key')) as [Hk|Hk].
    + simpl. rewrite IH. destruct (decide (k = key)) as [->|Hk'].
      * by rewrite decide_False by done.
      * done.
    + apply dec_stable in Hk. subst. rewrite IH.
      destruct (decide (key = key')) as [->|Hne]; [done|].
      by rewrite decide_False by done.
Qed.

End JsMap.

Lemma final_snoc (custom : list CommandDefinition.t)
    (cmd : CommandDefinition.t) (key : jsstring) :
  final (custom ++ [cmd]) key
  = if decide (ident cmd = key) then Some cmd else final custom key.
Proof.
  unfold final. rewrite filter_app, filter_cons, filter_nil.
  case_decide.
  - by rewrite last_snoc.
  - by rewrite app_nil_r.
Qed.

Lemma final_id (custom : list CommandDefinition.t)
    (cmd : CommandDefinition.t) (key : jsstring) :
  final custom key = Some cmd → ident cmd = key ∧ cmd ∈ custom.
Proof.
  unfold final. intros Hl. apply last_Some in Hl as [l Hl].
  assert (cmd ∈ filter (λ c, ident c = key) custom) as Hin.
  { rewrite Hl. set_solver. }
  by apply list_elem_of_filter in Hin.
Qed.

Lemma custom_map_spec (custom : list CommandDefinition.t) :
  NoDup (custom_map custom).*1
  ∧ ∀ key, Map_get key (custom_map custom) = final custom key.
Proof.
  unfold custom_map.
  induction custom as [|cmd custom IH] using rev_ind.
  { split; [constructor|done]. }
  rewrite fold_left_app. simpl. destruct IH as [Hnd Hget]. split.
  - by apply Map_set_NoDup.
  - intros key. by rewrite Map_get_set, final_snoc, Hget.
Qed.

(** ** The built-in commands with their overrides *)

Lemma overrides_after_delete (rest : list CommandDefinition.t)
    (customMap : list (jsstring * CommandDefinition.t)) (key : jsstring) :
  key ∉ ident <$> rest →
  (λ cmd, default cmd (Map_get (ident cmd) (Map_delete key customMap))) <$> rest
  = (λ cmd, default cmd (Map_get (ident cmd) customMap)) <$> rest.
Proof.
  induction rest as [|c rest IH]; intros Hkey; [done|].
  rewrite fmap_cons in Hkey. apply not_elem_of_cons in Hkey as [Hc Hkey].
  rewrite !fmap_cons, (IH Hkey), Map_get_delete.
  by rewrite decide_False by done.
Qed.

Lemma filter_absent {A : Type} (P Q : A → Prop) `{∀ x, Decision (P x)}
    `{∀ x, Decision (Q x)} (l : list A) :
  (∀ x, x ∈ l → (P x ↔ Q x)) → filter P l = filter Q l.
Proof.
  induction l as [|x l IH]; intros Hl; [done|].
  rewrite !filter_cons, IH by (intros y Hy; apply Hl; by right).
  destruct (decide (P x)) as [HP|HP], (decide (Q x)) as [HQ|HQ]; try done.
  - exfalso. apply HQ, Hl; [left|done].
  - exfalso. apply HP, Hl; [left|done].
Qed.

Lemma overridden_spec (builtIn : list CommandDefinition.t)
    (customMap : list (jsstring * CommandDefinition.t)) :
  NoDup (ident <$> builtIn) →
  overridden builtIn customMap
  = ((λ cmd, default cmd (Map_get (ident cmd) customMap)) <$> builtIn,
     filter (λ entry, entry.1 ∉ ident <$> builtIn) customMap).
Proof.
  revert customMap. induction builtIn as [|cmd rest IH]; intros customMap Hnd.
  { cbn [overridden fmap list_fmap]. f_equal. symmetry.
    induction customMap as [|e m IHm]; [done|].
    rewrite filter_cons. rewrite decide_True by apply not_elem_of_nil.
    by rewrite IHm. }
  rewrite fmap_cons in Hnd. apply NoDup_cons in Hnd as [Hcmd Hnd].
  cbn [overridden]. unfold override.
  destruct (Map_get (ident cmd) customMap) as [o|] eqn:Hget.
  - rewrite (IH _ Hnd), overrides_after_delete by done.
    rewrite !fmap_cons, Hget. cbn [from_option id]. f_equal.
    unfold Map_delete. rewrite list_filter_filter.
    apply filter_absent. intros [k v] _. cbn [fst].
    rewrite not_elem_of_cons. tauto.
  - rewrite (IH _ Hnd). rewrite !fmap_cons, Hget. cbn [from_option id]. f_equal.
    apply Map_get_None in Hget.
    apply filter_absent. intros [k v] Hin. cbn [fst].
    rewrite not_elem_of_cons. split; [|tauto].
    intros Hk. split; [|done]. intros ->. apply Hget.
    apply list_elem_of_fmap. by exists (ident cmd, v).
Qed.

(** The list before the sort: distinct identifiers, and the commands that
    custom definitions and unused built-ins give. *)
Lemma merged_before_sort (builtIn custom : list CommandDefinition.t) :
  NoDup (ident <$> builtIn) →
  ∃ merged,
    mergeCommands builtIn custom = sort_by_order merged
    ∧ NoDup (ident <$> merged)
    ∧ ∀ cmd, cmd ∈ merged
             ↔ final custom (ident cmd) = Some cmd
               ∨ (cmd ∈ builtIn ∧ final custom (ident cmd) = None).
Proof.
  intros Hnd. unfold mergeCommands. rewrite overridden_spec by done.
  destruct (custom_map_spec custom) as [Hkeys Hget].
  set (merged := ((λ cmd, default cmd (Map_get (ident cmd) (custom_map custom)))
                    <$> builtIn)
                 ++ Map_values
                      (filter (λ entry, entry.1 ∉ ident <$> builtIn)
                         (custom_map custom))).
  assert (∀ key value, (key, value) ∈ custom_map custom
                       ↔ final custom key = Some value) as Hentry.
  { intros key value. by rewrite <- Map_get_Some, Hget. }
  assert (∀ cmd, cmd ∈ merged
                 ↔ final custom (ident cmd) = Some cmd
                   ∨ (cmd ∈ builtIn ∧ final custom (ident cmd) = None)) as Hin.
  { intros cmd. unfold merged, Map_values.
    rewrite elem_of_app, !list_elem_of_fmap. split.
    - intros [(b & -> & Hb)|([k v] & -> & Hkv)].
      + rewrite Hget. destruct (final custom (ident b)) as [o|] eqn:Hf.
        * cbn [from_option id]. left. destruct (final_id _ _ _ Hf) as [Ho _].
          by rewrite Ho.
        * cbn [from_option id]. right. by rewrite Hf.
      + apply list_elem_of_filter in Hkv as [_ Hkv]. cbn [snd]. left.
        apply Hentry in Hkv. destruct (final_id _ _ _ Hkv) as [Ho _].
        by rewrite Ho.
    - intros [Hf|[Hb Hf]].
      + destruct (decide (ident cmd ∈ ident <$> builtIn)) as [Hid|Hid].
        * left. apply list_elem_of_fmap in Hid as (b & Hb & Hbin).
          exists b. split; [|done]. by rewrite Hget, <- Hb, Hf.
        * right. exists (ident cmd, cmd). split; [done|].
          apply list_elem_of_filter. split; [done|]. by apply Hentry.
      + left. exists cmd. split; [|done]. by rewrite Hget, Hf. }
  assert (NoDup (ident <$> merged)) as Hids.
  { unfold merged, Map_values. rewrite fmap_app. apply NoDup_app.
    assert (ident <$> ((λ cmd, default cmd (Map_get (ident cmd) (custom_map custom)))
                      <$> builtIn) = ident <$> builtIn) as ->.
    { rewrite <- list_fmap_compose. apply list_fmap_ext.
      intros i b _. cbn [compose]. rewrite Hget.
      destruct (final custom (ident b)) as [o|] eqn:Hf; [|done].
      by destruct (final_id _ _ _ Hf). }
    assert (ident <$> (filter (λ entry, entry.1 ∉ ident <$> builtIn)
                      (custom_map custom)).*2
            = (filter (λ entry, entry.1 ∉ ident <$> builtIn)
                 (custom_map custom)).*1) as ->.
    { rewrite <- list_fmap_compose. apply list_fmap_ext.
      intros i [k v] Hi. cbn [compose fst snd].
      apply list_elem_of_lookup_2 in Hi.
      apply list_elem_of_filter in Hi as [_ Hi]. apply Hentry in Hi.
      by destruct (final_id _ _ _ Hi). }
    split; [done|]. split.
    - intros key Hkey Hkey'. apply list_elem_of_fmap in Hkey' as ([k v] & -> & Hkv).
      apply list_elem_of_filter in Hkv as [Hk _]. done.
    - revert Hkeys. generalize (custom_map custom).
      induction l as [|[k v] l IHl]; intros Hl; [constructor|].
      rewrite fmap_cons in Hl. apply NoDup_cons in Hl as [Hk Hl].
      rewrite filter_cons. destruct (decide _); [|by apply IHl].
      rewrite fmap_cons. apply NoDup_cons. split; [|by apply IHl].
      cbn [fst]. intros Hin'. apply Hk.
      apply list_elem_of_fmap in Hin' as (e & -> & He).
      apply list_elem_of_filter in He as [_ He].
      apply list_elem_of_fmap. by exists e. }
  by exists merged.
Qed.

Lemma mergeCommands_elem (builtIn custom : list CommandDefinition.t)
    (cmd : CommandDefinition.t) :
  NoDup (ident <$> builtIn) →
  cmd ∈ mergeCommands builtIn custom
  ↔ final custom (ident cmd) = Some cmd
    ∨ (cmd ∈ builtIn ∧ final custom (ident cmd) = None).
Proof.
  intros Hnd.
  destruct (merged_before_sort builtIn custom Hnd) as (merged & -> & _ & Hin).
  by rewrite sort_by_order_perm.
Qed.

(** X25. [mergeCommands] when the built-in commands have distinct
    identifiers: the result is in increasing [order]; no identifier occurs
    twice; and a command is in the result exactly when it is the last
    custom definition of its identifier, or a built-in command whose
    identifier no custom command uses. *)
Theorem mergeCommands_overrides_by_id (builtIn custom : list CommandDefinition.t) :
  NoDup (ident <$> builtIn) →
  StronglySorted by_order (mergeCommands builtIn custom)
  ∧ NoDup (ident <$> mergeCommands builtIn custom)
  ∧ ∀ cmd, cmd ∈ mergeCommands builtIn custom
           ↔ final custom (ident cmd) = Some cmd
             ∨ (cmd ∈ builtIn ∧ final custom (ident cmd) = None).
Proof.
  intros Hnd.
  destruct (merged_before_sort builtIn custom Hnd)
    as (merged & Heq & Hids & Hin).
  pose proof (sort_by_order_perm merged) as Hperm. rewrite Heq.
  split; [apply sort_by_order_sorted|]. split.
  - by rewrite Hperm.
  - intros cmd. by rewrite Hperm.
Qed.

(** X26. The command panel sorts again what [mergeCommands] has sorted:
    for every category the second sort changes nothing, so the panel shows
    the commands of the category in the order of the merged list. *)
Theorem panel_sort_is_redundant (builtIn custom : list CommandDefinition.t)
    (activeCategory : jsstring) :
  categoryCommands (mergeCommands builtIn custom) activeCategory
  = filter (λ cmd, CommandDefinition.category cmd = activeCategory)
      (mergeCommands builtIn custom).
Proof.
  unfold categoryCommands. apply sort_by_order_sorted_id, filter_sorted.
  unfold mergeCommands. destruct (overridden _ _) as [merged customMap].
  apply sort_by_order_sorted.
Qed.

End CommandFacts.

(** * The command panel *)

Module CommandPanelFacts.
Import JsSet ProjectDetector DefaultCommands CommandPanel.

Lemma Set_add_elem {A : Type} `{EqDecision A} (x y : A) (set : list A) :
  y ∈ Set_add x set ↔ y = x ∨ y ∈ set.
Proof. unfold Set_add. case_decide; set_solver. Qed.

Lemma Set_add_distinct {A : Type} `{EqDecision A} (x : A) (set : list A) :
  NoDup set → NoDup (Set_add x set).
Proof.
  intros Hnd. unfold Set_add. case_decide; [done|].
  apply NoDup_app. repeat split; [done| |apply NoDup_singleton].
  intros y Hy Hin. apply list_elem_of_singleton in Hin. by subst.
Qed.

Lemma Set_from_distinct {A : Type} `{EqDecision A} (items : list A) :
  NoDup (Set_from items).
Proof.
  unfold Set_from. generalize (NoDup_nil_2 (A := A)).
  generalize (@nil A) as set. induction items as [|x items IH]; intros set Hnd;
    [done|].
  simpl. apply IH. by apply Set_add_distinct.
Qed.

Lemma Set_from_of_distinct {A : Type} `{EqDecision A} (items : list A) :
  NoDup items → Set_from items = items.
Proof.
  unfold Set_from. intros Hnd.
  assert (∀ set, (∀ x, x ∈ set → x ∉ items) →
            fold_left (λ set x, Set_add x set) items set = set ++ items)
    as Hgen.
  { induction Hnd as [|x items Hx Hnd IH]; intros set Hset.
    { simpl. by rewrite app_nil_r. }
    simpl. unfold Set_add at 2. rewrite decide_False.
    2:{ intros Hin. apply (Hset x Hin). left. }
    rewrite IH, <- app_assoc; [done|].
    intros y Hy Hin. apply elem_of_app in Hy as [Hy|Hy].
    - apply (Hset y Hy). by right.
    - apply list_elem_of_singleton in Hy. by subst. }
  apply (Hgen []). intros x Hx. by apply elem_of_nil in Hx.
Qed.

(** What [setVisibleCategories] leaves: distinct tabs, Custom among them,
    and an active category that is one of them. *)
Lemma setVisibleCategories_spec (categories : list jsstring) (st : t) :
  let st' := setVisibleCategories categories st in
  NoDup (tabs st') ∧ lit "custom" ∈ tabs st' ∧ activeCategory st' ∈ tabs st'.
Proof.
  unfold setVisibleCategories, tabs. cbn [visibleCategories activeCategory].
  set (cats := Set_add (lit "custom") (Set_from categories)).
  assert (lit "custom" ∈ cats) as Hcustom.
  { apply Set_add_elem. by left. }
  split; [apply Set_add_distinct, Set_from_distinct|]. split; [done|].
  case_bool_decide as Hin; [done|].
  destruct cats as [|first rest] eqn:Hcats; [done|]. cbn [head].
  destruct first as [|u first]; [done|]. left.
Qed.

(** X27. The active tab is always one of the tabs shown: after any
    sequence of project detections, command updates, calls of
    [setCommands] and [setVisibleCategories] and clicks on tabs, the tabs
    are distinct, Custom is among them, and the active category is one of
    them. *)
Theorem active_tab_is_shown (events : list event) :
  let st := run events initial in
  NoDup (tabs st) ∧ lit "custom" ∈ tabs st ∧ activeCategory st ∈ tabs st.
Proof.
  unfold run.
  assert (NoDup (tabs initial) ∧ lit "custom" ∈ tabs initial
          ∧ activeCategory initial ∈ tabs initial) as Hinit.
  { split; [|split].
    - apply (bool_decide_unpack _). vm_compute. exact I.
    - apply (bool_decide_unpack _). vm_compute. exact I.
    - left. }
  revert Hinit. generalize initial as st.
  induction events as [|e events IH]; intros st Hst; [done|].
  simpl. apply IH. destruct e as [types|custom|commands|categories|category];
    simpl.
  - apply setVisibleCategories_spec.
  - done.
  - done.
  - apply setVisibleCategories_spec.
  - case_bool_decide as Hin; [|done]. destruct Hst as (Hnd & Hc & _). done.
Qed.

Section Detection.

Variable path_join : jsstring → jsstring → jsstring.
Variable fs_access : jsstring → bool.

(** X28. The tabs after a detection are the detected types followed by
    Custom: whatever the order in which the marker checks settle, the panel
    shows one tab per project type that has a marker file in the directory,
    in the order of detection, then the Custom tab. *)
Theorem tabs_are_detected_types_then_custom (directory : jsstring)
    (settled : list (jsstring * ProjectType)) (st : t) :
  settled ≡ₚ MARKER_MAP →
  let types := detect path_join fs_access directory settled in
  let st' := on_event st (ProjectDetected (type_name <$> types)) in
  tabs st' = (type_name <$> types) ++ [lit "custom"]
  ∧ ∀ projectType,
      type_name projectType ∈ tabs st'
      ↔ marked path_join fs_access directory projectType.
Proof.
  intros Hs types st'.
  destruct (ProjectDetectorFacts.detect_spec path_join fs_access directory
              settled Hs) as [Hnd Hin].
  fold types in Hnd, Hin.
  assert (Inj (=) (=) type_name) as Hinj.
  { intros [] [] Heq; try done; vm_compute in Heq; discriminate Heq. }
  assert (∀ t, type_name t ≠ lit "custom") as Hcustom.
  { intros [] Heq; vm_compute in Heq; discriminate Heq. }
  assert (NoDup ((type_name <$> types) ++ [lit "custom"])) as Hnd'.
  { apply NoDup_app. split; [by apply NoDup_fmap_2|].
    split; [|apply NoDup_singleton].
    intros name Hname Hc. apply list_elem_of_singleton in Hc. subst.
    apply list_elem_of_fmap in Hname as (t & Ht & _). by apply (Hcustom t). }
  assert (tabs st' = (type_name <$> types) ++ [lit "custom"]) as Htabs.
  { unfold st', tabs. cbn [on_event]. unfold setVisibleCategories.
    cbn [visibleCategories]. rewrite (Set_from_of_distinct _ Hnd').
    unfold Set_add. rewrite decide_True; [done|]. set_solver. }
  split; [done|]. intros projectType. rewrite Htabs, <- Hin.
  rewrite elem_of_app, list_elem_of_singleton. split.
  - intros [Hname|Hc]; [|by apply Hcustom in Hc].
    apply list_elem_of_fmap in Hname as (t & Ht & Htin).
    by apply Hinj in Ht as ->.
  - intros Ht. left. apply list_elem_of_fmap. by exists projectType.
Qed.

End Detection.
End CommandPanelFacts.

(** * The custom command form and the panel *)

Module FormFacts.
Import DefaultCommands CustomCommandForm CommandFacts.

Lemma builtIn_ids_distinct : NoDup (ident <$> builtIn_commands).
Proof. apply (bool_decide_unpack _). vm_compute. exact I. Qed.

Lemma filter_none {A : Type} (P : A → Prop) `{∀ x, Decision (P x)}
    (l : list A) :
  (∀ x, x ∈ l → ¬ P x) → filter P l = [].
Proof.
  induction l as [|x l IH]; intros Hl; [done|].
  rewrite filter_cons, decide_False by (apply Hl; left).
  apply IH. intros y Hy. apply Hl. by right.
Qed.

(** After the update the last definition of the identifier of the new
    command is the new command, and the other identifiers are defined as
    before. *)
Lemma final_updated (custom : list CommandDefinition.t)
    (editing : option CommandDefinition.t) (new : CommandDefinition.t)
    (key : jsstring) :
  (∀ e, editing = Some e → ident new = ident e ∧ NoDup (ident <$> custom)) →
  final (updated custom editing new) key
  = if decide (ident new = key) then Some new else final custom key.
Proof.
  intros Hedit. unfold updated. destruct editing as [e|]; [|apply final_snoc].
  destruct (Hedit e eq_refl) as [Hid Hnd].
  destruct (list_find _ custom) as [[idx c]|] eqn:Hfind; [|apply final_snoc].
  apply list_find_Some in Hfind as (Hidx & Hc & Hbefore).
  pose proof (take_drop_middle custom idx c Hidx) as Hsplit.
  assert (<[idx := new]> custom = take idx custom ++ new :: drop (S idx) custom)
    as ->.
  { rewrite <- Hsplit at 1. rewrite insert_app_r_alt by (rewrite length_take; lia).
    rewrite length_take. apply lookup_lt_Some in Hidx.
    replace (idx - idx `min` length custom)%nat with 0%nat by lia. done. }
  rewrite <- Hsplit in Hnd. rewrite fmap_app, fmap_cons in Hnd.
  apply NoDup_app in Hnd as (_ & Hcross & Hafter).
  apply NoDup_cons in Hafter as [Hafter _].
  unfold final. rewrite filter_app, filter_cons.
  destruct (decide (ident new = key)) as [<-|Hne].
  - rewrite (filter_none _ (drop (S idx) custom)).
    + by rewrite last_snoc.
    + intros x Hx Heq. apply Hafter. rewrite Hc, <- Hid, <- Heq.
      apply list_elem_of_fmap. by exists x.
  - rewrite <- Hsplit at 3. rewrite filter_app, filter_cons.
    rewrite decide_False; [done|]. by rewrite Hc, <- Hid.
Qed.

(** X29. A command saved by the form is the one the panel shows.  When
    [handleSave] has saved, the name and the command of the new definition
    are not empty, the new definition is in the list that the panel builds
    from the saved array, it is the only definition of its identifier
    there -- it stands in place of any built-in or custom command of the
    same identifier, and no identifier is listed twice -- and the commands
    of other identifiers are the same as before.  An edited command must
    have had an identifier that no other custom command shares. *)
Theorem saved_command_is_shown (fields : Fields)
    (editingCommand : option CommandDefinition.t) (now : Z)
    (customCommands saved : list CommandDefinition.t) :
  handleSave fields editingCommand now (Some customCommands) true
  = Saved saved →
  (is_Some editingCommand → NoDup (ident <$> customCommands)) →
  let new := newCommand fields editingCommand now in
  CommandDefinition.name new ≠ []
  ∧ CommandDefinition.command new ≠ []
  ∧ new ∈ mergeCommands builtIn_commands saved
  ∧ (∀ cmd, cmd ∈ mergeCommands builtIn_commands saved →
            ident cmd = ident new → cmd = new)
  ∧ NoDup (ident <$> mergeCommands builtIn_commands saved)
  ∧ ∀ cmd, ident cmd ≠ ident new →
           cmd ∈ mergeCommands builtIn_commands saved
           ↔ cmd ∈ mergeCommands builtIn_commands customCommands.
Proof.
  intros Hsave Hdistinct new. unfold handleSave in Hsave.
  destruct (decide (trim (nameInput fields) = [])) as [|Hname]; [done|].
  destruct (decide (trim (commandInput fields) = [])) as [|Hcommand]; [done|].
  injection Hsave as <-. fold new.
  assert (∀ key, final (updated customCommands editingCommand new) key
                 = if decide (ident new = key) then Some new
                   else final customCommands key) as Hfinal.
  { intros key. apply final_updated. intros e ->. split; [done|].
    apply Hdistinct. by eexists. }
  split; [done|]. split; [done|]. split; [|split; [|split]].
  - apply mergeCommands_elem; [apply builtIn_ids_distinct|].
    left. rewrite Hfinal. by rewrite decide_True.
  - intros cmd Hin Hid.
    apply mergeCommands_elem in Hin; [|apply builtIn_ids_distinct].
    rewrite Hfinal, decide_True in Hin by done.
    destruct Hin as [[= ->]|[_ [=]]]. done.
  - destruct (merged_before_sort builtIn_commands
                (updated customCommands editingCommand new)
                builtIn_ids_distinct) as (merged & -> & Hnd & _).
    by rewrite (sort_by_order_perm merged).
  - intros cmd Hne.
    rewrite !mergeCommands_elem by apply builtIn_ids_distinct.
    rewrite Hfinal. by rewrite decide_False.
Qed.

End FormFacts.

(** * The animation engine *)

Module AnimationFacts.
Import AnimationEngine.

Lemma filter_other_singleton (h : nat) : filter (λ k, k ≠ h) [h] = [].
Proof.
  rewrite filter_cons, decide_False by (by intros H; apply H).
  by rewrite filter_nil.
Qed.

Ltac reduce_fields :=
  cbn [currentState transitionTimeout timeouts live stateChanges
       shows_outcome option_list app].

Lemma timed_mk (state : AnimationState) (handle : option nat) (n : nat)
    (changes : list AnimationState) :
  (is_Some handle ↔ shows_outcome state = true) →
  (∀ h, handle = Some h → (h < n)%nat) →
  timed (mk state handle n (option_list handle) changes).
Proof.
  intros Hshow Hlt. split; [done|]. split; [done|]. reduce_fields.
  destruct handle as [h|]; repeat constructor. by apply Hlt.
Qed.

Lemma timed_inv (st : t) :
  timed st →
  st = mk (currentState st) (transitionTimeout st) (timeouts st)
         (option_list (transitionTimeout st)) (stateChanges st).
Proof. intros (Hlive & _). destruct st. reduce_fields. cbn in Hlive. by subst. Qed.

Lemma setState_spec (state : AnimationState) (st : t) :
  timed st →
  setState state st
  = if decide (state = currentState st) then st
    else if shows_outcome state
         then mk state (Some (timeouts st)) (S (timeouts st)) [timeouts st]
                (stateChanges st ++ [state])
         else mk state None (timeouts st) [] (stateChanges st ++ [state]).
Proof.
  intros Ht. rewrite (timed_inv st Ht) at 1. unfold setState. reduce_fields.
  case_decide as Hsame; [by rewrite <- (timed_inv st Ht)|].
  unfold clearTransitionTimeout, clearTimeout. reduce_fields.
  destruct (transitionTimeout st) as [h|]; reduce_fields;
    rewrite ?filter_other_singleton; by destruct state.
Qed.

Lemma timed_setState (state : AnimationState) (st : t) :
  timed st → timed (setState state st).
Proof.
  intros Ht. rewrite (setState_spec state st Ht).
  case_decide as Hsame; [done|].
  destruct (shows_outcome state) eqn:Hs.
  - apply (timed_mk state (Some (timeouts st))).
    + split; [done|by eexists].
    + intros h [= <-]. lia.
  - apply (timed_mk state None).
    + split; [by intros [? ?]|by rewrite Hs].
    + done.
Qed.

Lemma timed_fires (handle : nat) (st : t) :
  timed st →
  timed (timeout_fires handle st)
  ∧ (handle ∈ live st →
     currentState (timeout_fires handle st) = idle
     ∧ live (timeout_fires handle st) = []).
Proof.
  intros Ht. pose proof Ht as (Hlive & Hshow & Hlt).
  unfold timeout_fires. case_bool_decide as Hin.
  2:{ split; [done|]. intros Hin'. by apply Hin in Hin'. }
  rewrite Hlive in Hin |- *.
  destruct (transitionTimeout st) as [h|] eqn:Htt;
    [|by apply elem_of_nil in Hin].
  apply list_elem_of_singleton in Hin as ->. cbn [option_list].
  rewrite filter_other_singleton.
  assert (shows_outcome (currentState st) = true) as Hcur
    by (apply Hshow; by eexists).
  unfold setState. reduce_fields.
  rewrite decide_False by (intros Heq; by rewrite <- Heq in Hcur).
  unfold clearTransitionTimeout. reduce_fields.
  split; [|done].
  apply (timed_mk idle None); [|done]. split; [by intros [? ?]|done].
Qed.

Lemma timed_on_event (st : t) (e : event) : timed st → timed (on_event st e).
Proof.
  intros Ht. destruct e as [state|exitCode| |handle|]; cbn [on_event].
  - by apply timed_setState.
  - case_decide; by apply timed_setState.
  - by apply timed_setState.
  - by apply timed_fires.
  - rewrite (timed_inv st Ht). unfold dispose, clearTransitionTimeout, clearTimeout.
    reduce_fields.
    destruct (transitionTimeout st) as [h|]; reduce_fields;
      rewrite ?filter_other_singleton;
      (apply (timed_mk idle None); [|done]); split; by intros [? ?] || done.
Qed.

(** X30. A success or error display always has its return to idle in
    flight, and nothing else has: after any sequence of [setState] calls,
    shell exits and spawns, timers firing and [dispose], the timers started
    and neither fired nor cleared are the one recorded in
    [transitionTimeout], there is one exactly when the state is success or
    error, and when it fires the state is idle with no timer left. *)
Theorem outcome_display_returns_to_idle (events : list event) :
  let st := run events initial in
  live st = option_list (transitionTimeout st)
  ∧ (is_Some (transitionTimeout st) ↔ shows_outcome (currentState st) = true)
  ∧ ∀ handle,
      handle ∈ live st →
      currentState (timeout_fires handle st) = idle
      ∧ live (timeout_fires handle st) = [].
Proof.
  intros st.
  assert (timed st) as Ht.
  { unfold st, run.
    assert (timed initial) as Hinit.
    { split; [done|]. split; [|constructor]. split; [by intros [? ?]|done]. }
    revert Hinit. generalize initial as st0.
    induction events as [|e events IH]; intros st0 H0; [done|].
    simpl. apply IH. by apply timed_on_event. }
  destruct Ht as (Hlive & Hshow & Hlt). split; [done|]. split; [done|].
  intros handle. by apply timed_fires.
Qed.

End AnimationFacts.

Module PanelInstances.
Import ProjectDetector DefaultCommands CommandPanel CustomCommandForm
  PanelScenarios.

Lemma detect_lists_marked_types_once_witness :
  MARKER_MAP ≡ₚ MARKER_MAP
  ∧ reverse MARKER_MAP ≡ₚ MARKER_MAP
  ∧ detect posix_join python_repo (lit "/repo") MARKER_MAP
    ≡ₚ detect posix_join python_repo (lit "/repo") (reverse MARKER_MAP).
Proof.
  assert (MARKER_MAP ≡ₚ MARKER_MAP) as H1 by reflexivity.
  assert (reverse MARKER_MAP ≡ₚ MARKER_MAP) as H2
    by apply reverse_Permutation.
  split; [exact H1|]. split; [exact H2|].
  exact (proj2 (proj2 (ProjectDetectorFacts.detect_lists_marked_types_once
                         posix_join python_repo (lit "/repo")
                         MARKER_MAP (reverse MARKER_MAP) H1 H2))).
Defined.

Lemma mergeCommands_overrides_by_id_witness :
  NoDup (CommandDefinition.id <$> builtIn_commands)
  ∧ NoDup (CommandDefinition.id
             <$> mergeCommands builtIn_commands custom_commands).
Proof.
  assert (NoDup (CommandDefinition.id <$> builtIn_commands)) as H1.
  { apply (bool_decide_unpack _). vm_compute. exact I. }
  split; [exact H1|].
  exact (proj1 (proj2 (CommandFacts.mergeCommands_overrides_by_id
                         builtIn_commands custom_commands H1))).
Defined.

Lemma tabs_are_detected_types_then_custom_witness :
  MARKER_MAP ≡ₚ MARKER_MAP
  ∧ tabs (on_event initial
            (ProjectDetected
               (type_name
                  <$> detect posix_join python_repo (lit "/repo") MARKER_MAP)))
    = (type_name <$> detect posix_join python_repo (lit "/repo") MARKER_MAP)
      ++ [lit "custom"].
Proof.
  assert (MARKER_MAP ≡ₚ MARKER_MAP) as H1 by reflexivity.
  split; [exact H1|].
  exact (proj1 (CommandPanelFacts.tabs_are_detected_types_then_custom
                  posix_join python_repo (lit "/repo") MARKER_MAP initial H1)).
Defined.

(** The custom [git-status] command edited: the new definition stands in
    place of the built-in and of the custom definition it replaces. *)
Lemma saved_command_is_shown_witness :
  handleSave edited_command_fields (Some edited_command) 1707984000000
    (Some custom_commands) true
  = Saved (<[0%nat := newCommand edited_command_fields (Some edited_command)
                        1707984000000]> custom_commands)
  ∧ (is_Some (Some edited_command) →
     NoDup (CommandDefinition.id <$> custom_commands))
  ∧ newCommand edited_command_fields (Some edited_command) 1707984000000
    ∈ mergeCommands builtIn_commands
        (<[0%nat := newCommand edited_command_fields (Some edited_command)
                      1707984000000]> custom_commands)
  ∧ ∀ cmd,
      cmd ∈ mergeCommands builtIn_commands
              (<[0%nat := newCommand edited_command_fields (Some edited_command)
                            1707984000000]> custom_commands) →
      CommandDefinition.id cmd
      = CommandDefinition.id
          (newCommand edited_command_fields (Some edited_command)
             1707984000000) →
      cmd = newCommand edited_command_fields (Some edited_command)
              1707984000000.
Proof.
  assert (handleSave edited_command_fields (Some edited_command) 1707984000000
            (Some custom_commands) true
          = Saved (<[0%nat := newCommand edited_command_fields
                                (Some edited_command) 1707984000000]>
                     custom_commands))
    as H1 by (vm_compute; reflexivity).
  assert (is_Some (Some edited_command) →
          NoDup (CommandDefinition.id <$> custom_commands)) as H2.
  { intros _. apply (bool_decide_unpack _). vm_compute. exact I. }
  split; [exact H1|]. split; [exact H2|].
  pose proof (FormFacts.saved_command_is_shown
    edited_command_fields (Some edited_command) 1707984000000 custom_commands
    (<[0%nat := newCommand edited_command_fields (Some edited_command)
                  1707984000000]> custom_commands)
    H1 H2) as (_ & _ & Hin & Honly & _).
  split; [exact Hin|exact Honly].
Defined.

End PanelInstances.
